(** * idiff: pairwise image diff of two directories

    A shallow embedding of [main.go] and a verification of its
    specification.  The Go packages the program calls are modelled in
    modules named after them ([color], [image], [os], [ioutil], [png],
    [draw], [filepath]); the functions of package [main] keep their names.
    The file system they work on is a finite map from paths to nodes
    ([vfs]).

    Conventions.
    - Go's [int] is a 64-bit two's complement integer; it is a [Z], and
      the additions written in [main.go] wrap around ([GoInt.add]).
    - A nil interface value is [None]; calling a method on it panics.
    - A function that touches the file system, or that may panic, lives in
      the monad [Go]: a file system goes in, and a result with the new file
      system comes out, or a panic, or nothing ever, when the function is
      blocked in a call of the external tool that does not exit.
    - Paths are taken clean, as [filepath.Join] leaves them, and without
      links: a file or directory is known under one path.
    - Permissions and the limits of the machine (memory, the size of a
      pixel buffer, open files, room on the disk) are outside the model. *)

From stdpp Require Import gmap strings list fin_maps.
From Stdlib Require Import ZArith Lia Ascii.

Local Open Scope Z_scope.

(** ** Go's machine integers *)

Module GoInt.

(** Two's complement wrap-around of a 64-bit [int]. *)
Definition wrap (z : Z) : Z := (z + 2 ^ 63) `mod` 2 ^ 64 - 2 ^ 63.

Definition add (a b : Z) : Z := wrap (a + b).

End GoInt.

(** ** Package [image/color] *)

Module color.

(** A [color.Color] is known through its one method, [RGBA()], which
    returns four alpha-premultiplied 16-bit channels.  A colour is
    modelled by those four results. *)
Record Color := mkColor { R : Z; G : Z; B : Z; A : Z }.

(** The zero value [color.RGBA{}]: transparent black. *)
Definition Transparent : Color := mkColor 0 0 0 0.

(** One channel through [color.RGBA]: the 8-bit value [uint8(v >> 8)] is
    stored, and [RGBA()] reads it back as [v8 | v8 << 8]. *)
Definition channel8 (v : Z) : Z :=
  let v8 := Z.land (Z.shiftr v 8) 255 in
  Z.lor v8 (Z.shiftl v8 8).

(** [color.RGBAModel.Convert]: the colour as an [*image.RGBA] holds it. *)
Definition RGBAModel (c : Color) : Color :=
  mkColor (channel8 (R c)) (channel8 (G c)) (channel8 (B c)) (channel8 (A c)).

(** The conversions [uint8(v)] and [uint32(v)]. *)
Definition uint8 (v : Z) : Z := Z.land v 255.
Definition uint32 (v : Z) : Z := v `mod` 2 ^ 32.

(** [color.NRGBA]: four 8-bit channels, not premultiplied by alpha. *)
Record NRGBA := mkNRGBA { NR : Z; NG : Z; NB : Z; NA : Z }.

(** [color.NRGBAModel.Convert] on a colour that is no [NRGBA] itself: the
    premultiplication is undone, and 8 bits of each channel are kept. *)
Definition NRGBAModel (c : Color) : NRGBA :=
  if A c =? 65535 then
    mkNRGBA (uint8 (Z.shiftr (R c) 8)) (uint8 (Z.shiftr (G c) 8))
            (uint8 (Z.shiftr (B c) 8)) 255
  else if A c =? 0 then mkNRGBA 0 0 0 0
  else
    let r := uint32 (R c * 65535) / A c in
    let g := uint32 (G c * 65535) / A c in
    let b := uint32 (B c * 65535) / A c in
    mkNRGBA (uint8 (Z.shiftr r 8)) (uint8 (Z.shiftr g 8))
            (uint8 (Z.shiftr b 8)) (uint8 (Z.shiftr (A c) 8)).

(** The method [RGBA()] of a [color.NRGBA]: [r |= r << 8; r *= a;
    r /= 0xff], and [a |= a << 8]. *)
Definition NRGBA_RGBA (c : NRGBA) : Color :=
  let premultiplied (v : Z) :=
    uint32 (Z.lor v (Z.shiftl v 8) * NA c) / 255 in
  mkColor (premultiplied (NR c)) (premultiplied (NG c)) (premultiplied (NB c))
          (Z.lor (NA c) (Z.shiftl (NA c) 8)).

End color.

(** ** Package [image] *)

Module image.

Record Point := mkPoint { X : Z; Y : Z }.

Record Rectangle := mkRectangle { Min : Point; Max : Point }.

(** [image.ZR], the zero rectangle. *)
Definition ZR : Rectangle := mkRectangle (mkPoint 0 0) (mkPoint 0 0).

(** [p.Add(q)] and [p.Sub(q)]. *)
Definition PointAdd (p q : Point) : Point := mkPoint (X p + X q) (Y p + Y q).
Definition PointSub (p q : Point) : Point := mkPoint (X p - X q) (Y p - Y q).

(** [image.Rect(x0, y0, x1, y1)]: the corners are put in order. *)
Definition Rect (x0 y0 x1 y1 : Z) : Rectangle :=
  let '(x0, x1) := if x1 <? x0 then (x1, x0) else (x0, x1) in
  let '(y0, y1) := if y1 <? y0 then (y1, y0) else (y0, y1) in
  mkRectangle (mkPoint x0 y0) (mkPoint x1 y1).

(** [r.Dx()], [r.Dy()]. *)
Definition Dx (r : Rectangle) : Z := X (Max r) - X (Min r).
Definition Dy (r : Rectangle) : Z := Y (Max r) - Y (Min r).

(** [r.Add(p)]: the rectangle translated by [p]. *)
Definition Add (r : Rectangle) (p : Point) : Rectangle :=
  mkRectangle (PointAdd (Min r) p) (PointAdd (Max r) p).

(** [r.Empty()]. *)
Definition Empty (r : Rectangle) : bool :=
  (X (Max r) <=? X (Min r)) || (Y (Max r) <=? Y (Min r)).

(** [r.Intersect(s)]: the largest rectangle in both, [ZR] when there is
    none. *)
Definition Intersect (r s : Rectangle) : Rectangle :=
  let r' :=
    mkRectangle
      (mkPoint (if X (Min r) <? X (Min s) then X (Min s) else X (Min r))
               (if Y (Min r) <? Y (Min s) then Y (Min s) else Y (Min r)))
      (mkPoint (if X (Max s) <? X (Max r) then X (Max s) else X (Max r))
               (if Y (Max s) <? Y (Max r) then Y (Max s) else Y (Max r))) in
  if Empty r' then ZR else r'.

(** [p.In(r)]. *)
Definition In (p : Point) (r : Rectangle) : bool :=
  (X (Min r) <=? X p) && (X p <? X (Max r)) &&
  (Y (Min r) <=? Y p) && (Y p <? Y (Max r)).

(** The interface [image.Image]: its bounds and its colour at a point.
    (The third method, [ColorModel], is never called by the program.) *)
Record Image := mkImage { Bounds : Rectangle; At : Z -> Z -> color.Color }.

(** [image.NewRGBA(r)]: a canvas of bounds [r], every pixel the zero
    colour.  (Go refuses a canvas whose pixel buffer would not fit the
    machine; that limit is outside the model.) *)
Definition NewRGBA (r : Rectangle) : Image :=
  mkImage r (fun _ _ => color.Transparent).

End image.



(** ** The file system, and the monad of the program's effects *)

Module vfs.

(** What a file holds, as far as the PNG codec can tell: a PNG stream with
    the width and height of its header and its pixels, or anything else. *)
Inductive FileData :=
| PNG (w h : Z) (pix : Z -> Z -> color.Color)
| NotPNG.

(** A path names a directory (with the names of its entries, in the order
    [ioutil.ReadDir] lists them: sorted by name) or a file.  A node is
    known under one path: the paths are taken clean, as [filepath.Join]
    leaves them.  The working directory is the node at [.], the root the
    node at [/]; what is not in the map does not exist.  The program reads
    one listing, after [os.MkdirAll] and
    before any job has run: the directories that [os.MkdirAll] makes are
    entered in the listing of the directory they lie in, the files that the
    jobs create and remove are not. *)
Inductive Node :=
| Dir (entries : list string)
| File (data : FileData).

(** A name entered in a listing, at its place in the order of the names;
    a name that is listed already is not listed twice. *)
Fixpoint enter (name : string) (entries : list string) : list string :=
  match entries with
  | [] => [name]
  | e :: rest =>
      match String.compare name e with
      | Lt => name :: entries
      | Eq => entries
      | Gt => e :: enter name rest
      end
  end.

End vfs.

(** The file system: the nodes at the paths that exist. *)
Abbreviation FS := (gmap string vfs.Node).

(** The run of a Go function: it returns, it panics, or it never comes
    back, blocked in a call of the external tool; the file system the tool
    has left by then is there for the other goroutines to see. *)
Inductive Outcome (A : Type) :=
| Returns (a : A)
| Panics
| Hangs (fs : FS).
Arguments Returns {A} a.
Arguments Panics {A}.
Arguments Hangs {A} fs.

Definition Go (A : Type) : Type := FS -> Outcome (A * FS).

#[global] Instance Go_ret : MRet Go :=
  fun A (a : A) fs => Returns (a, fs).

#[global] Instance Go_bind : MBind Go :=
  fun A B (k : A -> Go B) (m : Go A) fs =>
    match m fs with
    | Returns (a, fs') => k a fs'
    | Panics => Panics
    | Hangs fs' => Hangs fs'
    end.

(** A run-time panic. *)
Definition panic {A : Type} : Go A := fun _ => Panics.

(** Go's [error] values; only their being nil or not is ever looked at. *)
Inductive error :=
| ErrNotExist | ErrExist | ErrNotDir | ErrInvalid | ErrFormat | ErrExit.

(** ** Packages [os] and [io/ioutil] *)

Module os.

Import vfs.

(** [os.FileInfo], as far as the program looks at it. *)
Record FileInfo := mkFileInfo { IsDir : bool }.

(** [os.Stat(path)]. *)
Definition Stat (path : string) : Go (option FileInfo * option error) :=
  fun fs =>
    match fs !! path with
    | Some (Dir _) => Returns ((Some (mkFileInfo true), None), fs)
    | Some (File _) => Returns ((Some (mkFileInfo false), None), fs)
    | None => Returns ((None, Some ErrNotExist), fs)
    end.

(** [os.Open(path)]: the open file stands for the node it reads from; a
    nil [*os.File] is [None]. *)
Definition Open (path : string) : Go (option Node * option error) :=
  fun fs =>
    match fs !! path with
    | Some n => Returns ((Some n, None), fs)
    | None => Returns ((None, Some ErrNotExist), fs)
    end.

(** [os.IsPathSeparator]. *)
Definition IsPathSeparator (c : Ascii.ascii) : bool := Ascii.eqb c "/"%char.

(** Two loops over a path, from its end, as [os.MkdirAll] has them:
    [for i > 0 && IsPathSeparator(path[i-1]) { i-- }] skips the separators
    at the end, [for j > 0 && !IsPathSeparator(path[j-1]) { j-- }] goes
    back over the last element. *)
Fixpoint skipSeparators (path : string) (i : nat) : nat :=
  match i with
  | O => O
  | S i' =>
      match String.get i' path with
      | Some c => if IsPathSeparator c then skipSeparators path i' else i
      | None => i
      end
  end.

Fixpoint skipElement (path : string) (j : nat) : nat :=
  match j with
  | O => O
  | S j' =>
      match String.get j' path with
      | Some c => if IsPathSeparator c then j else skipElement path j'
      | None => j
      end
  end.

(** Where the last element of a path starts. *)
Definition lastElement (path : string) : nat :=
  skipElement path (skipSeparators path (String.length path)).

(** The directory a path lies in, as the system resolves it: what is
    before the separator of its last element; the working directory for a
    path of one element, the root for an element of the root. *)
Definition dirOf (path : string) : string :=
  match lastElement path with
  | O => "."
  | S O => "/"
  | S j => String.substring 0 j path
  end.

(** The last element of a path. *)
Definition baseOf (path : string) : string :=
  let i := skipSeparators path (String.length path) in
  let j := skipElement path i in
  String.substring j (i - j) path.

(** Whether [dir] names a directory. *)
Definition dirExists (fs : FS) (dir : string) : bool :=
  match fs !! dir with
  | Some (Dir _) => true
  | Some (File _) | None => false
  end.

(** Whether a path can name a new file: its last element is not empty and
    is not [.] or [..], which name directories, and no separator follows
    it. *)
Definition namesFile (path : string) : bool :=
  (skipSeparators path (String.length path) =? String.length path)%nat
  && negb (String.eqb (baseOf path) "")
  && negb (String.eqb (baseOf path) ".")
  && negb (String.eqb (baseOf path) "..").

(** [os.Create(path)]: the file is created in the directory it lies in,
    or truncated when it exists; a directory cannot be opened for writing,
    and no file can be created in a directory that does not exist, or
    under a name that is no file's.  The open file stands for the path it
    writes to. *)
Definition Create (path : string) : Go (option string * option error) :=
  fun fs =>
    match fs !! path with
    | Some (Dir _) => Returns ((None, Some ErrInvalid), fs)
    | Some (File _) => Returns ((Some path, None), <[path := File NotPNG]> fs)
    | None =>
        if namesFile path && dirExists fs (dirOf path)
        then Returns ((Some path, None), <[path := File NotPNG]> fs)
        else Returns ((None, Some ErrNotExist), fs)
    end.

(** [os.Remove(path)]: removes a file or an empty directory. *)
Definition Remove (path : string) : Go (option error) :=
  fun fs =>
    match fs !! path with
    | Some (File _) | Some (Dir []) => Returns (None, delete path fs)
    | Some (Dir (_ :: _)) => Returns (Some ErrInvalid, fs)
    | None => Returns (Some ErrNotExist, fs)
    end.

(** [os.Mkdir(path, perm)]: a new, empty directory, entered in the
    listing of the directory it lies in; that directory must exist, and
    the new one must have a name. *)
Definition Mkdir (path : string) : Go (option error) :=
  fun fs =>
    match fs !! path with
    | Some _ => Returns (Some ErrExist, fs)
    | None =>
        match fs !! dirOf path with
        | Some (Dir entries) =>
            if String.eqb (baseOf path) ""
            then Returns (Some ErrNotExist, fs)
            else
              Returns (None,
                       <[path := Dir []]>
                         (<[dirOf path := Dir (enter (baseOf path) entries)]> fs))
        | Some (File _) => Returns (Some ErrNotDir, fs)
        | None => Returns (Some ErrNotExist, fs)
        end
    end.

(** [os.MkdirAll(path, perm)]: nothing to do when the directory exists;
    otherwise the directory above is made first, in the same way, and then
    the directory itself.  The recursion is on a shorter path each time:
    [fuel] counts the characters that are left. *)
Fixpoint MkdirAll_from (fuel : nat) (path : string) : Go (option error) :=
  (* Fast path: if we can tell whether path is a directory or file, stop
     with success or error. *)
  '(dir, err) ← Stat path;
  match err, dir with
  | None, Some dir => if IsDir dir then mret None else mret (Some ErrNotDir)
  | None, None => panic
  | Some _, _ =>
      (* Slow path: make sure parent exists and then call Mkdir for path. *)
      let j := lastElement path in
      err ← (if (1 <? j)%nat then
               (* Create parent. *)
               match fuel with
               | S fuel => MkdirAll_from fuel (String.substring 0 (j - 1) path)
               | O => mret (Some ErrInvalid)
               end
             else mret None);
      match err with
      | Some _ => mret err
      | None =>
          (* Parent now exists; invoke Mkdir and use its result. *)
          err ← Mkdir path;
          match err with
          | Some _ =>
              '(dir, err1) ← Stat path;
              match err1, dir with
              | None, Some dir => if IsDir dir then mret None else mret err
              | _, _ => mret err
              end
          | None => mret None
          end
      end
  end.

Definition MkdirAll (path : string) : Go (option error) :=
  MkdirAll_from (String.length path) path.

End os.

Module ioutil.

Import vfs.

(** [ioutil.ReadDir(dirname)]: the entries of the directory; only their
    names are used. *)
Definition ReadDir (dirname : string) : Go (option (list string) * option error) :=
  fun fs =>
    match fs !! dirname with
    | Some (Dir entries) => Returns ((Some entries, None), fs)
    | _ => Returns ((None, Some ErrNotExist), fs)
    end.

End ioutil.

(** ** Package [image/png] *)

Module png.

Import vfs image.

(** The image a PNG stream of the given header and pixels decodes to: its
    bounds start at the origin. *)
Definition decoded (w h : Z) (pix : Z -> Z -> color.Color) : Image :=
  mkImage (Rect 0 0 w h)
    (fun x y => if In (mkPoint x y) (Rect 0 0 w h) then pix x y
                else color.Transparent).

(** [png.Decode(r)]: the header's width and height are read as 32-bit
    signed integers and must be positive; a nil file, a directory, or
    bytes that are no PNG stream give an error. *)
Definition Decode (r : option Node) : Go (option Image * option error) :=
  match r with
  | Some (File (PNG w h pix)) =>
      if (0 <? w) && (w <? 2 ^ 31) && (0 <? h) && (h <? 2 ^ 31)
      then mret (Some (decoded w h pix), None)
      else mret (None, Some ErrFormat)
  | _ => mret (None, Some ErrFormat)
  end.

(** A pixel of an [*image.RGBA], as [png.Decode] reads it back from the
    stream [png.Encode] has written.  A canvas with a pixel that is not
    opaque is written with 8 bits a channel and alpha, not premultiplied
    ([color.NRGBAModel]), and read back as an [*image.NRGBA]; a canvas that
    is opaque all over is written without alpha, and its pixels are read
    back the same as on this way. *)
Definition stored (c : color.Color) : color.Color :=
  color.NRGBA_RGBA (color.NRGBAModel c).

(** The stream [png.Encode] writes for a canvas: its header carries the
    canvas's width and height, its pixels are counted from the canvas's top
    left corner. *)
Definition encoded (m : Image) : FileData :=
  PNG (Dx (Bounds m)) (Dy (Bounds m))
      (fun x y =>
         stored (At m (X (Min (Bounds m)) + x) (Y (Min (Bounds m)) + y))).

(** [png.Encode(w, m)]: refuses an image with an empty or oversized side;
    writing to a nil file fails, and no failure panics. *)
Definition Encode (w : option string) (m : Image) : Go (option error) :=
  let mw := Dx (Bounds m) in
  let mh := Dy (Bounds m) in
  if (mw <=? 0) || (mh <=? 0) || (2 ^ 32 <=? mw) || (2 ^ 32 <=? mh)
  then mret (Some ErrFormat)
  else
    match w with
    | None => mret (Some ErrInvalid)
    | Some path => fun fs => Returns (None, <[path := File (encoded m)]> fs)
    end.

End png.

(** ** Package [image/draw] *)

Module draw.

Import image.

(** [clip]: the destination rectangle restricted to the destination's
    bounds and to the (translated) source's bounds, and the source point
    moved along with its corner. *)
Definition clip (dst : Image) (r : Rectangle) (src : Image) (sp : Point)
  : Rectangle * Point :=
  let orig := Min r in
  let r := Intersect r (Bounds dst) in
  let r := Intersect r (Add (Bounds src) (PointSub orig sp)) in
  let dx := X (Min r) - X orig in
  let dy := Y (Min r) - Y orig in
  (r, mkPoint (X sp + dx) (Y sp + dy)).

(** The drawing loop for the operator [draw.Src] and no mask: every point
    of the clipped rectangle takes the source's colour, converted to the
    canvas's colour model; the point [r.Min] of the canvas corresponds to
    [sp] in the source. *)
Definition drawSrc (dst : Image) (r : Rectangle) (src : Image) (sp : Point)
  : Image :=
  let '(r, sp) := clip dst r src sp in
  if Empty r then dst
  else
    mkImage (Bounds dst)
      (fun x y =>
         if In (mkPoint x y) r
         then color.RGBAModel
                (At src (x - X (Min r) + X sp) (y - Y (Min r) + Y sp))
         else At dst x y).

(** [draw.Draw(dst, r, src, sp, draw.Src)].  The canvas is updated in place
    in Go; here the updated canvas is returned.  A nil source panics, at
    the call of its [Bounds] method in [clip]. *)
Definition Draw (dst : Image) (r : Rectangle) (src : option Image) (sp : Point)
  : Go Image :=
  match src with
  | Some m => mret (drawSrc dst r m sp)
  | None => panic
  end.

End draw.

(** ** Package [path/filepath] *)

Module filepath.

(** The loop of [filepath.Ext]: [i] counts down from the end of the path,
    and stops at a dot or at a separator. *)
Fixpoint Ext_loop (path : string) (i : nat) : string :=
  match i with
  | O => ""
  | S i' =>
      match String.get i' path with
      | Some c =>
          if os.IsPathSeparator c then ""
          else if Ascii.eqb c "."%char
               then String.substring i' (String.length path - i')%nat path
               else Ext_loop path i'
      | None => ""
      end
  end.

(** [filepath.Ext(path)]: the suffix from the last dot of the last element
    of the path, empty when there is no dot. *)
Definition Ext (path : string) : string := Ext_loop path (String.length path).

End filepath.


(** ** Package [main]: the per-job algorithm *)

Record DiffJob := mkDiffJob {
  inFile1 : string;
  inFile2 : string;
  outFile : string;
  comparePath : string
}.

(** "return a pointer so that nil is a valid result, this allows the filter
    task to work correctly": a nil [*DiffJob] is [None]. *)
Definition DiffJobTask : Type := DiffJob -> Go (option DiffJob).

(** The method call [img.Bounds()] on an interface value: a nil receiver
    panics (nil pointer dereference). *)
Definition Image_Bounds (img : option image.Image) : Go image.Rectangle :=
  match img with
  | Some m => mret (image.Bounds m)
  | None => panic
  end.

(** "int max implementation!" *)
Definition intMax (i1 i2 : Z) : Z :=
  if i1 >? i2 then i1 else i2.

(** "load a file and decode it into an image object".  The deferred
    [imageFile.Close()] returns an error on a nil file and does not
    panic. *)
Definition loadAndDecodePng (filePath : string)
  : Go (option image.Image * option error) :=
  '(imageFile, e) ← os.Open filePath;
  match e with
  | Some _ => mret (None, e)
  | None =>
      '(decodedImage, e) ← png.Decode imageFile;
      match e with
      | Some _ => mret (None, e)
      | None => mret (decodedImage, None)
      end
  end.

(** "combine 3 images side by side".  The bounds of each image are read
    once here, in the order of their first use in Go; [Bounds] has no
    effect, so reading them again gives the same. *)
Definition combineImages (img1 img2 img3 : option image.Image)
  (outputFile : string) : Go unit :=
  b1 ← Image_Bounds img1;
  b2 ← Image_Bounds img2;
  b3 ← Image_Bounds img3;
  let width :=
    GoInt.add (GoInt.add (image.X (image.Max b1)) (image.X (image.Max b2)))
              (image.X (image.Max b3)) in
  let height :=
    intMax (intMax (image.Y (image.Max b1)) (image.Y (image.Max b2)))
           (image.Y (image.Max b3)) in
  let image2Offset := image.mkPoint (image.X (image.Max b1)) 0 in
  let image3Offset :=
    image.mkPoint (GoInt.add (image.X (image.Max b1)) (image.X (image.Max b2))) 0 in
  let newImage := image.NewRGBA (image.Rect 0 0 width height) in
  newImage ← draw.Draw newImage b1 img1 (image.mkPoint 0 0);
  newImage ← draw.Draw newImage (image.Add b2 image2Offset) img2 (image.mkPoint 0 0);
  newImage ← draw.Draw newImage (image.Add b3 image3Offset) img3 (image.mkPoint 0 0);
  '(toImg, _) ← os.Create outputFile;
  _ ← png.Encode toImg newImage;
  mret tt.

Definition resizeImage (img1 : option image.Image) (size : image.Rectangle)
  (outputFile : string) : Go unit :=
  let newImage := image.NewRGBA size in
  b1 ← Image_Bounds img1;
  newImage ← draw.Draw newImage b1 img1 (image.mkPoint 0 0);
  '(toImg, _) ← os.Create outputFile;
  _ ← png.Encode toImg newImage;
  mret tt.

(** "compare the Y length of 2 images and resize the smaller one returning
    the file paths for the 2 files" *)
Definition commonSizeImageLengths (in1 in2 out : string)
  : Go (string * string) :=
  '(img1, _) ← loadAndDecodePng in1;
  '(img2, _) ← loadAndDecodePng in2;
  b1 ← Image_Bounds img1;
  b2 ← Image_Bounds img2;
  if image.Y (image.Max b1) >? image.Y (image.Max b2) then
    (* resize img2 since it is shorter *)
    _ ← resizeImage img2 b1 out;
    mret (in1, out)
  else if image.Y (image.Max b2) >? image.Y (image.Max b1) then
    (* resize img1 since it is shorter *)
    _ ← resizeImage img1 b2 out;
    mret (out, in2)
  else mret (in1, in2).

Definition fileExists (path : string) : Go bool :=
  '(info, err) ← os.Stat path;
  match err, info with
  | Some _, _ => mret false
  | None, Some i => if os.IsDir i then mret false else mret true
  | None, None => panic
  end.

Definition filterDiffJobs : DiffJobTask := fun job =>
  e1 ← fileExists (inFile1 job);
  if negb e1 then mret None
  else
    e2 ← fileExists (inFile2 job);
    if negb e2 then mret None else mret (Some job).

Section Program.

(** The external world of the program.
    - [sh cmd fs] is the run of [sh -c cmd]: the file system it leaves, and
      how it ended: [Some true] when the command ran and exited with
      status zero, [Some false] when it could not be run or exited with
      another status, [None] when it never exits.
    - [Join] is [filepath.Join] on a directory and a name. *)
Variable sh : string -> FS -> FS * option bool.
Variable Join : string -> string -> string.

(** [exec.Command("sh", "-c", cmd).Output()]: the call waits for the
    command to exit, without a timeout; the captured output is never
    used. *)
Definition exec_Output (cmd : string) : Go (option error) :=
  fun fs =>
    let '(fs', status) := sh cmd fs in
    match status with
    | Some ok => Returns (if ok then None else Some ErrExit, fs')
    | None => Hangs fs'
    end.

Definition compareFiles (comparePath in1 in2 outFile : string) : Go unit :=
  let resize := outFile +:+ "tmp" in
  (* resize the 2 images if necessary *)
  '(inA, inB) ← commonSizeImageLengths in1 in2 resize;
  (* compare the 2 images and generate the diff image file *)
  let cmd :=
    comparePath +:+ " " +:+ inA +:+ " " +:+ inB
                +:+ " -highlight-color blue " +:+ outFile in
  err ← exec_Output cmd;
  _ ← match err with
      | Some _ => mret tt
      | None => mret tt
      end;
  (* load the out file image *)
  '(img1, _) ← loadAndDecodePng inA;
  '(img2, _) ← loadAndDecodePng inB;
  '(imgDiff, _) ← loadAndDecodePng outFile;
  (* combine them into a single image for comparison *)
  _ ← combineImages img1 imgDiff img2 outFile;
  (* remove the outfile *)
  _ ← os.Remove resize;
  mret tt.

Definition diffFiles : DiffJobTask := fun job =>
  _ ← compareFiles (comparePath job) (inFile1 job) (inFile2 job) (outFile job);
  mret (Some job).

End Program.

(** ** Package [main]: the pipeline

    The goroutines of the program talk through unbuffered channels: a send
    and the matching receive are one step, taken together.  The pipeline is
    a transition system over the states of its goroutines; a schedule is a
    list of moves, and every interleaving of the goroutines is a schedule.
    A task ([filterDiffJobs], [diffFiles]) runs on the file system in one
    step; a task that never comes back from the external tool leaves its
    goroutine in the call for ever. *)

(** The goroutine of [grabJobChannelGenerator], after it has listed the
    directory: the jobs it has still to send on its channel, in order, or
    its channel closed. *)
Inductive Generator :=
| Ranging (jobs : list DiffJob)
| GenClosed.

(** The goroutine of [performDiffJobTask]: waiting on [range chIn],
    holding a job it has received, inside a call of the task that never
    returns, blocked on [chOut <- *job], or past [close(chOut)]. *)
Inductive Stage :=
| Receiving
| Holding (job : DiffJob)
| Calling (job : DiffJob)
| Sending (job : DiffJob)
| StageClosed.

(** A goroutine of the loop in [fanDiffJobsIn]: waiting on [range chIn],
    blocked on [chOut <- i], or past [wg.Done()]. *)
Inductive Forwarder :=
| FwdReceiving
| FwdSending (job : DiffJob)
| FwdDone.

(** The process: running, exited with a status, or dead of a panic. *)
Inductive Process :=
| Alive
| Exited (status : Z)
| Panicked.

Record Pipeline := mkPipeline {
  world : FS;                      (* the file system *)
  chIn : Generator;                (* the generator and its channel *)
  chFiltered : Stage;              (* the filter stage and its channel *)
  chFanned : list Stage;           (* the diff workers and their channels *)
  fanIn : list Forwarder;          (* the forwarders of the fan-in *)
  wg : Z;                          (* the counter of the WaitGroup *)
  chOutClosed : bool;              (* close(chOut) of the fan-in *)
  ranged : list DiffJob;           (* what the loop of main has received *)
  process : Process
}.

Definition set_world (fs : FS) (s : Pipeline) : Pipeline :=
  mkPipeline fs (chIn s) (chFiltered s) (chFanned s) (fanIn s) (wg s)
             (chOutClosed s) (ranged s) (process s).
Definition set_chIn (g : Generator) (s : Pipeline) : Pipeline :=
  mkPipeline (world s) g (chFiltered s) (chFanned s) (fanIn s) (wg s)
             (chOutClosed s) (ranged s) (process s).
Definition set_chFiltered (st : Stage) (s : Pipeline) : Pipeline :=
  mkPipeline (world s) (chIn s) st (chFanned s) (fanIn s) (wg s)
             (chOutClosed s) (ranged s) (process s).
Definition set_chFanned (l : list Stage) (s : Pipeline) : Pipeline :=
  mkPipeline (world s) (chIn s) (chFiltered s) l (fanIn s) (wg s)
             (chOutClosed s) (ranged s) (process s).
Definition set_fanIn (l : list Forwarder) (s : Pipeline) : Pipeline :=
  mkPipeline (world s) (chIn s) (chFiltered s) (chFanned s) l (wg s)
             (chOutClosed s) (ranged s) (process s).
Definition set_wg (n : Z) (s : Pipeline) : Pipeline :=
  mkPipeline (world s) (chIn s) (chFiltered s) (chFanned s) (fanIn s) n
             (chOutClosed s) (ranged s) (process s).
Definition set_chOutClosed (b : bool) (s : Pipeline) : Pipeline :=
  mkPipeline (world s) (chIn s) (chFiltered s) (chFanned s) (fanIn s) (wg s)
             b (ranged s) (process s).
Definition set_ranged (l : list DiffJob) (s : Pipeline) : Pipeline :=
  mkPipeline (world s) (chIn s) (chFiltered s) (chFanned s) (fanIn s) (wg s)
             (chOutClosed s) l (process s).
Definition set_process (p : Process) (s : Pipeline) : Pipeline :=
  mkPipeline (world s) (chIn s) (chFiltered s) (chFanned s) (fanIn s) (wg s)
             (chOutClosed s) (ranged s) p.

(** The body of the loop of [performDiffJobTask] on a received job: the
    task runs; a nil result is dropped, another is to be sent.  A panic of
    the task kills the process; a task that does not return keeps the
    goroutine. *)
Definition performDiffJobTask (task : DiffJobTask) (grabJob : DiffJob)
  (set_stage : Stage -> Pipeline -> Pipeline) (s : Pipeline) : Pipeline :=
  match task grabJob (world s) with
  | Returns (Some job, fs) => set_stage (Sending job) (set_world fs s)
  | Returns (None, fs) => set_stage Receiving (set_world fs s)
  | Panics => set_process Panicked s
  | Hangs fs => set_stage (Calling grabJob) (set_world fs s)
  end.

(** The moves of the goroutines. *)
Inductive Move :=
| GeneratorSend              (* chOut <- DiffJob{...}, received by the filter *)
| GeneratorClose             (* close(chOut) of the generator *)
| FilterRun                  (* filterDiffJobs on the job held *)
| FilterClose                (* the filter's input is closed: close(chOut) *)
| WorkerReceive (i : nat)    (* the filter's send, received by worker i *)
| WorkerRun (i : nat)        (* diffFiles on the job held *)
| WorkerClose (i : nat)      (* the worker's input is closed: close(chOut) *)
| ForwarderReceive (i : nat) (* worker i's send, received by its forwarder *)
| ForwarderDone (i : nat)    (* worker i's channel is closed: wg.Done() *)
| MainReceive (i : nat)      (* forwarder i's send, received by main *)
| CloseOut                   (* wg.Wait() returns: close(chOut) *)
| MainReturn.                (* the loop of main ends, main returns *)

Section Pipeline.

Variable sh : string -> FS -> FS * option bool.
Variable Join : string -> string -> string.

(** The loop of the generator over the listing: the jobs it sends on its
    channel, in order. *)
Fixpoint generatorLoop (comparePath inDir1 indDir2 outDir : string)
  (files : list string) : list DiffJob :=
  match files with
  | [] => []
  | file :: files =>
      if String.eqb (filepath.Ext file) ".png" then
        let file1 := Join inDir1 file in
        let file2 := Join indDir2 file in
        let outFile := Join outDir file in
        mkDiffJob file1 file2 outFile comparePath
          :: generatorLoop comparePath inDir1 indDir2 outDir files
      else generatorLoop comparePath inDir1 indDir2 outDir files
  end.

(** [grabJobChannelGenerator]: the generator, once the directory is
    listed; [None] is [log.Fatal(err)]. *)
Definition grabJobChannelGenerator (comparePath inDir1 indDir2 outDir : string)
  : Go (option Generator) :=
  '(files, err) ← ioutil.ReadDir inDir1;
  match err with
  | Some _ => mret None
  | None =>
      mret (Some (Ranging (generatorLoop comparePath inDir1 indDir2 outDir
                             (default [] files))))
  end.

(** [fanOut(count, task, chIn)]: [count] stages on the one input channel. *)
Definition fanOut (count : Z) : list Stage :=
  replicate (Z.to_nat count) Receiving.

(** [fanDiffJobsIn(chIns...)]: a forwarder per channel, and the WaitGroup
    set to their number. *)
Definition fanDiffJobsIn (chIns : list Stage) : list Forwarder * Z :=
  (replicate (length chIns) FwdReceiving, Z.of_nat (length chIns)).

(** One move of the pipeline, when it is enabled. *)
Definition move (m : Move) (s : Pipeline) : option Pipeline :=
  match process s with
  | Alive =>
      match m with
      | GeneratorSend =>
          match chIn s, chFiltered s with
          | Ranging (job :: jobs), Receiving =>
              Some (set_chFiltered (Holding job) (set_chIn (Ranging jobs) s))
          | _, _ => None
          end
      | GeneratorClose =>
          match chIn s with
          | Ranging [] => Some (set_chIn GenClosed s)
          | _ => None
          end
      | FilterRun =>
          match chFiltered s with
          | Holding job =>
              Some (performDiffJobTask filterDiffJobs job set_chFiltered s)
          | _ => None
          end
      | FilterClose =>
          match chIn s, chFiltered s with
          | GenClosed, Receiving => Some (set_chFiltered StageClosed s)
          | _, _ => None
          end
      | WorkerReceive i =>
          match chFiltered s, chFanned s !! i with
          | Sending job, Some Receiving =>
              Some (set_chFanned (<[i := Holding job]> (chFanned s))
                      (set_chFiltered Receiving s))
          | _, _ => None
          end
      | WorkerRun i =>
          match chFanned s !! i with
          | Some (Holding job) =>
              Some (performDiffJobTask (diffFiles sh) job
                      (fun st s => set_chFanned (<[i := st]> (chFanned s)) s) s)
          | _ => None
          end
      | WorkerClose i =>
          match chFiltered s, chFanned s !! i with
          | StageClosed, Some Receiving =>
              Some (set_chFanned (<[i := StageClosed]> (chFanned s)) s)
          | _, _ => None
          end
      | ForwarderReceive i =>
          match chFanned s !! i, fanIn s !! i with
          | Some (Sending job), Some FwdReceiving =>
              Some (set_fanIn (<[i := FwdSending job]> (fanIn s))
                      (set_chFanned (<[i := Receiving]> (chFanned s)) s))
          | _, _ => None
          end
      | ForwarderDone i =>
          match chFanned s !! i, fanIn s !! i with
          | Some StageClosed, Some FwdReceiving =>
              Some (set_wg (wg s - 1) (set_fanIn (<[i := FwdDone]> (fanIn s)) s))
          | _, _ => None
          end
      | MainReceive i =>
          match fanIn s !! i, chOutClosed s with
          | Some (FwdSending job), false =>
              Some (set_ranged (ranged s ++ [job])
                      (set_fanIn (<[i := FwdReceiving]> (fanIn s)) s))
          | _, _ => None
          end
      | CloseOut =>
          if (wg s =? 0) && negb (chOutClosed s)
          then Some (set_chOutClosed true s)
          else None
      | MainReturn =>
          if chOutClosed s then Some (set_process (Exited 0) s) else None
      end
  | _ => None
  end.

(** One step of the pipeline: some goroutine moves. *)
Definition step (s s' : Pipeline) : Prop := exists m, move m s = Some s'.

(** A schedule, run from a state; [None] when a move is not enabled. *)
Fixpoint run (schedule : list Move) (s : Pipeline) : option Pipeline :=
  match schedule with
  | [] => Some s
  | m :: schedule =>
      match move m s with
      | Some s' => run schedule s'
      | None => None
      end
  end.

(** The pipeline as [main] starts it. *)
Definition start (threads : Z) (g : option Generator) (fs : FS) : Pipeline :=
  let workers := fanOut threads in
  let '(forwarders, n) := fanDiffJobsIn workers in
  match g with
  | Some chIn =>
      mkPipeline fs chIn Receiving workers forwarders n false [] Alive
  | None =>
      (* log.Fatal(err) *)
      mkPipeline fs GenClosed Receiving workers forwarders n false [] (Exited 1)
  end.

(** [flag.Parse()] with the flags [-t] and [-compare]: the values of the
    two flags, or the exit the package takes on its own (a flag it does not
    know, a value it cannot parse, [-h]). *)
Inductive Flags :=
| Parsed (threads : Z) (compare : string)
| FlagExit (status : Z).

Variable flag_Parse : list string -> Flags.

(** What [main] comes to: an exit from [flag.Parse], the usage message and
    [os.Exit(0)], a panic, or the pipeline started. *)
Inductive MainOutcome :=
| ExitFlag (status : Z)
| ExitUsage (status : Z)
| MainPanics
| Started (s : Pipeline).

Definition main (args : list string) (fs : FS) : MainOutcome :=
  match args with
  | [] => MainPanics
  | _ :: arguments =>
      match flag_Parse arguments with
      | FlagExit status => ExitFlag status
      | Parsed threads compare =>
          if negb (length args =? 4)%nat then ExitUsage 0
          else
            match args !! 1%nat, args !! 2%nat, args !! 3%nat with
            | Some dir1, Some dir2, Some outDir =>
                match
                  (_ ← os.MkdirAll outDir;
                   grabJobChannelGenerator compare dir1 dir2 outDir) fs
                with
                | Returns (chIn, fs) => Started (start threads chIn fs)
                | Panics | Hangs _ => MainPanics
                end
            | _, _, _ => MainPanics
            end
      end
  end.

End Pipeline.

(** * The specification's notions *)

(** A raster image, as the PNG decoder hands it to the program: its bounds
    start at the origin, and each side is positive and fits 31 bits. *)
Definition raster (m : image.Image) : Prop :=
  image.Min (image.Bounds m) = image.mkPoint 0 0 /\
  0 < image.X (image.Max (image.Bounds m)) < 2 ^ 31 /\
  0 < image.Y (image.Max (image.Bounds m)) < 2 ^ 31.

Definition width (m : image.Image) : Z := image.Dx (image.Bounds m).
Definition height (m : image.Image) : Z := image.Dy (image.Bounds m).

(** The pixel of [m] that the canvas shows at [(x, y)] when [m] is placed
    with its top left corner at the horizontal offset [off]. *)
Definition placed (off : Z) (m : image.Image) (x y : Z) : option color.Color :=
  if (off <=? x) && (x <? off + width m) && (0 <=? y) && (y <? height m)
  then Some (color.RGBAModel (image.At m (x - off) y))
  else None.

(** The composite in the specification's words: [A] at offset 0, [D] at
    offset [width A], [B] at offset [width A + width D], each top-aligned;
    the zero colour where no image lies. *)
Definition sideBySide (A D B : image.Image) (x y : Z) : color.Color :=
  match placed 0 A x y with
  | Some c => c
  | None =>
      match placed (width A) D x y with
      | Some c => c
      | None =>
          match placed (width A + width D) B x y with
          | Some c => c
          | None => color.Transparent
          end
      end
  end.

(** The file at [path] is a PNG stream that the program decodes to [m]. *)
Definition decodesTo (fs : FS) (path : string) (m : image.Image) : Prop :=
  loadAndDecodePng path fs = Returns ((Some m, None), fs).

(** [padded] shows every pixel of [shorter], at the coordinates it has in
    [shorter]: nothing of it is cropped. *)
Definition neverCrops (shorter padded : image.Image) : Prop :=
  forall x y,
    image.In (image.mkPoint x y) (image.Bounds shorter) = true ->
    image.In (image.mkPoint x y) (image.Bounds padded) = true /\
    image.At padded x y = color.RGBAModel (image.At shorter x y).

(** The canvas of the normalization, in the specification's words: the
    pixels of the shorter image where both images have a point, the zero
    colour elsewhere. *)
Definition paddedPixel (taller shorter : image.Image) (x y : Z) : color.Color :=
  if image.In (image.mkPoint x y) (image.Bounds shorter)
     && image.In (image.mkPoint x y) (image.Bounds taller)
  then color.RGBAModel (image.At shorter x y)
  else color.Transparent.

(** [path] names a regular file: it exists and is no directory. *)
Definition isRegularFile (fs : FS) (path : string) : bool :=
  match fs !! path with
  | Some (vfs.File _) => true
  | _ => false
  end.

(** The listing of a directory, when [path] names one. *)
Definition listing (fs : FS) (path : string) : option (list string) :=
  match fs !! path with
  | Some (vfs.Dir entries) => Some entries
  | _ => None
  end.

(** A file can be written at [path]: [path] names a regular file, which
    is truncated, or it names nothing yet, can name a file, and lies in a
    directory that exists. *)
Definition creatable (fs : FS) (path : string) : bool :=
  match fs !! path with
  | Some (vfs.File _) => true
  | Some (vfs.Dir _) => false
  | None => os.namesFile path && os.dirExists fs (os.dirOf path)
  end.

(** ** Notions about the pipeline *)

(** What is left to do for a stage: one step to close its channel, and the
    steps that the job it has in hand has still to take through the rest
    of the pipeline. *)
Definition stageWeight (hold send : nat) (st : Stage) : nat :=
  match st with
  | Receiving => 1
  | Holding _ => 1 + hold
  | Sending _ => 1 + send
  | Calling _ | StageClosed => 0
  end.

Definition forwarderWeight (f : Forwarder) : nat :=
  match f with
  | FwdReceiving => 1
  | FwdSending _ => 2
  | FwdDone => 0
  end.

Definition generatorWeight (g : Generator) : nat :=
  match g with
  | Ranging jobs => 1 + 6 * length jobs
  | GenClosed => 0
  end.

(** A bound on the number of steps the pipeline can still take. *)
Definition stepsLeft (s : Pipeline) : nat :=
  match process s with
  | Alive =>
      1 + generatorWeight (chIn s)
        + stageWeight 5 4 (chFiltered s)
        + sum_list (stageWeight 3 2 <$> chFanned s)
        + sum_list (forwarderWeight <$> fanIn s)
        + (if chOutClosed s then 0 else 1)
  | _ => 0
  end%nat.

(** The jobs that have not been through the filter yet, in order. *)
Definition upstream (s : Pipeline) : list DiffJob :=
  match chFiltered s with
  | Holding job => [job]
  | _ => []
  end
  ++ match chIn s with
     | Ranging jobs => jobs
     | GenClosed => []
     end.

Definition stageJob (st : Stage) : list DiffJob :=
  match st with
  | Holding job | Calling job | Sending job => [job]
  | _ => []
  end.

Definition forwarderJob (f : Forwarder) : list DiffJob :=
  match f with
  | FwdSending job => [job]
  | _ => []
  end.

(** The jobs that are past the filter and on their way to [main]. *)
Definition inFlight (s : Pipeline) : list DiffJob :=
  match chFiltered s with
  | Sending job => [job]
  | _ => []
  end
  ++ concat (stageJob <$> chFanned s)
  ++ concat (forwarderJob <$> fanIn s).

(** The forwarders that have not called [wg.Done()] yet. *)
Definition pending (l : list Forwarder) : nat :=
  sum_list ((fun f => match f with FwdDone => 0 | _ => 1 end)%nat <$> l).

(** The verdict of the filter on a job, in a file system. *)
Definition passes (fs : FS) (job : DiffJob) : bool :=
  isRegularFile fs (inFile1 job) && isRegularFile fs (inFile2 job).

(** The file system a run leaves to the rest of the program: none after
    a panic, which ends the process. *)
Definition leaves {A : Type} (o : Outcome (A * FS)) : option FS :=
  match o with
  | Returns (_, fs) | Hangs fs => Some fs
  | Panics => None
  end.

(** No run of a job changes whether the inputs of a later job exist. *)
Definition independent (sh : string -> FS -> FS * option bool) (jobs : list DiffJob)
  : Prop :=
  forall pre job suf, jobs = pre ++ job :: suf ->
  forall fs fs', leaves (diffFiles sh job fs) = Some fs' ->
  forall job', job' ∈ suf -> passes fs' job' = passes fs job'.

(** The channels are closed in the order of the pipeline. *)
Definition closedInOrder (s : Pipeline) : Prop :=
  (chFiltered s = StageClosed -> chIn s = GenClosed) /\
  (forall i, chFanned s !! i = Some StageClosed -> chFiltered s = StageClosed) /\
  (forall i, fanIn s !! i = Some FwdDone -> chFanned s !! i = Some StageClosed) /\
  (chOutClosed s = true -> forall f, f ∈ fanIn s -> f = FwdDone) /\
  (process s = Exited 0 -> chOutClosed s = true).

(** Every job has been consumed and processed: the generator and all the
    stages are past their [close], and no goroutine holds a job. *)
Definition allConsumed (s : Pipeline) : Prop :=
  chIn s = GenClosed /\ chFiltered s = StageClosed /\
  (forall st, st ∈ chFanned s -> st = StageClosed) /\
  (forall f, f ∈ fanIn s -> f = FwdDone).

(** What every state of a run satisfies: a forwarder per worker, the
    WaitGroup counting the forwarders still at work, and the channels
    closed in the order of the pipeline. *)
Definition invariant (s : Pipeline) : Prop :=
  length (chFanned s) = length (fanIn s) /\
  wg s = Z.of_nat (pending (fanIn s)) /\
  (chFiltered s = StageClosed -> chIn s = GenClosed) /\
  (forall i, chFanned s !! i = Some StageClosed -> chFiltered s = StageClosed) /\
  (forall i, fanIn s !! i = Some FwdDone -> chFanned s !! i = Some StageClosed) /\
  (chOutClosed s = true -> wg s = 0) /\
  (process s = Exited 0 -> chOutClosed s = true).

(** No job is lost and none is made up: the jobs of the listing are those
    that have been through the filter, followed by those that have not; of
    the former, those that passed the filter are with [main] or on their
    way to it; for the latter, the verdict of the filter is still what it
    was when the pipeline started. *)
Definition conserved (fs0 : FS) (jobs0 : list DiffJob) (s : Pipeline) : Prop :=
  (exists done,
      jobs0 = done ++ upstream s /\
      ranged s ++ inFlight s ≡ₚ filter (fun job => passes fs0 job) done) /\
  (forall job, job ∈ upstream s -> passes (world s) job = passes fs0 job).

(** A function leaves the path [p] of the file system as it is. *)
Definition preserves {A : Type} (p : string) (m : Go A) : Prop :=
  forall fs fs', leaves (m fs) = Some fs' -> fs' !! p = fs !! p.

(** The external tool leaves the path [p] as it is, whatever it is asked. *)
Definition toolPreserves (sh : string -> FS -> FS * option bool) (p : string) : Prop :=
  forall cmd fs, (sh cmd fs).1 !! p = fs !! p.

(** No job writes, at its output path or at its temporary path, over an
    input of a later job. *)
Fixpoint disjointWrites (jobs : list DiffJob) : bool :=
  match jobs with
  | [] => true
  | job :: later =>
      forallb
        (fun job' =>
           negb (String.eqb (outFile job) (inFile1 job'))
           && negb (String.eqb (outFile job) (inFile2 job'))
           && negb (String.eqb (outFile job +:+ "tmp") (inFile1 job'))
           && negb (String.eqb (outFile job +:+ "tmp") (inFile2 job')))
        later
      && disjointWrites later
  end.

(** A function that never waits: it runs no external tool. *)
Definition returnsOrPanics {A : Type} (m : Go A) : Prop :=
  forall fs fs', m fs <> Hangs fs'.

(** No goroutine is in a call of a task that does not return. *)
Definition noneCalling (s : Pipeline) : Prop :=
  (forall job, chFiltered s <> Calling job) /\
  (forall i job, chFanned s !! i <> Some (Calling job)).

(** The external tool exits, on every call. *)
Definition toolExits (sh : string -> FS -> FS * option bool) : Prop :=
  forall cmd fs, (sh cmd fs).2 <> None.

(** The moves that [n] workers and their forwarders can make, with those
    of the generator, of the filter and of [main]. *)
Definition moves (n : nat) : list Move :=
  [GeneratorSend; GeneratorClose; FilterRun; FilterClose; CloseOut; MainReturn]
  ++ concat ((fun i => [WorkerReceive i; WorkerRun i; WorkerClose i;
                        ForwarderReceive i; ForwarderDone i; MainReceive i])
             <$> seq 0 n).

(** No goroutine can move: the run has come to its end, or it is blocked
    for ever. *)
Definition stuck (sh : string -> FS -> FS * option bool) (s : Pipeline) : bool :=
  forallb (fun m => match move sh m s with
                    | Some _ => false
                    | None => true
                    end)
          (moves (Nat.max (length (chFanned s)) (length (fanIn s)))).

(** No job is made up: the jobs of the listing are those that have been
    through the filter, followed by those that have not, and what [main]
    has received and what is on its way to it are among the former, none
    more often than the listing has it. *)
Definition accounted (jobs0 : list DiffJob) (s : Pipeline) : Prop :=
  exists done, jobs0 = done ++ upstream s /\ ranged s ++ inFlight s ⊆+ done.

(** A function removes no file that is at the path [p]. *)
Definition keepsFile {A : Type} (p : string) (m : Go A) : Prop :=
  forall fs fs', leaves (m fs) = Some fs' ->
  isRegularFile fs p = true -> isRegularFile fs' p = true.

(** The external tool removes no file that is at the path [p], whatever
    it is asked. *)
Definition toolKeeps (sh : string -> FS -> FS * option bool) (p : string) : Prop :=
  forall cmd fs, isRegularFile fs p = true -> isRegularFile (sh cmd fs).1 p = true.

(** No run of a job removes the output file of a job. *)
Definition keepsOutputs (sh : string -> FS -> FS * option bool)
  (jobs : list DiffJob) : Prop :=
  forall job job', job ∈ jobs -> job' ∈ jobs -> keepsFile (outFile job') (diffFiles sh job).

(** The jobs past their diff worker: with [main], with a forwarder, or
    being sent by a worker. *)
Definition pastWorker (s : Pipeline) : list DiffJob :=
  ranged s
  ++ concat (forwarderJob <$> fanIn s)
  ++ concat ((fun st => match st with Sending job => [job] | _ => [] end)
             <$> chFanned s).

(** The output file of every job that is past its diff worker is there. *)
Definition outputsThere (s : Pipeline) : Prop :=
  forall job, job ∈ pastWorker s -> isRegularFile (world s) (outFile job) = true.

(** No temporary path of a job is the output path of a job. *)
Definition distinctOutputs (jobs : list DiffJob) : bool :=
  forallb
    (fun job =>
       forallb (fun job' => negb (String.eqb (outFile job +:+ "tmp") (outFile job')))
               jobs)
    jobs.

(** ** Notions for the further properties *)

(** The file at [path] cannot be opened or is no valid PNG stream. *)
Definition failsToDecode (fs : FS) (path : string) : Prop :=
  exists e, loadAndDecodePng path fs = Returns ((None, Some e), fs).

(** Whether a run returned. *)
Definition returned {A : Type} (o : Outcome A) : bool :=
  match o with
  | Returns _ => true
  | Panics | Hangs _ => false
  end.

(** A run of the normalization with the two returned paths exchanged. *)
Definition swapPaths (o : Outcome (string * string * FS))
  : Outcome (string * string * FS) :=
  match o with
  | Returns ((a, b), fs) => Returns ((b, a), fs)
  | Panics => Panics
  | Hangs fs => Hangs fs
  end.

(** The pipeline with one worker keeps the order: the jobs of the listing
    are those that have been through the filter, followed by those that
    have not; of the former, those that passed the filter are, in the
    order of the listing, what [main] has received, then the job with the
    forwarder, the job with the worker, and the job the filter is
    sending. *)
Definition inOrder (fs0 : FS) (jobs0 : list DiffJob) (s : Pipeline) : Prop :=
  exists done w f,
    chFanned s = [w] /\ fanIn s = [f] /\
    jobs0 = done ++ upstream s /\
    filter (fun job => passes fs0 job) done
    = ranged s ++ forwarderJob f ++ stageJob w
      ++ match chFiltered s with
         | Sending job => [job]
         | _ => []
         end.

(** The pipeline without a worker: no forwarder either, nothing received
    by [main], and the file system as it was at the start. *)
Definition idle (fs0 : FS) (s : Pipeline) : Prop :=
  chFanned s = [] /\ fanIn s = [] /\ ranged s = [] /\ world s = fs0.

(** ** Sample inputs *)

Module Sample.

(** An opaque image of one colour. *)
Definition solid (r g b : Z) : Z -> Z -> color.Color :=
  fun _ _ => color.mkColor r g b 65535.

(** An image whose pixels tell their coordinates. *)
Definition gradient : Z -> Z -> color.Color :=
  fun x y => color.mkColor (257 * x) (257 * y) 0 65535.

Definition imageA : image.Image := png.decoded 2 3 gradient.
Definition imageD : image.Image := png.decoded 1 1 (solid 0 0 65535).
Definition imageB : image.Image := png.decoded 3 2 (solid 65535 0 0).

(** [filepath.Join] on a clean directory and a plain name. *)
Definition join (dir name : string) : string := dir +:+ "/" +:+ name.

(** Two directories of screenshots: [x.png] is in both, with the same
    height; [y.png] is in the first only; [tall.png] is taller and narrower
    in the first than in the second. *)
Definition fs : FS :=
  <["a" := vfs.Dir ["notes.txt"; "x.png"; "y.png"]]>
  (<["b" := vfs.Dir ["x.png"]]>
  (<["out" := vfs.Dir []]>
  (<["a/x.png" := vfs.File (vfs.PNG 2 2 gradient)]>
  (<["b/x.png" := vfs.File (vfs.PNG 2 2 (solid 65535 0 0))]>
  (<["a/y.png" := vfs.File (vfs.PNG 2 2 gradient)]>
  (<["a/tall.png" := vfs.File (vfs.PNG 1 2 (solid 0 65535 0))]>
  (<["b/tall.png" := vfs.File (vfs.PNG 2 1 gradient)]>
  (<["a/broken.png" := vfs.File vfs.NotPNG]>
  (<["b/broken.png" := vfs.File (vfs.PNG 2 2 gradient)]> ∅))))))))).

Definition jobX : DiffJob := mkDiffJob "a/x.png" "b/x.png" "out/x.png" "compare".
Definition jobY : DiffJob := mkDiffJob "a/y.png" "b/y.png" "out/y.png" "compare".
Definition jobBroken : DiffJob :=
  mkDiffJob "a/broken.png" "b/broken.png" "out/broken.png" "compare".

(** The external tool cannot be run: it writes nothing and reports a
    failure. *)
Definition unreachable : string -> FS -> FS * option bool :=
  fun _ fs => (fs, Some false).

(** The external tool at work on [x.png]: it writes its picture of the
    differences to the output path and exits with a non-zero status, as it
    does when the images differ. *)
Definition compareTool : string -> FS -> FS * option bool :=
  fun cmd fs =>
    if String.eqb cmd "compare a/x.png b/x.png -highlight-color blue out/x.png"
    then (<["out/x.png" := vfs.File (vfs.PNG 2 2 (solid 0 0 65535))]> fs,
          Some false)
    else (fs, Some false).

(** A pair of images of unequal height, in the two directories; a job
    that reads the output of [jobX]; a job that writes where [jobX] has its
    temporary file. *)
Definition jobTall : DiffJob :=
  mkDiffJob "a/tall.png" "b/tall.png" "out/tall.png" "compare".
Definition jobChain : DiffJob :=
  mkDiffJob "out/x.png" "b/x.png" "out/xx.png" "compare".
Definition jobTmp : DiffJob :=
  mkDiffJob "a/x.png" "b/x.png" "out/x.pngtmp" "compare".

(** The commands the external tool is given for these jobs, each with the
    output path it names. *)
Definition commands : list (string * string) :=
  [("compare a/x.png b/x.png -highlight-color blue out/x.png", "out/x.png");
   ("compare a/tall.png out/tall.pngtmp -highlight-color blue out/tall.png",
    "out/tall.png");
   ("compare out/x.png b/x.png -highlight-color blue out/xx.png", "out/xx.png");
   ("compare a/x.png b/x.png -highlight-color blue out/x.pngtmp", "out/x.pngtmp")].

(** The external tool at work on these jobs: it writes its picture of the
    differences to the output path of the command, and exits with a
    status that is not zero. *)
Definition diffTool : string -> FS -> FS * option bool :=
  fun cmd fs =>
    match List.find (fun c => String.eqb cmd c.1) commands with
    | Some (_, out) =>
        (<[out := vfs.File (vfs.PNG 2 2 (solid 0 0 65535))]> fs, Some false)
    | None => (fs, Some false)
    end.

(** The external tool when it never exits on [x.png]. *)
Definition hangingTool : string -> FS -> FS * option bool :=
  fun cmd fs =>
    if String.eqb cmd "compare a/x.png b/x.png -highlight-color blue out/x.png"
    then (fs, None)
    else diffTool cmd fs.

(** Two images of 16 bits a channel: [deep/b.png] is 1 wide and 1 high,
    [deep/a.png] is 1 wide and 2 high. *)
Definition deep : FS :=
  <["deep" := vfs.Dir ["a.png"; "b.png"]]>
  (<["deep/a.png" := vfs.File (vfs.PNG 1 2 (solid 4660 0 0))]>
  (<["deep/b.png" := vfs.File (vfs.PNG 1 1 (solid 4660 0 0))]> ∅)).

(** The state a schedule leads to; the starting state when the schedule
    cannot be run. *)
Definition after (sh : string -> FS -> FS * option bool) (schedule : list Move)
  (s : Pipeline) : Pipeline :=
  default s (run sh schedule s).

(** Whether a schedule can be run from a state. *)
Definition runs (sh : string -> FS -> FS * option bool) (schedule : list Move)
  (s : Pipeline) : bool :=
  match run sh schedule s with
  | Some _ => true
  | None => false
  end.

(** The normalization of [tall.png], looked at from outside: the paths
    returned, the width of the image at the second path, and whether that
    image has the point (1, 0). *)
Definition cropped : bool :=
  match
    commonSizeImageLengths "a/tall.png" "b/tall.png" "out/tall.pngtmp" fs
  with
  | Returns ((pA, pB), fs') =>
      match loadAndDecodePng pB fs' with
      | Returns ((Some padded, _), _) =>
          String.eqb pA "a/tall.png" && String.eqb pB "out/tall.pngtmp"
          && (width padded =? 1)
          && negb (image.In (image.mkPoint 1 0) (image.Bounds padded))
      | _ => false
      end
  | _ => false
  end.

(** A run with one worker, and a run with two workers in which the second
    worker takes the job. *)
Definition schedule1 : list Move :=
  [GeneratorSend; FilterRun; WorkerReceive 0; GeneratorSend; WorkerRun 0;
   FilterRun; ForwarderReceive 0; GeneratorClose; MainReceive 0; FilterClose;
   WorkerClose 0; ForwarderDone 0; CloseOut; MainReturn].

Definition schedule2 : list Move :=
  [GeneratorSend; FilterRun; WorkerReceive 1; GeneratorSend; FilterRun;
   GeneratorClose; FilterClose; WorkerClose 0; WorkerRun 1; ForwarderDone 0;
   ForwarderReceive 1; WorkerClose 1; MainReceive 1; ForwarderDone 1;
   CloseOut; MainReturn].

(** A run with one worker that gets as far as the diff of the first job. *)
Definition scheduleCrash : list Move :=
  [GeneratorSend; FilterRun; WorkerReceive 0; GeneratorSend; FilterRun;
   WorkerRun 0].

(** A run with two workers in which the second worker is through with the
    second job before the first worker runs the first. *)
Definition scheduleCrash2 : list Move :=
  [GeneratorSend; FilterRun; WorkerReceive 0; GeneratorSend; FilterRun;
   WorkerReceive 1; WorkerRun 1; ForwarderReceive 1; MainReceive 1;
   WorkerRun 0].

(** Two jobs that both pass the filter: a run with one worker, and a run
    with two workers in which the second job comes out first. *)
Definition oneWorker : list Move :=
  [GeneratorSend; FilterRun; WorkerReceive 0; GeneratorSend; WorkerRun 0;
   FilterRun; ForwarderReceive 0; GeneratorClose; MainReceive 0;
   WorkerReceive 0; WorkerRun 0; ForwarderReceive 0; MainReceive 0; FilterClose;
   WorkerClose 0; ForwarderDone 0; CloseOut; MainReturn].

Definition twoWorkers : list Move :=
  [GeneratorSend; FilterRun; WorkerReceive 0; GeneratorSend; FilterRun;
   WorkerReceive 1; GeneratorClose; WorkerRun 1; ForwarderReceive 1;
   MainReceive 1; WorkerRun 0; ForwarderReceive 0; MainReceive 0; FilterClose;
   WorkerClose 0; WorkerClose 1; ForwarderDone 0; ForwarderDone 1; CloseOut;
   MainReturn].

(** A run with one worker in which the filter has had the second job
    before the worker runs the first, and a run with two workers in which
    the first job is done before the filter has the second. *)
Definition filterFirst : list Move :=
  [GeneratorSend; FilterRun; WorkerReceive 0; GeneratorSend; FilterRun;
   GeneratorClose; FilterClose; WorkerRun 0; ForwarderReceive 0; MainReceive 0;
   WorkerClose 0; ForwarderDone 0; CloseOut; MainReturn].

Definition workerFirst : list Move :=
  [GeneratorSend; FilterRun; WorkerReceive 0; WorkerRun 0; GeneratorSend;
   FilterRun; WorkerReceive 1; WorkerRun 1; ForwarderReceive 0; MainReceive 0;
   ForwarderReceive 1; MainReceive 1; GeneratorClose; FilterClose;
   WorkerClose 0; WorkerClose 1; ForwarderDone 0; ForwarderDone 1; CloseOut;
   MainReturn].

(** A run with one worker whose call of the external tool never returns. *)
Definition scheduleHang : list Move :=
  [GeneratorSend; FilterRun; WorkerReceive 0; WorkerRun 0; GeneratorClose;
   FilterClose].

(** The normalization of [deep/b.png], looked at from outside: the paths
    returned, and the red channel of the pixel (0, 0) of the image at the
    second path. *)
Definition reduced : bool :=
  match
    commonSizeImageLengths "deep/a.png" "deep/b.png" "deep/b.pngtmp" deep
  with
  | Returns ((pA, pB), fs') =>
      match loadAndDecodePng pB fs' with
      | Returns ((Some padded, _), _) =>
          String.eqb pA "deep/a.png" && String.eqb pB "deep/b.pngtmp"
          && (color.R (image.At padded 0 0) =? 4626)
      | _ => false
      end
  | _ => false
  end.

(** The normalization of [tall.png] in a job, looked at from outside:
    whether a file is at the temporary path once the normalization has
    returned. *)
Definition temporary : bool :=
  match
    commonSizeImageLengths "a/tall.png" "b/tall.png" "out/tall.pngtmp" fs
  with
  | Returns ((pA, pB), fs') =>
      String.eqb pA "a/tall.png" && String.eqb pB "out/tall.pngtmp"
      && isRegularFile fs' "out/tall.pngtmp"
  | _ => false
  end.

(** [flag.Parse] when the command line has no flag it minds: the default
    of the host (two processors) and the default tool. *)
Definition flags : list string -> Flags :=
  fun _ => Parsed 2 "compare".

(** A working directory that holds one directory, [b]. *)
Definition home : FS :=
  <["." := vfs.Dir ["b"]]> (<["b" := vfs.Dir ["x.png"]]> ∅).

End Sample.

(** * Verification *)

(** ** Integers and rectangles *)

Lemma wrap_small (z : Z) : - 2 ^ 63 <= z < 2 ^ 63 -> GoInt.wrap z = z.
Proof.
  intros Hz. unfold GoInt.wrap.
  rewrite Z.mod_small; lia.
Qed.

Lemma add_small (a b : Z) :
  - 2 ^ 62 <= a < 2 ^ 62 -> - 2 ^ 62 <= b < 2 ^ 62 -> GoInt.add a b = a + b.
Proof.
  intros Ha Hb. unfold GoInt.add. apply wrap_small. lia.
Qed.

Lemma intMax_max (a b : Z) : intMax a b = Z.max a b.
Proof.
  unfold intMax. destruct (Z.gtb_spec a b); lia.
Qed.

Lemma In_spec (x y : Z) (r : image.Rectangle) :
  image.In (image.mkPoint x y) r = true <->
  image.X (image.Min r) <= x < image.X (image.Max r) /\
  image.Y (image.Min r) <= y < image.Y (image.Max r).
Proof.
  unfold image.In; simpl.
  rewrite !andb_true_iff, !Z.leb_le, !Z.ltb_lt. lia.
Qed.

Lemma Empty_false (r : image.Rectangle) :
  image.Empty r = false <->
  image.X (image.Min r) < image.X (image.Max r) /\
  image.Y (image.Min r) < image.Y (image.Max r).
Proof.
  unfold image.Empty.
  rewrite orb_false_iff, !Z.leb_gt. lia.
Qed.

(** Intersecting with a rectangle that contains it leaves a non-empty
    rectangle as it is. *)
Lemma Intersect_within (r s : image.Rectangle) :
  image.Empty r = false ->
  image.X (image.Min s) <= image.X (image.Min r) ->
  image.Y (image.Min s) <= image.Y (image.Min r) ->
  image.X (image.Max r) <= image.X (image.Max s) ->
  image.Y (image.Max r) <= image.Y (image.Max s) ->
  image.Intersect r s = r.
Proof.
  intros He H1 H2 H3 H4.
  destruct r as [[a b] [c d]], s as [[a' b'] [c' d']]; simpl in *.
  apply Empty_false in He; simpl in He.
  unfold image.Intersect; simpl.
  destruct (Z.ltb_spec a a'), (Z.ltb_spec b b'),
    (Z.ltb_spec c' c), (Z.ltb_spec d' d); try lia.
  unfold image.Empty; simpl.
  destruct (Z.leb_spec c a), (Z.leb_spec d b); simpl; try lia.
  reflexivity.
Qed.

(** Nothing is clipped from a raster image placed on a canvas that has
    room for it. *)
Lemma clip_placed (dst m : image.Image) (off : Z) :
  raster m ->
  image.Min (image.Bounds dst) = image.mkPoint 0 0 ->
  0 <= off ->
  off + width m <= image.X (image.Max (image.Bounds dst)) ->
  height m <= image.Y (image.Max (image.Bounds dst)) ->
  draw.clip dst (image.Add (image.Bounds m) (image.mkPoint off 0)) m
    (image.mkPoint 0 0)
  = (image.Add (image.Bounds m) (image.mkPoint off 0), image.mkPoint 0 0).
Proof.
  intros (Hmin & Hx & Hy) Hd Hoff Hw Hh.
  unfold width, height, image.Dx, image.Dy in *.
  destruct m as [[[a b] [c d]] at_m], dst as [[[a' b'] [c' d']] at_d].
  simpl in *. inversion Hmin; subst a b. inversion Hd; subst a' b'.
  clear Hmin Hd.
  unfold draw.clip; simpl.
  set (r := image.Add _ _).
  assert (He : image.Empty r = false)
    by (apply Empty_false; subst r; simpl; lia).
  assert (H1 : image.Intersect r
                 (image.mkRectangle (image.mkPoint 0 0) (image.mkPoint c' d')) = r)
    by (apply Intersect_within; [assumption | subst r; simpl; lia ..]).
  rewrite H1.
  rewrite Intersect_within; [ | assumption | subst r; simpl; lia ..].
  subst r; simpl. f_equal. f_equal; lia.
Qed.

(** Drawing a raster image with its corner at the offset [off] of a canvas
    that has room for it: the canvas keeps its bounds, shows the image's
    pixels in the image's rectangle, and is unchanged elsewhere. *)
Lemma drawSrc_placed (dst m : image.Image) (off : Z) :
  raster m ->
  image.Min (image.Bounds dst) = image.mkPoint 0 0 ->
  0 <= off ->
  off + width m <= image.X (image.Max (image.Bounds dst)) ->
  height m <= image.Y (image.Max (image.Bounds dst)) ->
  forall r, r = image.Add (image.Bounds m) (image.mkPoint off 0) ->
  let dst' := draw.drawSrc dst r m (image.mkPoint 0 0) in
  image.Bounds dst' = image.Bounds dst /\
  forall x y,
    image.At dst' x y = default (image.At dst x y) (placed off m x y).
Proof.
  intros Hm Hd Hoff Hw Hh r ->. simpl.
  unfold draw.drawSrc. rewrite clip_placed by assumption.
  destruct Hm as (Hmin & Hx & Hy).
  unfold width, height, image.Dx, image.Dy in *.
  destruct m as [[[a b] [c d]] at_m]. simpl in *.
  inversion Hmin; subst a b. clear Hmin.
  replace (image.Empty _) with false
    by (symmetry; apply Empty_false; simpl; lia).
  simpl. split; [reflexivity |].
  intros x y. unfold placed, width, height, image.Dx, image.Dy; simpl.
  destruct (image.In _ _) eqn:Hin.
  - apply In_spec in Hin; simpl in Hin.
    replace ((off <=? x) && (x <? off + (c - 0)) && (0 <=? y) && (y <? d - 0))
      with true
      by (symmetry; rewrite !andb_true_iff, !Z.leb_le, !Z.ltb_lt; lia).
    simpl. do 2 f_equal; lia.
  - replace ((off <=? x) && (x <? off + (c - 0)) && (0 <=? y) && (y <? d - 0))
      with false; [reflexivity |].
    symmetry. apply not_true_is_false. intros Ht. 
    rewrite !andb_true_iff, !Z.leb_le, !Z.ltb_lt in Ht.
    assert (Hin' : image.In (image.mkPoint x y)
                     (image.Add (image.mkRectangle (image.mkPoint 0 0) (image.mkPoint c d))
                                (image.mkPoint off 0)) = true)
      by (apply In_spec; simpl; lia).
    congruence.
Qed.

Lemma Rect_origin (w h : Z) :
  0 <= w -> 0 <= h ->
  image.Rect 0 0 w h
  = image.mkRectangle (image.mkPoint 0 0) (image.mkPoint w h).
Proof.
  intros Hw Hh. unfold image.Rect.
  destruct (Z.ltb_spec w 0), (Z.ltb_spec h 0); try lia; reflexivity.
Qed.

Lemma raster_width (m : image.Image) :
  raster m -> image.X (image.Max (image.Bounds m)) = width m /\ 0 < width m < 2 ^ 31.
Proof.
  intros (Hmin & Hx & Hy). unfold width, image.Dx. rewrite Hmin; simpl. lia.
Qed.

Lemma raster_height (m : image.Image) :
  raster m -> image.Y (image.Max (image.Bounds m)) = height m /\ 0 < height m < 2 ^ 31.
Proof.
  intros (Hmin & Hx & Hy). unfold height, image.Dy. rewrite Hmin; simpl. lia.
Qed.

Lemma raster_Add_origin (m : image.Image) :
  raster m -> image.Bounds m = image.Add (image.Bounds m) (image.mkPoint 0 0).
Proof.
  intros (Hmin & _). destruct (image.Bounds m) as [[a b] [c d]].
  unfold image.Add, image.PointAdd; simpl. do 2 f_equal; f_equal; lia.
Qed.

(** The canvas [combineImages] builds from three raster images, by its
    three drawing calls in order. *)
Lemma combineImages_canvas (A D B : image.Image) (W H : Z) :
  raster A -> raster D -> raster B ->
  W = width A + width D + width B ->
  H = Z.max (Z.max (height A) (height D)) (height B) ->
  let c0 := image.NewRGBA (image.Rect 0 0 W H) in
  let c1 := draw.drawSrc c0 (image.Bounds A) A (image.mkPoint 0 0) in
  let c2 :=
    draw.drawSrc c1 (image.Add (image.Bounds D) (image.mkPoint (width A) 0)) D
      (image.mkPoint 0 0) in
  let c3 :=
    draw.drawSrc c2
      (image.Add (image.Bounds B) (image.mkPoint (width A + width D) 0)) B
      (image.mkPoint 0 0) in
  image.Bounds c3 = image.Rect 0 0 W H /\
  forall x y, image.At c3 x y = sideBySide A D B x y.
Proof.
  intros HA HD HB -> ->. intros c0 c1 c2 c3.
  destruct (raster_width A HA) as [_ HwA], (raster_width D HD) as [_ HwD],
    (raster_width B HB) as [_ HwB].
  destruct (raster_height A HA) as [_ HhA], (raster_height D HD) as [_ HhD],
    (raster_height B HB) as [_ HhB].
  assert (Hc0 : image.Bounds c0
                = image.mkRectangle (image.mkPoint 0 0)
                    (image.mkPoint (width A + width D + width B)
                       (Z.max (Z.max (height A) (height D)) (height B))))
    by (apply Rect_origin; lia).
  destruct (drawSrc_placed c0 A 0) with (r := image.Bounds A) as [Hb1 Hp1];
    try rewrite Hc0; simpl; try lia; auto using raster_Add_origin.
  fold c1 in Hb1, Hp1.
  destruct (drawSrc_placed c1 D (width A))
    with (r := image.Add (image.Bounds D) (image.mkPoint (width A) 0))
    as [Hb2 Hp2];
    try rewrite Hb1, Hc0; simpl; try lia; auto.
  fold c2 in Hb2, Hp2.
  destruct (drawSrc_placed c2 B (width A + width D))
    with (r := image.Add (image.Bounds B) (image.mkPoint (width A + width D) 0))
    as [Hb3 Hp3];
    try rewrite Hb2, Hb1, Hc0; simpl; try lia; auto.
  fold c3 in Hb3, Hp3.
  split.
  - rewrite Hb3, Hb2, Hb1. reflexivity.
  - intros x y. rewrite Hp3, Hp2, Hp1. unfold sideBySide, placed.
    simpl.
    repeat match goal with
           | |- context [if ?b then _ else _] => destruct b eqn:?
           end; simpl; try reflexivity;
      repeat match goal with
             | H : _ && _ = true |- _ => apply andb_true_iff in H; destruct H
             | H : (_ <=? _) = true |- _ => apply Z.leb_le in H
             | H : (_ <? _) = true |- _ => apply Z.ltb_lt in H
             end; lia.
Qed.

(** [png.Encode] accepts an image whose sides are positive and fit 32
    bits. *)
Lemma Encode_ok (w : option string) (m : image.Image) :
  0 < width m < 2 ^ 32 -> 0 < height m < 2 ^ 32 ->
  png.Encode w m
  = match w with
    | None => mret (Some ErrInvalid)
    | Some path => fun fs => Returns (None, <[path := vfs.File (png.encoded m)]> fs)
    end.
Proof.
  intros Hw Hh. unfold png.Encode, width, height in *.
  replace ((_ <=? 0) || _ || _ || _) with false; [reflexivity |].
  symmetry. rewrite !orb_false_iff, !Z.leb_gt. lia.
Qed.

(** C2. For raster images A, D and B, [combineImages] builds a canvas of
    width [width A + width D + width B] and of height the maximum of the
    three heights, with A at the horizontal offset 0, D at the offset
    [width A] and B at the offset [width A + width D], each top-aligned:
    the canvas is [sideBySide A D B], whatever the order the images came
    in.  The canvas is what is then encoded to the output file. *)
Theorem combineImages_side_by_side
  (A D B : image.Image) (outputFile : string) (fs : FS) :
  raster A -> raster D -> raster B ->
  exists canvas : image.Image,
    combineImages (Some A) (Some D) (Some B) outputFile fs
    = ('(toImg, _) ← os.Create outputFile;
       _ ← png.Encode toImg canvas;
       mret tt) fs /\
    image.Min (image.Bounds canvas) = image.mkPoint 0 0 /\
    width canvas = width A + width D + width B /\
    height canvas = Z.max (Z.max (height A) (height D)) (height B) /\
    forall x y, image.At canvas x y = sideBySide A D B x y.
Proof.
  intros HA HD HB.
  destruct (combineImages_canvas A D B _ _ HA HD HB eq_refl eq_refl)
    as [Hb Hat].
  destruct (raster_width A HA) as [HxA HwA], (raster_width D HD) as [HxD HwD],
    (raster_width B HB) as [HxB HwB].
  destruct (raster_height A HA) as [HyA HhA], (raster_height D HD) as [HyD HhD],
    (raster_height B HB) as [HyB HhB].
  pose proof (Rect_origin (width A + width D + width B)
                (Z.max (Z.max (height A) (height D)) (height B))) as HR.
  rewrite <- Hb in HR. specialize (HR ltac:(lia) ltac:(lia)).
  match type of HR with image.Bounds ?c = _ =>
    assert (Hw : width c = width A + width D + width B)
      by (unfold width at 1; rewrite HR; unfold image.Dx; simpl; lia);
    assert (Hh : height c = Z.max (Z.max (height A) (height D)) (height B))
      by (unfold height at 1; rewrite HR; unfold image.Dy; simpl; lia)
  end.
  eexists. split; [ | split; [ | split; [ | split ] ] ]; [ | | | | exact Hat ].
  - cbv beta iota zeta delta
      [combineImages mbind mret Go_bind Go_ret Image_Bounds draw.Draw].
    rewrite HxA, HxD, HxB, HyA, HyD, HyB, !intMax_max.
    rewrite !(add_small (width A) (width D)) by lia.
    rewrite add_small by lia.
    reflexivity.
  - rewrite HR; reflexivity.
  - exact Hw.
  - exact Hh.
Qed.

(** ** Loading and normalizing *)

(** [loadAndDecodePng] always returns, leaves the file system as it is, and
    hands out either an image or an error. *)
Lemma loadAndDecodePng_cases (path : string) (fs : FS) :
  (exists m, loadAndDecodePng path fs = Returns ((Some m, None), fs) /\ raster m)
  \/ (exists e, loadAndDecodePng path fs = Returns ((None, Some e), fs)).
Proof.
  unfold loadAndDecodePng, os.Open, mbind, Go_bind.
  destruct (fs !! path) as [[entries | [w h pix | ]] | ]; simpl;
    try (right; eexists; reflexivity).
  destruct ((0 <? w) && (w <? 2 ^ 31) && (0 <? h) && (h <? 2 ^ 31)) eqn:Hdim;
    simpl; [ | right; eexists; reflexivity ].
  left. eexists. split; [reflexivity |].
  rewrite !andb_true_iff, !Z.ltb_lt in Hdim.
  unfold raster, png.decoded; simpl.
  rewrite Rect_origin by lia. simpl. repeat split; lia.
Qed.

Lemma decodesTo_raster (fs : FS) (path : string) (m : image.Image) :
  decodesTo fs path m -> raster m.
Proof.
  unfold decodesTo. intros H.
  destruct (loadAndDecodePng_cases path fs) as [(m' & Hm' & Hr) | (e & He)];
    congruence.
Qed.

(** C3. For two input files that decode to images of equal height, the
    normalization returns the two original paths, in order, and leaves the
    file system as it was: no temporary file is created. *)
Theorem commonSizeImageLengths_equal_height
  (in1 in2 out : string) (fs : FS) (img1 img2 : image.Image) :
  decodesTo fs in1 img1 -> decodesTo fs in2 img2 ->
  height img1 = height img2 ->
  commonSizeImageLengths in1 in2 out fs = Returns ((in1, in2), fs).
Proof.
  intros H1 H2 Hh.
  destruct (raster_height img1 (decodesTo_raster _ _ _ H1)) as [Hy1 _].
  destruct (raster_height img2 (decodesTo_raster _ _ _ H2)) as [Hy2 _].
  unfold commonSizeImageLengths, mbind, Go_bind.
  rewrite H1, H2. simpl.
  rewrite Hy1, Hy2, Hh.
  destruct (Z.gtb_spec (height img2) (height img2)); [lia | reflexivity].
Qed.

(** Two rectangles at the origin meet in the rectangle of the smaller
    sides. *)
Lemma Intersect_origin (c d c' d' : Z) :
  0 < c -> 0 < d -> 0 < c' -> 0 < d' ->
  image.Intersect
    (image.mkRectangle (image.mkPoint 0 0) (image.mkPoint c d))
    (image.mkRectangle (image.mkPoint 0 0) (image.mkPoint c' d'))
  = image.mkRectangle (image.mkPoint 0 0)
      (image.mkPoint (Z.min c c') (Z.min d d')).
Proof.
  intros Hc Hd Hc' Hd'.
  unfold image.Intersect, image.Empty; simpl.
  destruct (Z.ltb_spec c' c), (Z.ltb_spec d' d); simpl;
    match goal with
    | |- context [?x <=? 0] => destruct (Z.leb_spec x 0); [lia |]
    end;
    match goal with
    | |- context [?x <=? 0] => destruct (Z.leb_spec x 0); [lia |]
    end; simpl; do 2 f_equal; lia.
Qed.

(** The canvas [resizeImage] builds: the bounds asked for, and the pixels
    of the image drawn where the image and the canvas both have a point.
    What lies outside the canvas is clipped. *)
Lemma resizeImage_canvas (taller shorter : image.Image) :
  raster taller -> raster shorter ->
  let canvas :=
    draw.drawSrc (image.NewRGBA (image.Bounds taller)) (image.Bounds shorter)
      shorter (image.mkPoint 0 0) in
  image.Bounds canvas = image.Bounds taller /\
  forall x y, image.At canvas x y = paddedPixel taller shorter x y.
Proof.
  intros (Hmin & Hx & Hy) (Hmin' & Hx' & Hy').
  unfold paddedPixel.
  destruct taller as [[[a b] [c d]] at_t], shorter as [[[a' b'] [c' d']] at_s].
  simpl in *. inversion Hmin; inversion Hmin'; subst. clear Hmin Hmin'.
  unfold draw.drawSrc, draw.clip; simpl.
  rewrite Intersect_origin by lia.
  replace (image.Add _ _)
    with (image.mkRectangle (image.mkPoint 0 0) (image.mkPoint c' d'))
    by (unfold image.Add, image.PointAdd; simpl; do 2 f_equal; f_equal; lia).
  rewrite Intersect_origin by lia. simpl.
  replace (image.Empty _) with false
    by (symmetry; apply Empty_false; simpl; lia).
  simpl. split; [reflexivity |].
  intros x y.
  destruct (image.In _ (image.mkRectangle _ (image.mkPoint (Z.min _ _) _))) eqn:Hin.
  - apply In_spec in Hin; simpl in Hin.
    replace (image.In _ _ && image.In _ _) with true
      by (symmetry; rewrite andb_true_iff, !In_spec; simpl; lia).
    do 2 f_equal; lia.
  - replace (image.In _ _ && image.In _ _) with false; [reflexivity |].
    symmetry. apply not_true_is_false. rewrite andb_true_iff, !In_spec; simpl.
    intros Hb. apply not_true_iff_false in Hin. apply Hin.
    apply In_spec; simpl. lia.
Qed.

(** [os.Create] by cases: it opens the file, emptied, where one can be
    written, and fails otherwise, leaving the file system as it is. *)
Lemma Create_creatable (path : string) (fs : FS) :
  os.Create path fs
  = if creatable fs path
    then Returns ((Some path, None), <[path := vfs.File vfs.NotPNG]> fs)
    else Returns ((None,
                   Some (match fs !! path with
                         | Some _ => ErrInvalid
                         | None => ErrNotExist
                         end)), fs).
Proof.
  unfold os.Create, creatable.
  destruct (fs !! path) as [[entries | data] | ]; reflexivity.
Qed.

(** Creating a file and encoding a canvas of valid sides to it. *)
Lemma Create_Encode_run (path : string) (m : image.Image) (fs : FS) :
  0 < width m < 2 ^ 32 -> 0 < height m < 2 ^ 32 ->
  ('(toImg, _) ← os.Create path; _ ← png.Encode toImg m; mret tt) fs
  = Returns (tt, if creatable fs path
                 then <[path := vfs.File (png.encoded m)]> fs
                 else fs).
Proof.
  intros Hw Hh. unfold mbind, Go_bind. rewrite Create_creatable.
  destruct (creatable fs path); rewrite Encode_ok by assumption.
  - rewrite insert_insert_eq. reflexivity.
  - reflexivity.
Qed.

(** [resizeImage] on a raster image and the bounds of another: the canvas
    is encoded to the output file, when that file can be written. *)
Lemma resizeImage_run (taller shorter : image.Image) (out : string) (fs : FS) :
  raster taller -> raster shorter ->
  resizeImage (Some shorter) (image.Bounds taller) out fs
  = Returns (tt,
             if creatable fs out
             then <[out := vfs.File (png.encoded
                      (draw.drawSrc (image.NewRGBA (image.Bounds taller))
                         (image.Bounds shorter) shorter (image.mkPoint 0 0)))]> fs
             else fs).
Proof.
  intros Ht Hs.
  destruct (resizeImage_canvas taller shorter Ht Hs) as [Hb _].
  destruct (raster_width taller Ht) as [_ Hw], (raster_height taller Ht) as [_ Hh].
  cbv beta iota zeta delta
    [resizeImage mbind mret Go_bind Go_ret Image_Bounds draw.Draw].
  apply Create_Encode_run.
  - unfold width. rewrite Hb. unfold width in Hw. lia.
  - unfold height. rewrite Hb. unfold height in Hh. lia.
Qed.

(** A property of all bytes, checked on each of them. *)
Lemma byte_cases (P : Z -> bool) :
  forallb P (Z.of_nat <$> seq 0 256) = true ->
  forall v, 0 <= v < 256 -> P v = true.
Proof.
  intros Hall v Hv. rewrite forallb_forall in Hall. apply Hall.
  apply list_elem_of_In. apply list_elem_of_fmap. exists (Z.to_nat v).
  split; [lia |]. apply elem_of_seq. lia.
Qed.

Lemma uint8_byte (v : Z) : 0 <= color.uint8 v < 256.
Proof.
  unfold color.uint8. change 255 with (Z.ones 8).
  rewrite Z.land_ones by lia. apply Z.mod_pos_bound. lia.
Qed.

(** A byte read as a 16-bit channel, and its byte read back. *)
Lemma channel_of_byte (v : Z) :
  0 <= v < 256 ->
  Z.lor v (Z.shiftl v 8) = 257 * v /\
  color.uint8 (Z.shiftr (Z.lor v (Z.shiftl v 8)) 8) = v.
Proof.
  intros Hv.
  pose proof (byte_cases
                (fun v => (Z.lor v (Z.shiftl v 8) =? 257 * v)
                          && (color.uint8 (Z.shiftr (Z.lor v (Z.shiftl v 8)) 8) =? v))
                ltac:(vm_compute; reflexivity) v Hv) as H.
  apply andb_true_iff in H. destruct H as [H1 H2].
  apply Z.eqb_eq in H1, H2. split; assumption.
Qed.

(** The zero colour is stored as it is. *)
Lemma stored_Transparent : png.stored color.Transparent = color.Transparent.
Proof. reflexivity. Qed.

(** An opaque pixel of a canvas is stored as it is. *)
Lemma stored_opaque (c : color.Color) :
  color.A (color.RGBAModel c) = 65535 ->
  png.stored (color.RGBAModel c) = color.RGBAModel c.
Proof.
  intros Ha. unfold png.stored, color.NRGBAModel. rewrite Ha. simpl.
  unfold color.NRGBA_RGBA, color.RGBAModel, color.channel8 in *; simpl in *.
  fold (color.uint8 (Z.shiftr (color.R c) 8)).
  fold (color.uint8 (Z.shiftr (color.G c) 8)).
  fold (color.uint8 (Z.shiftr (color.B c) 8)).
  pose proof (uint8_byte (Z.shiftr (color.R c) 8)) as Hr.
  pose proof (uint8_byte (Z.shiftr (color.G c) 8)) as Hg.
  pose proof (uint8_byte (Z.shiftr (color.B c) 8)) as Hb.
  destruct (channel_of_byte _ Hr) as [Hr1 Hr2].
  destruct (channel_of_byte _ Hg) as [Hg1 Hg2].
  destruct (channel_of_byte _ Hb) as [Hb1 Hb2].
  rewrite Hr2, Hg2, Hb2, Hr1, Hg1, Hb1, Ha.
  unfold color.uint32.
  rewrite !Z.mod_small by lia.
  rewrite !Z.div_mul by lia. reflexivity.
Qed.

(** What was encoded from a canvas with the bounds of a raster image
    decodes to an image of these bounds, with the pixels of the canvas as
    the stream stores them. *)
Lemma decodesTo_encoded (fs : FS) (out : string) (canvas taller : image.Image) :
  raster taller -> image.Bounds canvas = image.Bounds taller ->
  exists padded,
    decodesTo (<[out := vfs.File (png.encoded canvas)]> fs) out padded /\
    image.Bounds padded = image.Bounds taller /\
    forall x y,
      image.At padded x y
      = if image.In (image.mkPoint x y) (image.Bounds taller)
        then png.stored (image.At canvas x y) else color.Transparent.
Proof.
  intros Ht Hb.
  destruct (raster_width taller Ht) as [_ Hw], (raster_height taller Ht) as [_ Hh].
  destruct Ht as (Hmin & Hx & Hy).
  unfold width, height in Hw, Hh.
  exists (png.decoded (image.Dx (image.Bounds canvas)) (image.Dy (image.Bounds canvas))
            (fun x y =>
               png.stored
                 (image.At canvas (image.X (image.Min (image.Bounds canvas)) + x)
                    (image.Y (image.Min (image.Bounds canvas)) + y)))).
  assert (HR : image.Rect 0 0 (image.Dx (image.Bounds taller))
                 (image.Dy (image.Bounds taller)) = image.Bounds taller).
  { rewrite Rect_origin by lia.
    destruct (image.Bounds taller) as [[a b] [c d]]. simpl in *.
    inversion Hmin; subst. unfold image.Dx, image.Dy; simpl.
    do 2 f_equal; lia. }
  split; [ | split ].
  - unfold decodesTo, loadAndDecodePng, os.Open, mbind, Go_bind.
    rewrite lookup_insert_eq. simpl. rewrite Hb.
    replace (_ && _ && _ && _) with true; [reflexivity |].
    symmetry. rewrite !andb_true_iff, !Z.ltb_lt. lia.
  - simpl. rewrite Hb. exact HR.
  - intros x y. simpl. rewrite Hb, HR, Hmin. simpl.
    destruct (image.In _ _); [ | reflexivity ].
    do 2 f_equal; lia.
Qed.

(** A file that decodes can be written over. *)
Lemma decodesTo_creatable (fs : FS) (path : string) (m : image.Image) :
  decodesTo fs path m -> creatable fs path = true.
Proof.
  unfold decodesTo, loadAndDecodePng, os.Open, mbind, Go_bind, creatable.
  destruct (fs !! path) as [[entries | data] | ]; simpl;
    [discriminate | reflexivity | discriminate].
Qed.

(** Decoding a file looks at that file only. *)
Lemma decodesTo_lookup (fs fs' : FS) (path : string) (m : image.Image) :
  fs' !! path = fs !! path -> decodesTo fs path m -> decodesTo fs' path m.
Proof.
  unfold decodesTo, loadAndDecodePng, os.Open, mbind, Go_bind.
  intros ->.
  destruct (fs !! path) as [[entries | [w h pix | ]] | ]; simpl;
    try discriminate.
  destruct (_ && _ && _ && _); simpl; [ | discriminate ].
  intros H. inversion H. reflexivity.
Qed.

(** A raster image lies within the bounds of another that is as wide and
    as high at least. *)
Lemma In_raster_within (taller shorter : image.Image) (x y : Z) :
  raster taller -> raster shorter ->
  width shorter <= width taller -> height shorter <= height taller ->
  image.In (image.mkPoint x y) (image.Bounds shorter) = true ->
  image.In (image.mkPoint x y) (image.Bounds taller) = true.
Proof.
  intros Ht Hs Hw Hh Hin.
  destruct (raster_width taller Ht) as [Hxt _], (raster_height taller Ht) as [Hyt _].
  destruct (raster_width shorter Hs) as [Hxs _], (raster_height shorter Hs) as [Hys _].
  destruct Ht as (Hmt & _), Hs as (Hms & _).
  apply In_spec. apply In_spec in Hin.
  rewrite Hmt, Hxt, Hyt. rewrite Hms, Hxs, Hys in Hin. simpl in *. lia.
Qed.

(** Padding the shorter of two raster images to the bounds of the taller
    one, at a path where a file can be written. *)
Lemma resizeImage_pads (taller shorter : image.Image) (out : string) (fs : FS) :
  raster taller -> raster shorter -> creatable fs out = true ->
  height shorter < height taller ->
  exists canvas padded,
    let fs' := <[out := vfs.File (png.encoded canvas)]> fs in
    resizeImage (Some shorter) (image.Bounds taller) out fs = Returns (tt, fs') /\
    image.Bounds canvas = image.Bounds taller /\
    (forall x y, image.At canvas x y = paddedPixel taller shorter x y) /\
    (width shorter <= width taller -> neverCrops shorter canvas) /\
    decodesTo fs' out padded /\
    image.Bounds padded = image.Bounds taller /\
    (forall x y,
        image.At padded x y = png.stored (paddedPixel taller shorter x y)) /\
    (forall x y,
        image.In (image.mkPoint x y) (image.Bounds shorter) = true ->
        image.In (image.mkPoint x y) (image.Bounds taller) = true ->
        color.A (color.RGBAModel (image.At shorter x y)) = 65535 ->
        image.At padded x y = color.RGBAModel (image.At shorter x y)).
Proof.
  intros Ht Hs Hout Hlt.
  destruct (resizeImage_canvas taller shorter Ht Hs) as [Hb Hat].
  destruct (decodesTo_encoded fs out _ taller Ht Hb) as (padded & Hdec & Hpb & Hpat).
  assert (Hpat' : forall x y,
             image.At padded x y = png.stored (paddedPixel taller shorter x y)).
  { intros x y. rewrite Hpat, Hat. unfold paddedPixel.
    destruct (image.In _ (image.Bounds taller)); [reflexivity |].
    rewrite andb_false_r. reflexivity. }
  eexists _, padded. cbv zeta.
  split; [ rewrite resizeImage_run by assumption; rewrite Hout; reflexivity | ].
  split; [exact Hb |]. split; [exact Hat |].
  split; [ | split; [exact Hdec | split; [exact Hpb | split; [exact Hpat' |]]] ].
  - intros Hw x y Hin.
    assert (Hin' : image.In (image.mkPoint x y) (image.Bounds taller) = true)
      by (apply (In_raster_within taller shorter); try assumption; lia).
    split.
    + rewrite Hb. exact Hin'.
    + rewrite Hat. unfold paddedPixel. rewrite Hin, Hin'. reflexivity.
  - intros x y Hin Hin' Ha. rewrite Hpat'. unfold paddedPixel.
    rewrite Hin, Hin'. simpl. apply stored_opaque. exact Ha.
Qed.

(** C4, as the code has it.  For two input files that decode to images of
    unequal height, and a temporary path at which a file can be written,
    the normalization scales nothing: it allocates a canvas with the bounds
    of the taller image, draws the shorter image on it at the origin, each
    pixel reduced to the 8 bits a channel of the canvas, leaves the zero
    colour elsewhere, encodes the canvas to the temporary path, and returns
    that path in the place of the shorter image's, next to the taller
    image's own path.  The two returned paths then hold images of the same
    bounds.  The canvas has the taller image's width: no pixel of the
    shorter image is cropped when it is no wider than the taller one, and
    the columns beyond the taller image's width are clipped when it is
    wider.  The image read back from the temporary path has the pixels of
    the canvas as the stream stores them: the opaque ones as they are. *)
Theorem commonSizeImageLengths_pads
  (in1 in2 out : string) (fs : FS) (img1 img2 : image.Image) :
  decodesTo fs in1 img1 -> decodesTo fs in2 img2 ->
  height img1 <> height img2 ->
  creatable fs out = true ->
  let first_taller := height img1 >? height img2 in
  let taller := if first_taller then img1 else img2 in
  let shorter := if first_taller then img2 else img1 in
  let paths := if first_taller then (in1, out) else (out, in2) in
  exists canvas padded,
    let fs' := <[out := vfs.File (png.encoded canvas)]> fs in
    commonSizeImageLengths in1 in2 out fs = Returns (paths, fs') /\
    image.Bounds canvas = image.Bounds taller /\
    (forall x y, image.At canvas x y = paddedPixel taller shorter x y) /\
    (width shorter <= width taller -> neverCrops shorter canvas) /\
    decodesTo fs' out padded /\
    image.Bounds padded = image.Bounds taller /\
    (forall x y,
        image.At padded x y = png.stored (paddedPixel taller shorter x y)) /\
    (forall x y,
        image.In (image.mkPoint x y) (image.Bounds shorter) = true ->
        image.In (image.mkPoint x y) (image.Bounds taller) = true ->
        color.A (color.RGBAModel (image.At shorter x y)) = 65535 ->
        image.At padded x y = color.RGBAModel (image.At shorter x y)) /\
    (exists mA mB,
        decodesTo fs' paths.1 mA /\ decodesTo fs' paths.2 mB /\
        image.Bounds mA = image.Bounds mB).
Proof.
  intros H1 H2 Hne Hout. cbv zeta.
  pose proof (decodesTo_raster _ _ _ H1) as Hr1.
  pose proof (decodesTo_raster _ _ _ H2) as Hr2.
  destruct (raster_height img1 Hr1) as [Hy1 _].
  destruct (raster_height img2 Hr2) as [Hy2 _].
  unfold commonSizeImageLengths, mbind, Go_bind.
  rewrite H1, H2.
  cbv beta iota zeta delta [Image_Bounds mret Go_ret].
  rewrite Hy1, Hy2.
  destruct (Z.gtb_spec (height img1) (height img2)) as [Hgt | Hle].
  - destruct (resizeImage_pads img1 img2 out fs Hr1 Hr2 Hout ltac:(lia))
      as (canvas & padded & Hres & Hb & Hat & Hcrop & Hdec & Hpb & Hpat & Hop).
    exists canvas, padded.
    split; [ rewrite Hres; reflexivity | ].
    do 7 (split; [assumption |]).
    simpl. destruct (decide (out = in1)) as [-> | Hdiff].
    + exists padded, padded. auto.
    + exists img1, padded.
      split; [ | split; [assumption | congruence] ].
      eapply decodesTo_lookup; [ | exact H1 ].
      apply lookup_insert_ne. exact Hdiff.
  - destruct (Z.gtb_spec (height img2) (height img1)) as [Hgt | Hle']; [ | lia ].
    destruct (resizeImage_pads img2 img1 out fs Hr2 Hr1 Hout ltac:(lia))
      as (canvas & padded & Hres & Hb & Hat & Hcrop & Hdec & Hpb & Hpat & Hop).
    exists canvas, padded.
    split; [ rewrite Hres; reflexivity | ].
    do 7 (split; [assumption |]).
    simpl. destruct (decide (out = in2)) as [-> | Hdiff].
    + exists padded, padded. auto.
    + exists padded, img2.
      split; [assumption | split; [ | congruence] ].
      eapply decodesTo_lookup; [ | exact H2 ].
      apply lookup_insert_ne. exact Hdiff.
Qed.

Lemma bind_Returns {A B : Type} (m : Go A) (k : A -> Go B) (fs fs' : FS) (b : B) :
  (m ≫= k) fs = Returns (b, fs') ->
  exists a fs1, m fs = Returns (a, fs1) /\ k a fs1 = Returns (b, fs').
Proof.
  unfold mbind, Go_bind.
  destruct (m fs) as [[a fs1] | | fs1]; [ | discriminate .. ].
  intros H. exists a, fs1. split; [reflexivity | exact H].
Qed.

(** Creating the output file and encoding to it returns, whatever comes of
    the two calls. *)
Lemma Create_Encode_returns (path : string) (m : image.Image) (fs : FS) :
  exists fs',
    ('(toImg, _) ← os.Create path; _ ← png.Encode toImg m; mret tt) fs
    = Returns (tt, fs').
Proof.
  unfold mbind, Go_bind. rewrite Create_creatable. unfold png.Encode.
  destruct (creatable fs path); destruct (_ || _ || _ || _);
    eexists; reflexivity.
Qed.

Lemma resizeImage_returns (m : image.Image) (size : image.Rectangle)
  (out : string) (fs : FS) :
  exists fs', resizeImage (Some m) size out fs = Returns (tt, fs').
Proof.
  cbv beta iota zeta delta
    [resizeImage mbind mret Go_bind Go_ret Image_Bounds draw.Draw].
  apply Create_Encode_returns.
Qed.

Lemma failsToDecode_cases (fs : FS) (path : string) :
  (exists m, decodesTo fs path m) \/ failsToDecode fs path.
Proof.
  destruct (loadAndDecodePng_cases path fs) as [(m & Hm & _) | He].
  - left. exists m. exact Hm.
  - right. exact He.
Qed.

(** The normalization and the composition never wait: they run no
    external tool. *)
Lemma commonSizeImageLengths_returnsOrPanics (in1 in2 out : string) :
  returnsOrPanics (commonSizeImageLengths in1 in2 out).
Proof.
  intros fs fs'. unfold commonSizeImageLengths, mbind, Go_bind.
  destruct (failsToDecode_cases fs in1) as [[m1 H1] | [e1 H1]];
    destruct (failsToDecode_cases fs in2) as [[m2 H2] | [e2 H2]];
    unfold decodesTo in *; rewrite H1, H2; try discriminate.
  cbv beta iota zeta delta [Image_Bounds mret Go_ret].
  destruct (_ >? _).
  - destruct (resizeImage_returns m2 (image.Bounds m1) out fs) as [fs1 ->].
    discriminate.
  - destruct (_ >? _); [ | discriminate ].
    destruct (resizeImage_returns m1 (image.Bounds m2) out fs) as [fs1 ->].
    discriminate.
Qed.

Lemma combineImages_returnsOrPanics (img1 img2 img3 : option image.Image)
  (outputFile : string) :
  returnsOrPanics (combineImages img1 img2 img3 outputFile).
Proof.
  intros fs fs'.
  destruct img1 as [m1 | ], img2 as [m2 | ], img3 as [m3 | ]; try discriminate.
  cbv beta iota zeta delta
    [combineImages mbind mret Go_bind Go_ret Image_Bounds draw.Draw].
  match goal with
  | |- context [png.Encode _ ?c] =>
      destruct (Create_Encode_returns outputFile c fs) as [fs1 Hrun]
  end.
  intros H.
  assert (Hc : Returns (tt, fs1) = @Hangs (unit * FS) fs')
    by (rewrite <- Hrun; exact H).
  discriminate.
Qed.

(** ** The filter and the job source *)

Lemma fileExists_isRegularFile (path : string) (fs : FS) :
  fileExists path fs = Returns (isRegularFile fs path, fs).
Proof.
  unfold fileExists, os.Stat, isRegularFile, mbind, Go_bind.
  destruct (fs !! path) as [[entries | data] | ]; reflexivity.
Qed.

(** The run of the filter on a job: its verdict, and the file system as
    it was. *)
Lemma filterDiffJobs_verdict (job : DiffJob) (fs : FS) :
  filterDiffJobs job fs = Returns (if passes fs job then Some job else None, fs).
Proof.
  unfold filterDiffJobs, passes, mbind, Go_bind.
  rewrite fileExists_isRegularFile.
  destruct (isRegularFile fs (inFile1 job)); simpl; [ | reflexivity ].
  rewrite fileExists_isRegularFile.
  destruct (isRegularFile fs (inFile2 job)); reflexivity.
Qed.

(** C5. The filter returns the job as it received it exactly when both
    input paths name regular files, and returns nil otherwise; it never
    panics, and it leaves the file system as it is: the job is dropped
    without an error or an output. *)
Theorem filterDiffJobs_passes_or_drops (job : DiffJob) (fs : FS) :
  filterDiffJobs job fs
  = Returns (if isRegularFile fs (inFile1 job) && isRegularFile fs (inFile2 job)
             then Some job else None, fs).
Proof.
  unfold filterDiffJobs, mbind, Go_bind.
  rewrite fileExists_isRegularFile.
  destruct (isRegularFile fs (inFile1 job)); simpl; [ | reflexivity ].
  rewrite fileExists_isRegularFile.
  destruct (isRegularFile fs (inFile2 job)); reflexivity.
Qed.

Section JobSource.

Variable Join : string -> string -> string.

(** The loop of the generator sends one job per name of extension [.png],
    in the order of the listing. *)
Lemma generatorLoop_filter_map (comparePath inDir1 indDir2 outDir : string)
  (files : list string) :
  generatorLoop Join comparePath inDir1 indDir2 outDir files
  = map (fun name => mkDiffJob (Join inDir1 name) (Join indDir2 name)
                       (Join outDir name) comparePath)
        (filter (fun name => filepath.Ext name = ".png") files).
Proof.
  induction files as [ | file files IH]; [reflexivity |].
  simpl. rewrite filter_cons.
  destruct (String.eqb_spec (filepath.Ext file) ".png") as [Heq | Hne].
  - rewrite decide_True by exact Heq. simpl. rewrite IH. reflexivity.
  - rewrite decide_False by exact Hne. exact IH.
Qed.

(** C6. When directory 1 can be listed, the job source sends exactly one
    job per entry of the listing whose extension is [.png], in listing
    order, with the three paths made of the three directories and that one
    name; nothing but the listing of directory 1 is looked at.  When
    directory 1 cannot be listed, the process exits with status 1 and no
    goroutine moves any more. *)
Theorem grabJobChannelGenerator_jobs
  (comparePath inDir1 indDir2 outDir : string) (fs : FS) :
  grabJobChannelGenerator Join comparePath inDir1 indDir2 outDir fs
  = Returns
      (match listing fs inDir1 with
       | Some files =>
           Some (Ranging
                   (map (fun name =>
                           mkDiffJob (Join inDir1 name) (Join indDir2 name)
                             (Join outDir name) comparePath)
                      (filter (fun name => filepath.Ext name = ".png") files)))
       | None => None
       end, fs)
  /\ (forall threads : Z,
        process (start threads None fs) = Exited 1 /\
        forall sh m, move sh m (start threads None fs) = None).
Proof.
  split.
  - unfold grabJobChannelGenerator, ioutil.ReadDir, listing, mbind, Go_bind.
    destruct (fs !! inDir1) as [[entries | data] | ]; simpl; try reflexivity.
    rewrite generatorLoop_filter_map. reflexivity.
  - intros threads. split; [reflexivity |]. intros sh m. reflexivity.
Qed.

End JobSource.

(** ** The pipeline: every run is finite *)

Lemma sum_list_insert {A : Type} (f : A -> nat) (l : list A) (i : nat) (x y : A) :
  l !! i = Some x ->
  (sum_list (f <$> <[i := y]> l) + f x = sum_list (f <$> l) + f y)%nat.
Proof.
  revert i. induction l as [ | a l IH]; intros i Hi; [discriminate |].
  destruct i as [ | i]; simpl in *.
  - inversion Hi; subst. lia.
  - specialize (IH i Hi). unfold fmap in *. lia.
Qed.

Section PipelineRuns.

Variable sh : string -> FS -> FS * option bool.

(** The diff worker hands back the job it was given, whenever it returns. *)
Lemma diffFiles_returns_job (job : DiffJob) (fs fs' : FS) (r : option DiffJob) :
  diffFiles sh job fs = Returns (r, fs') -> r = Some job.
Proof.
  unfold diffFiles, mbind, Go_bind.
  destruct (compareFiles _ _ _ _ _ fs) as [[[] fs''] | | fs''];
    [ | discriminate .. ].
  intros H. inversion H. reflexivity.
Qed.

Ltac pipeline_cases :=
  repeat match goal with
         | H : context [match ?x with _ => _ end] |- _ =>
             destruct x eqn:?; try discriminate
         | H : Some _ = Some _ |- _ => inversion H; subst; clear H
         end.

(** Every move takes the bound on the steps left down. *)
Lemma move_decreases (m : Move) (s s' : Pipeline) :
  move sh m s = Some s' -> (stepsLeft s' < stepsLeft s)%nat.
Proof.
  destruct s as [w g f ws fw n c r p].
  unfold move, performDiffJobTask; simpl. intros H.
  destruct p; try discriminate.
  destruct m; pipeline_cases; unfold stepsLeft; simpl;
    repeat match goal with
           | H : ?l !! ?i = Some ?x |- context [sum_list (?f <$> <[?i := ?y]> ?l)] =>
               pose proof (sum_list_insert f l i x y H); clear H
           end; simpl in *; try lia.
  destruct c; [rewrite andb_false_r in *; discriminate | lia].
Qed.

Ltac lookup_insert_cases :=
  repeat match goal with
         | H : <[?i := _]> ?l !! ?j = Some _ |- _ =>
             destruct (decide (i = j)) as [<- | ?];
             [ rewrite list_lookup_insert_eq in H
                 by (eapply lookup_lt_Some; eassumption)
             | rewrite list_lookup_insert_ne in H by assumption ]
         | |- <[?i := _]> ?l !! ?j = Some _ =>
             destruct (decide (i = j)) as [<- | ?];
             [ rewrite list_lookup_insert_eq
                 by (eapply lookup_lt_Some; eassumption)
             | rewrite list_lookup_insert_ne by assumption ]
         end.

(** Every move keeps the invariant. *)
Lemma move_invariant (m : Move) (s s' : Pipeline) :
  move sh m s = Some s' -> invariant s -> invariant s'.
Proof.
  destruct s as [w g f ws fw n c r p].
  unfold move, performDiffJobTask, invariant; simpl.
  intros H (I1 & I2 & I3 & I4 & I5 & I6 & I7).
  destruct p; try discriminate.
  destruct m; pipeline_cases; simpl;
    rewrite ?length_insert;
    (split; [assumption || lia | ]).
  all: split;
    [ unfold pending in *;
      try match goal with
          | H : ?l !! ?i = Some ?x |- context [sum_list (?f <$> <[?i := ?y]> ?l)] =>
              pose proof (sum_list_insert f l i x y H)
          end; simpl in *; try (assumption || lia) | ].
  all: repeat split; intros; simpl in *.
  all: lookup_insert_cases.
  all: try discriminate.
  all: try congruence.
  all: try solve [eauto].
  all: try (exfalso;
            match goal with
            | H1 : forall i, ?l !! i = Some ?v -> _, H2 : ?l !! _ = Some ?v |- _ =>
                specialize (H1 _ H2); congruence
            end).
  - specialize (I6 H).
    pose proof (sum_list_insert
                  (fun f => match f with FwdDone => 0 | _ => 1 end)%nat
                  fw i FwdReceiving FwdDone Heqo0) as Hs.
    unfold pending in *. simpl in Hs. lia.
  - apply andb_true_iff in Heqb. destruct Heqb as [Hz _].
    apply Z.eqb_eq in Hz. exact Hz.
Qed.

(** The pipeline starts in a state that satisfies the invariant. *)
Lemma start_invariant (threads : Z) (g : option Generator) (fs : FS) :
  invariant (start threads g fs).
Proof.
  unfold start, fanDiffJobsIn, fanOut, invariant.
  set (n := Z.to_nat threads).
  assert (Hp : pending (replicate n FwdReceiving) = n).
  { unfold pending. induction n as [ | n IH]; simpl; [reflexivity |].
    unfold fmap in *. rewrite IH. reflexivity. }
  destruct g as [g | ]; simpl; rewrite !length_replicate, Hp;
    (repeat split; try discriminate; try reflexivity;
     intros i Hi; apply lookup_replicate in Hi; destruct Hi; discriminate).
Qed.

(** The runs of the pipeline: the reflexive and transitive closure of its
    steps. *)
Lemma reachable_invariant (s s' : Pipeline) :
  rtc (step sh) s s' -> invariant s -> invariant s'.
Proof.
  induction 1 as [ | s1 s2 s3 [m Hm] _ IH]; [tauto |].
  intros Hi. apply IH. eapply move_invariant; eassumption.
Qed.

(** A run of [n] steps takes the bound down by [n] at least. *)
Lemma nsteps_stepsLeft (n : nat) (s s' : Pipeline) :
  nsteps (step sh) n s s' -> (n + stepsLeft s' <= stepsLeft s)%nat.
Proof.
  induction 1 as [ | n s1 s2 s3 [m Hm] _ IH]; [lia |].
  apply move_decreases in Hm. lia.
Qed.

(** The number of workers does not change. *)
Lemma move_workers (m : Move) (s s' : Pipeline) :
  move sh m s = Some s' -> length (chFanned s') = length (chFanned s).
Proof.
  destruct s as [w g f ws fw n c r p].
  unfold move, performDiffJobTask; simpl. intros H.
  destruct p; try discriminate.
  destruct m; pipeline_cases; simpl; rewrite ?length_insert; reflexivity.
Qed.

Lemma reachable_workers (s s' : Pipeline) :
  rtc (step sh) s s' -> length (chFanned s') = length (chFanned s).
Proof.
  induction 1 as [ | s1 s2 s3 [m Hm] _ IH]; [reflexivity |].
  rewrite IH. eapply move_workers; eassumption.
Qed.

Lemma pending_pos (l : list Forwarder) :
  pending l <> 0%nat -> exists i f, l !! i = Some f /\ f <> FwdDone.
Proof.
  unfold pending. induction l as [ | f l IH]; simpl; [congruence |].
  intros Hp. destruct f as [ | job | ].
  - exists 0%nat, FwdReceiving. split; [reflexivity | discriminate].
  - exists 0%nat, (FwdSending job). split; [reflexivity | discriminate].
  - destruct IH as (i & f' & Hi & Hf'); [exact Hp |].
    exists (S i), f'. split; assumption.
Qed.

Lemma pending_zero (l : list Forwarder) :
  pending l = 0%nat -> forall f, f ∈ l -> f = FwdDone.
Proof.
  unfold pending. induction l as [ | f' l IH]; simpl; intros Hp f Hf.
  - inversion Hf.
  - apply elem_of_cons in Hf. unfold fmap in *.
    destruct f'; simpl in Hp; try lia.
    destruct Hf as [-> | Hf]; [reflexivity | apply IH; [lia | assumption]].
Qed.

(** The filter never waits for the external tool. *)
Lemma filter_not_Calling (m : Move) (s s' : Pipeline) :
  move sh m s = Some s' ->
  (forall job, chFiltered s <> Calling job) ->
  forall job, chFiltered s' <> Calling job.
Proof.
  destruct s as [w g f ws fw n c r p].
  unfold move, performDiffJobTask; simpl. intros H Hf.
  destruct p; try discriminate.
  destruct m;
    try (destruct f as [ | job0 | job0 | job0 | ]; try discriminate;
         rewrite filterDiffJobs_verdict in H;
         destruct (passes w job0); inversion H; discriminate);
    pipeline_cases; simpl; try discriminate; try assumption.
Qed.

(** No deadlock: while the process is alive, some goroutine can move,
    unless a diff worker is in a call of the external tool that does not
    return. *)
Lemma progress (s : Pipeline) :
  invariant s -> process s = Alive ->
  (forall job, chFiltered s <> Calling job) ->
  (exists m s', move sh m s = Some s') \/
  (exists i job, chFanned s !! i = Some (Calling job)).
Proof.
  destruct s as [w g f ws fw n c r p].
  unfold invariant; simpl.
  intros (I1 & I2 & I3 & I4 & I5 & I6 & I7) -> Hf.
  destruct c.
  { left. exists MainReturn. eexists. reflexivity. }
  destruct (decide (n = 0)) as [-> | Hn].
  { left. exists CloseOut. eexists. reflexivity. }
  destruct (pending_pos fw) as (i & fi & Hfi & Hnd); [lia |].
  destruct fi as [ | job | ]; [ | | congruence ].
  2:{ left. exists (MainReceive i). eexists. unfold move; simpl.
      rewrite Hfi. reflexivity. }
  destruct (lookup_lt_is_Some_2 ws i) as [st Hst].
  { rewrite I1. eapply lookup_lt_Some; eassumption. }
  destruct st as [ | job | job | job | ].
  - left. destruct f as [ | job | job | job | ].
    + destruct g as [[ | job jobs] | ].
      * exists GeneratorClose. eexists. reflexivity.
      * exists GeneratorSend. eexists. reflexivity.
      * exists FilterClose. eexists. reflexivity.
    + exists FilterRun. eexists. reflexivity.
    + exfalso. exact (Hf job eq_refl).
    + exists (WorkerReceive i). eexists. unfold move; simpl. rewrite Hst. reflexivity.
    + exists (WorkerClose i). eexists. unfold move; simpl. rewrite Hst. reflexivity.
  - left. exists (WorkerRun i). eexists. unfold move; simpl. rewrite Hst. reflexivity.
  - right. exists i, job. exact Hst.
  - left. exists (ForwarderReceive i). eexists. unfold move; simpl.
    rewrite Hst, Hfi. reflexivity.
  - left. exists (ForwarderDone i). eexists. unfold move; simpl.
    rewrite Hst, Hfi. reflexivity.
Qed.

(** The invariant gives the order of the closings. *)
Lemma invariant_closedInOrder (s : Pipeline) :
  invariant s -> closedInOrder s.
Proof.
  intros (I1 & I2 & I3 & I4 & I5 & I6 & I7).
  repeat split; try assumption.
  intros Hc f Hf. apply (pending_zero (fanIn s)); [ | exact Hf ].
  specialize (I6 Hc). lia.
Qed.

(** Once the combined channel is closed, and there is a worker at all,
    every job has been consumed and processed. *)
Lemma closed_allConsumed (s : Pipeline) :
  invariant s -> chFanned s <> [] -> chOutClosed s = true -> allConsumed s.
Proof.
  intros Hinv Hw Hc.
  destruct (invariant_closedInOrder s Hinv) as (C1 & C2 & C3 & C4 & C5).
  destruct Hinv as (I1 & _).
  specialize (C4 Hc).
  assert (Hws : forall i st, chFanned s !! i = Some st -> st = StageClosed).
  { intros i st Hst.
    destruct (lookup_lt_is_Some_2 (fanIn s) i) as [f Hf].
    { rewrite <- I1. eapply lookup_lt_Some; eassumption. }
    assert (f = FwdDone) as -> by (apply C4; eapply list_elem_of_lookup_2; eassumption).
    specialize (C3 i Hf). congruence. }
  assert (Hfilt : chFiltered s = StageClosed).
  { destruct (chFanned s) as [ | st ws] eqn:Hl; [congruence |].
    apply (C2 0%nat). rewrite ?Hl. simpl. f_equal. apply (Hws 0%nat).
    rewrite ?Hl. reflexivity. }
  repeat split; auto.
  intros st Hst. apply list_elem_of_lookup in Hst. destruct Hst as [i Hi]. eauto.
Qed.

(** A move leaves the process alive, or ends it by the return of [main] or
    by a panic. *)
Lemma move_process (m : Move) (s s' : Pipeline) :
  move sh m s = Some s' ->
  process s' = Alive \/ process s' = Exited 0 \/ process s' = Panicked.
Proof.
  destruct s as [w g f ws fw n c r p].
  unfold move, performDiffJobTask; simpl. intros H.
  destruct p; try discriminate.
  destruct m; pipeline_cases; simpl; auto.
Qed.

Lemma reachable_process (s s' : Pipeline) :
  rtc (step sh) s s' ->
  s' = s \/ process s' = Alive \/ process s' = Exited 0 \/ process s' = Panicked.
Proof.
  induction 1 as [ | s1 s2 s3 [m Hm] _ IH]; [left; reflexivity |].
  right. destruct IH as [-> | IH]; [ | exact IH ].
  eapply move_process; eassumption.
Qed.

(** A schedule that runs is a run of as many steps as it has moves. *)
Lemma run_nsteps (schedule : list Move) (s s' : Pipeline) :
  run sh schedule s = Some s' -> nsteps (step sh) (length schedule) s s'.
Proof.
  revert s. induction schedule as [ | m schedule IH]; simpl; intros s H.
  - inversion H. constructor.
  - destruct (move sh m s) as [s1 | ] eqn:Hm; [ | discriminate ].
    econstructor; [ exists m; exact Hm | apply IH; exact H ].
Qed.

Lemma stepsLeft_start (threads : Z) (g : Generator) (fs : FS) :
  stepsLeft (start threads (Some g) fs)
  = (generatorWeight g + 2 * Z.to_nat threads + 3)%nat.
Proof.
  unfold start, fanDiffJobsIn, fanOut, stepsLeft; simpl.
  rewrite length_replicate.
  rewrite !fmap_replicate, !sum_list_replicate. simpl. lia.
Qed.

End PipelineRuns.

(** ** The pipeline: no job is lost, whatever the number of workers *)

Lemma concat_insert_perm {A B : Type} (f : A -> list B) (l : list A)
  (i : nat) (x y : A) :
  l !! i = Some x ->
  concat (f <$> <[i := y]> l) ++ f x ≡ₚ concat (f <$> l) ++ f y.
Proof.
  revert i. induction l as [ | a l IH]; intros i Hi; [discriminate |].
  destruct i as [ | i]; simpl in *.
  - inversion Hi; subst. solve_Permutation.
  - specialize (IH i Hi). unfold fmap in IH.
    rewrite <- app_assoc, IH. solve_Permutation.
Qed.

Lemma elem_of_concat_lookup {A B : Type} (f : A -> list B) (l : list A)
  (i : nat) (x : A) (b : B) :
  l !! i = Some x -> b ∈ f x -> b ∈ concat (f <$> l).
Proof.
  revert i. induction l as [ | a l IH]; intros i Hi Hb; [discriminate |].
  rewrite fmap_cons. simpl. apply elem_of_app.
  destruct i as [ | i]; simpl in Hi.
  - inversion Hi; subst. left. exact Hb.
  - right. eapply IH; eassumption.
Qed.

Section Conservation.

Variable sh : string -> FS -> FS * option bool.
Variable fs0 : FS.
Variable jobs0 : list DiffJob.
Hypothesis Hind : independent sh jobs0.

Ltac pipeline_cases :=
  repeat match goal with
         | H : context [match ?x with _ => _ end] |- _ =>
             destruct x eqn:?; try discriminate
         | H : Some _ = Some _ |- _ => inversion H; subst; clear H
         end.

Lemma move_conserved (m : Move) (s s' : Pipeline) :
  move sh m s = Some s' -> conserved fs0 jobs0 s -> conserved fs0 jobs0 s'.
Proof.
  destruct s as [w g f ws fw n c r p].
  unfold move, performDiffJobTask, conserved, upstream, inFlight; simpl.
  intros Hm ((done & Hsplit & Hperm) & Hpass).
  destruct p; try discriminate.
  destruct m.
  - (* GeneratorSend *)
    destruct g as [[ | job jobs] | ]; try discriminate.
    destruct f; try discriminate.
    inversion Hm; subst; clear Hm; simpl in *.
    split; [ exists done; split; [reflexivity | exact Hperm] | exact Hpass ].
  - (* GeneratorClose *)
    destruct g as [[ | job jobs] | ]; try discriminate.
    inversion Hm; subst; clear Hm; simpl in *.
    split; [ exists done; split; [reflexivity | exact Hperm] | exact Hpass ].
  - (* FilterRun *)
    destruct f as [ | job | job | job | ]; try discriminate.
    rewrite filterDiffJobs_verdict in Hm.
    assert (Hj : passes w job = passes fs0 job)
      by (apply Hpass; simpl; apply elem_of_cons; left; reflexivity).
    assert (Hpass' : forall job', job' ∈ (match g with Ranging jobs => jobs | GenClosed => [] end) ->
                                  passes w job' = passes fs0 job')
      by (intros job' Hin; apply Hpass; simpl; apply elem_of_cons; right; exact Hin).
    rewrite Hj in Hm.
    destruct (passes fs0 job) eqn:Hv; inversion Hm; subst; clear Hm; simpl in *.
    + split; [ | exact Hpass' ].
      exists (done ++ [job]). split; [ rewrite <- app_assoc; reflexivity | ].
      rewrite filter_app, filter_cons_True, filter_nil by (rewrite Hv; exact I).
      rewrite <- Hperm. solve_Permutation.
    + split; [ | exact Hpass' ].
      exists (done ++ [job]). split; [ rewrite <- app_assoc; reflexivity | ].
      rewrite filter_app, filter_cons_False, filter_nil, app_nil_r
        by (rewrite Hv; exact id).
      exact Hperm.
  - (* FilterClose *)
    destruct g as [jobs | ]; try discriminate.
    destruct f; try discriminate.
    inversion Hm; subst; clear Hm; simpl in *.
    split; [ exists done; split; [reflexivity | exact Hperm] | exact Hpass ].
  - (* WorkerReceive *)
    destruct f as [ | | | job | ]; try discriminate.
    destruct (ws !! i) as [[ | | | | ] | ] eqn:Hws; try discriminate.
    inversion Hm; subst; clear Hm; simpl in *.
    split; [ | exact Hpass ].
    exists done. split; [reflexivity |].
    rewrite <- Hperm.
    pose proof (concat_insert_perm stageJob ws i Receiving (Holding job) Hws) as Hc.
    simpl in Hc. rewrite app_nil_r in Hc. rewrite Hc. solve_Permutation.
  - (* WorkerRun *)
    destruct (ws !! i) as [[ | job | job | job | ] | ] eqn:Hws; try discriminate.
    pose proof (concat_insert_perm stageJob ws i (Holding job)) as Hc.
    assert (Hdone : job ∈ done).
    { assert (Hf : job ∈ filter (fun job => passes fs0 job) done).
      { rewrite <- Hperm. rewrite !elem_of_app. right. right. left.
        apply (elem_of_concat_lookup stageJob ws i (Holding job)); [exact Hws |].
        simpl. apply elem_of_cons. left. reflexivity. }
      apply list_elem_of_filter in Hf. tauto. }
    apply list_elem_of_split in Hdone. destruct Hdone as (d1 & d2 & ->).
    rewrite <- app_assoc in Hsplit. simpl in Hsplit.
    pose proof (Hind d1 job _ Hsplit w) as Hkeep.
    destruct (diffFiles sh job w) as [[res w'] | | w'] eqn:Hrun.
    + pose proof (diffFiles_returns_job sh job w w' res Hrun) as ->.
      inversion Hm; subst s'; clear Hm; simpl.
      split.
      * exists (d1 ++ job :: d2). split; [rewrite <- app_assoc; exact Hsplit |].
        rewrite <- Hperm. specialize (Hc (Sending job) Hws). simpl in Hc.
        apply Permutation_app_inv_r in Hc. rewrite Hc. reflexivity.
      * intros job' Hin. rewrite <- (Hpass job' Hin).
        apply (Hkeep w' eq_refl). apply elem_of_app. right. exact Hin.
    + inversion Hm; subst s'; simpl.
      split; [ | exact Hpass ].
      exists (d1 ++ job :: d2).
      split; [rewrite <- app_assoc; exact Hsplit | exact Hperm].
    + inversion Hm; subst s'; clear Hm; simpl.
      split.
      * exists (d1 ++ job :: d2). split; [rewrite <- app_assoc; exact Hsplit |].
        rewrite <- Hperm. specialize (Hc (Calling job) Hws). simpl in Hc.
        apply Permutation_app_inv_r in Hc. rewrite Hc. reflexivity.
      * intros job' Hin. rewrite <- (Hpass job' Hin).
        apply (Hkeep w' eq_refl). apply elem_of_app. right. exact Hin.
  - (* WorkerClose *)
    destruct f; try discriminate.
    destruct (ws !! i) as [[ | | | | ] | ] eqn:Hws; try discriminate.
    inversion Hm; subst; clear Hm; simpl in *.
    split; [ | exact Hpass ].
    exists done. split; [reflexivity |].
    rewrite <- Hperm.
    pose proof (concat_insert_perm stageJob ws i Receiving StageClosed Hws) as Hc.
    simpl in Hc. rewrite !app_nil_r in Hc. rewrite Hc. reflexivity.
  - (* ForwarderReceive *)
    destruct (ws !! i) as [[ | | | job | ] | ] eqn:Hws; try discriminate.
    destruct (fw !! i) as [[ | | ] | ] eqn:Hfw; try discriminate.
    inversion Hm; subst; clear Hm; simpl in *.
    split; [ | exact Hpass ].
    exists done. split; [reflexivity |].
    rewrite <- Hperm.
    pose proof (concat_insert_perm stageJob ws i (Sending job) Receiving Hws) as Hc.
    pose proof (concat_insert_perm forwarderJob fw i FwdReceiving (FwdSending job) Hfw) as Hc'.
    simpl in Hc, Hc'. rewrite app_nil_r in Hc, Hc'. rewrite Hc'.
    rewrite <- Hc. solve_Permutation.
  - (* ForwarderDone *)
    destruct (ws !! i) as [[ | | | | ] | ] eqn:Hws; try discriminate.
    destruct (fw !! i) as [[ | | ] | ] eqn:Hfw; try discriminate.
    inversion Hm; subst; clear Hm; simpl in *.
    split; [ | exact Hpass ].
    exists done. split; [reflexivity |].
    rewrite <- Hperm.
    pose proof (concat_insert_perm forwarderJob fw i FwdReceiving FwdDone Hfw) as Hc'.
    simpl in Hc'. rewrite !app_nil_r in Hc'. rewrite Hc'. reflexivity.
  - (* MainReceive *)
    destruct (fw !! i) as [[ | job | ] | ] eqn:Hfw; try discriminate.
    destruct c; try discriminate.
    inversion Hm; subst; clear Hm; simpl in *.
    split; [ | exact Hpass ].
    exists done. split; [reflexivity |].
    rewrite <- Hperm.
    pose proof (concat_insert_perm forwarderJob fw i (FwdSending job) FwdReceiving Hfw) as Hc'.
    simpl in Hc'. rewrite app_nil_r in Hc'. rewrite <- Hc'. solve_Permutation.
  - (* CloseOut *)
    destruct ((n =? 0) && negb c); try discriminate.
    inversion Hm; subst; clear Hm; simpl in *.
    split; [ exists done; split; [reflexivity | exact Hperm] | exact Hpass ].
  - (* MainReturn *)
    destruct c; try discriminate.
    inversion Hm; subst; clear Hm; simpl in *.
    split; [ exists done; split; [reflexivity | exact Hperm] | exact Hpass ].
Qed.

Lemma reachable_conserved (s s' : Pipeline) :
  rtc (step sh) s s' -> conserved fs0 jobs0 s -> conserved fs0 jobs0 s'.
Proof.
  induction 1 as [ | s1 s2 s3 [m Hm] _ IH]; [tauto |].
  intros Hc. apply IH. eapply move_conserved; eassumption.
Qed.

End Conservation.

Lemma concat_replicate_nil {A B : Type} (f : A -> list B) (x : A) (n : nat) :
  f x = [] -> concat (f <$> replicate n x) = [].
Proof.
  intros Hx. induction n as [ | n IH]; [reflexivity |].
  simpl. unfold fmap in IH. rewrite Hx, IH. reflexivity.
Qed.

Lemma concat_all_nil {A B : Type} (f : A -> list B) (l : list A) :
  (forall x, x ∈ l -> f x = []) -> concat (f <$> l) = [].
Proof.
  induction l as [ | a l IH]; intros Hl; [reflexivity |].
  rewrite fmap_cons. simpl. rewrite Hl by (apply elem_of_cons; left; reflexivity).
  apply IH. intros x Hx. apply Hl. apply elem_of_cons. right. exact Hx.
Qed.

Lemma start_conserved (threads : Z) (jobs : list DiffJob) (fs : FS) :
  conserved fs jobs (start threads (Some (Ranging jobs)) fs).
Proof.
  unfold conserved, start, fanOut, fanDiffJobsIn, upstream, inFlight; simpl.
  split; [ | reflexivity ].
  exists []. split; [reflexivity |].
  rewrite !concat_replicate_nil by reflexivity. reflexivity.
Qed.

(** When every job has been consumed, no goroutine holds one. *)
Lemma allConsumed_empty (s : Pipeline) :
  allConsumed s -> upstream s = [] /\ inFlight s = [].
Proof.
  intros (Hg & Hf & Hws & Hfw).
  unfold upstream, inFlight. rewrite Hg, Hf. simpl.
  rewrite (concat_all_nil stageJob) by (intros st Hst; rewrite (Hws st Hst); reflexivity).
  rewrite (concat_all_nil forwarderJob) by (intros f' Hf'; rewrite (Hfw f' Hf'); reflexivity).
  split; reflexivity.
Qed.

(** ** The pipeline: how a run ends *)

(** A state in which no move of the list is enabled. *)
Lemma stuck_sound (sh : string -> FS -> FS * option bool) (s : Pipeline) :
  stuck sh s = true -> forall m, move sh m s = None.
Proof.
  unfold stuck. rewrite forallb_forall. intros Hall m.
  set (n := Nat.max (length (chFanned s)) (length (fanIn s))) in *.
  assert (Hin : forall m', In m' (moves n) -> move sh m' s = None).
  { intros m' Hm'. specialize (Hall m' Hm').
    destruct (move sh m' s); [discriminate | reflexivity]. }
  assert (Hi : forall i (k : nat), (i < n)%nat -> (k < 6)%nat ->
            forall m', [WorkerReceive i; WorkerRun i; WorkerClose i;
                        ForwarderReceive i; ForwarderDone i; MainReceive i] !! k
                       = Some m' -> move sh m' s = None).
  { intros i k Hlt Hk m' Hm'. apply Hin. unfold moves.
    apply in_or_app. right. apply list_elem_of_In.
    eapply (elem_of_concat_lookup _ (seq 0 n) i i).
    - rewrite lookup_seq. split; [reflexivity | exact Hlt].
    - eapply list_elem_of_lookup_2. exact Hm'. }
  assert (Hout : forall i, (n <= i)%nat ->
            chFanned s !! i = None /\ fanIn s !! i = None).
  { intros i Hle. split; apply lookup_ge_None; lia. }
  destruct m as [ | | | | i | i | i | i | i | i | | ];
    try (apply Hin; unfold moves; simpl; tauto).
  all: destruct (le_lt_dec n i) as [Hle | Hlt];
    [ destruct (Hout i Hle) as [Hw Hf]; unfold move;
      destruct (process s); try reflexivity; rewrite ?Hw, ?Hf;
      try reflexivity; destruct (chFiltered s); reflexivity | ].
  - exact (Hi i 0%nat Hlt ltac:(lia) _ eq_refl).
  - exact (Hi i 1%nat Hlt ltac:(lia) _ eq_refl).
  - exact (Hi i 2%nat Hlt ltac:(lia) _ eq_refl).
  - exact (Hi i 3%nat Hlt ltac:(lia) _ eq_refl).
  - exact (Hi i 4%nat Hlt ltac:(lia) _ eq_refl).
  - exact (Hi i 5%nat Hlt ltac:(lia) _ eq_refl).
Qed.

Lemma submseteq_insert_mid {A : Type} (l k1 k2 : list A) (x : A) :
  l ⊆+ k1 ++ k2 -> l ⊆+ k1 ++ x :: k2.
Proof.
  intros H. rewrite <- Permutation_middle. apply submseteq_cons. exact H.
Qed.

Section Accounting.

Variable sh : string -> FS -> FS * option bool.
Variable jobs0 : list DiffJob.

(** Every move keeps the account of the jobs. *)
Lemma move_accounted (m : Move) (s s' : Pipeline) :
  move sh m s = Some s' -> accounted jobs0 s -> accounted jobs0 s'.
Proof.
  destruct s as [w g f ws fw n c r p].
  unfold move, performDiffJobTask, accounted, upstream, inFlight; simpl.
  intros Hm (done & Hsplit & Hsub).
  destruct p; try discriminate.
  destruct m.
  - (* GeneratorSend *)
    destruct g as [[ | job jobs] | ]; try discriminate.
    destruct f; try discriminate.
    inversion Hm; subst; clear Hm; simpl in *.
    exists done. split; [reflexivity | exact Hsub].
  - (* GeneratorClose *)
    destruct g as [[ | job jobs] | ]; try discriminate.
    inversion Hm; subst; clear Hm; simpl in *.
    exists done. split; [reflexivity | exact Hsub].
  - (* FilterRun *)
    destruct f as [ | job | job | job | ]; try discriminate.
    rewrite filterDiffJobs_verdict in Hm.
    destruct (passes w job); inversion Hm; subst; clear Hm; simpl in *.
    + exists (done ++ [job]). split; [ rewrite <- app_assoc; reflexivity | ].
      rewrite <- Permutation_middle, <- Permutation_cons_append.
      apply submseteq_skip. exact Hsub.
    + exists (done ++ [job]). split; [ rewrite <- app_assoc; reflexivity | ].
      apply submseteq_inserts_r. exact Hsub.
  - (* FilterClose *)
    destruct g as [jobs | ]; try discriminate.
    destruct f; try discriminate.
    inversion Hm; subst; clear Hm; simpl in *.
    exists done. split; [reflexivity | exact Hsub].
  - (* WorkerReceive *)
    destruct f as [ | | | job | ]; try discriminate.
    destruct (ws !! i) as [[ | | | | ] | ] eqn:Hws; try discriminate.
    inversion Hm; subst; clear Hm; simpl in *.
    exists done. split; [reflexivity |].
    rewrite <- Hsub.
    pose proof (concat_insert_perm stageJob ws i Receiving (Holding job) Hws) as Hc.
    simpl in Hc. rewrite app_nil_r in Hc. rewrite Hc.
    apply Permutation_submseteq. solve_Permutation.
  - (* WorkerRun *)
    destruct (ws !! i) as [[ | job | job | job | ] | ] eqn:Hws; try discriminate.
    pose proof (concat_insert_perm stageJob ws i (Holding job)) as Hc.
    destruct (diffFiles sh job w) as [[res w'] | | w'] eqn:Hrun.
    + rewrite (diffFiles_returns_job sh job w w' res Hrun) in Hm.
      inversion Hm; subst s'; clear Hm; simpl.
      exists done. split; [exact Hsplit |].
      rewrite <- Hsub. specialize (Hc (Sending job) Hws). simpl in Hc.
      apply Permutation_app_inv_r in Hc. rewrite Hc. reflexivity.
    + inversion Hm; subst s'; simpl. exists done. split; assumption.
    + inversion Hm; subst s'; clear Hm; simpl.
      exists done. split; [exact Hsplit |].
      rewrite <- Hsub. specialize (Hc (Calling job) Hws). simpl in Hc.
      apply Permutation_app_inv_r in Hc. rewrite Hc. reflexivity.
  - (* WorkerClose *)
    destruct f; try discriminate.
    destruct (ws !! i) as [[ | | | | ] | ] eqn:Hws; try discriminate.
    inversion Hm; subst; clear Hm; simpl in *.
    exists done. split; [reflexivity |].
    rewrite <- Hsub.
    pose proof (concat_insert_perm stageJob ws i Receiving StageClosed Hws) as Hc.
    simpl in Hc. rewrite !app_nil_r in Hc. rewrite Hc. reflexivity.
  - (* ForwarderReceive *)
    destruct (ws !! i) as [[ | | | job | ] | ] eqn:Hws; try discriminate.
    destruct (fw !! i) as [[ | | ] | ] eqn:Hfw; try discriminate.
    inversion Hm; subst; clear Hm; simpl in *.
    exists done. split; [reflexivity |].
    rewrite <- Hsub.
    pose proof (concat_insert_perm stageJob ws i (Sending job) Receiving Hws) as Hc.
    pose proof (concat_insert_perm forwarderJob fw i FwdReceiving (FwdSending job) Hfw) as Hc'.
    simpl in Hc, Hc'. rewrite app_nil_r in Hc, Hc'. rewrite Hc'.
    rewrite <- Hc. apply Permutation_submseteq. solve_Permutation.
  - (* ForwarderDone *)
    destruct (ws !! i) as [[ | | | | ] | ] eqn:Hws; try discriminate.
    destruct (fw !! i) as [[ | | ] | ] eqn:Hfw; try discriminate.
    inversion Hm; subst; clear Hm; simpl in *.
    exists done. split; [reflexivity |].
    rewrite <- Hsub.
    pose proof (concat_insert_perm forwarderJob fw i FwdReceiving FwdDone Hfw) as Hc'.
    simpl in Hc'. rewrite !app_nil_r in Hc'. rewrite Hc'. reflexivity.
  - (* MainReceive *)
    destruct (fw !! i) as [[ | job | ] | ] eqn:Hfw; try discriminate.
    destruct c; try discriminate.
    inversion Hm; subst; clear Hm; simpl in *.
    exists done. split; [reflexivity |].
    rewrite <- Hsub.
    pose proof (concat_insert_perm forwarderJob fw i (FwdSending job) FwdReceiving Hfw) as Hc'.
    simpl in Hc'. rewrite app_nil_r in Hc'. rewrite <- Hc'.
    apply Permutation_submseteq. solve_Permutation.
  - (* CloseOut *)
    destruct ((n =? 0) && negb c); try discriminate.
    inversion Hm; subst; clear Hm; simpl in *.
    exists done. split; [reflexivity | exact Hsub].
  - (* MainReturn *)
    destruct c; try discriminate.
    inversion Hm; subst; clear Hm; simpl in *.
    exists done. split; [reflexivity | exact Hsub].
Qed.

Lemma reachable_accounted (s s' : Pipeline) :
  rtc (step sh) s s' -> accounted jobs0 s -> accounted jobs0 s'.
Proof.
  induction 1 as [ | s1 s2 s3 [m Hm] _ IH]; [tauto |].
  intros Hc. apply IH. eapply move_accounted; eassumption.
Qed.

End Accounting.

Lemma start_accounted (threads : Z) (jobs : list DiffJob) (fs : FS) :
  accounted jobs (start threads (Some (Ranging jobs)) fs).
Proof.
  unfold accounted, start, fanOut, fanDiffJobsIn, upstream, inFlight; simpl.
  exists []. split; [reflexivity |].
  rewrite !concat_replicate_nil by reflexivity. reflexivity.
Qed.

(** What [main] has received, and what is on its way to it, are jobs of
    the listing. *)
Lemma accounted_jobs (jobs0 : list DiffJob) (s : Pipeline) (job : DiffJob) :
  accounted jobs0 s -> job ∈ ranged s ++ inFlight s -> job ∈ jobs0.
Proof.
  intros (done & -> & Hsub) Hin. apply elem_of_app. left.
  eapply elem_of_submseteq; eassumption.
Qed.

Lemma accounted_length (jobs0 : list DiffJob) (s : Pipeline) :
  accounted jobs0 s -> (length (ranged s) <= length jobs0)%nat.
Proof.
  intros (done & -> & Hsub). apply submseteq_length in Hsub.
  rewrite !length_app in *. lia.
Qed.

(** ** The pipeline and an external tool that exits *)

Section ToolExits.

Variable sh : string -> FS -> FS * option bool.
Hypothesis Hexits : toolExits sh.

(** With a tool that exits, a diff worker returns or panics. *)
Lemma diffFiles_returnsOrPanics (job : DiffJob) : returnsOrPanics (diffFiles sh job).
Proof.
  intros fs fs'. unfold diffFiles, compareFiles, mbind, Go_bind.
  destruct (commonSizeImageLengths _ _ _ fs) as [[[inA inB] fs1] | | fs1] eqn:Hn;
    [ | discriminate | exfalso; exact (commonSizeImageLengths_returnsOrPanics _ _ _ _ _ Hn) ].
  unfold exec_Output.
  match goal with
  | |- context [sh ?cmd fs1] =>
      pose proof (Hexits cmd fs1) as He; destruct (sh cmd fs1) as [fs2 [ok | ]]
  end; [ | exfalso; apply He; reflexivity ].
  assert (Hgo : forall a b c,
             match combineImages a b c (outFile job) fs2 with
             | Returns (_, fs3) =>
                 match os.Remove (outFile job +:+ "tmp") fs3 with
                 | Returns (_, fs4) => Returns (tt, fs4)
                 | Panics => Panics
                 | Hangs fs4 => Hangs fs4
                 end
             | Panics => Panics
             | Hangs fs3 => Hangs fs3
             end <> @Hangs (unit * FS) fs').
  { intros a b c.
    pose proof (combineImages_returnsOrPanics a b c (outFile job) fs2) as Hc.
    destruct (combineImages a b c (outFile job) fs2) as [[[] fs3] | | fs3];
      [ | discriminate | exfalso; exact (Hc fs3 eq_refl) ].
    unfold os.Remove.
    destruct (fs3 !! _) as [[[ | entry entries] | data] | ]; discriminate. }
  destruct ok; cbv beta iota zeta delta [mret Go_ret];
    (destruct (loadAndDecodePng_cases inA fs2) as [(mA & HA & _) | (eA & HA)];
     rewrite HA; cbv beta iota zeta;
     destruct (loadAndDecodePng_cases inB fs2) as [(mB & HB & _) | (eB & HB)];
     rewrite HB; cbv beta iota zeta;
     destruct (loadAndDecodePng_cases (outFile job) fs2)
       as [(mD & HD & _) | (eD & HD)];
     rewrite HD; cbv beta iota zeta);
    match goal with
    | |- context [combineImages ?a ?b ?c _ fs2] =>
        specialize (Hgo a b c);
        destruct (combineImages a b c (outFile job) fs2) as [[[] fs3] | | fs3];
        [ destruct (os.Remove (outFile job +:+ "tmp") fs3) as [[e fs4] | | fs4]
        | | ]; congruence
    end.
Qed.

(** So no goroutine is ever left in a call. *)
Lemma move_noneCalling (m : Move) (s s' : Pipeline) :
  move sh m s = Some s' -> noneCalling s -> noneCalling s'.
Proof.
  intros Hm [Hf Hw]. split; [eapply filter_not_Calling; eassumption |].
  destruct s as [w g f ws fw n c r p].
  unfold move, performDiffJobTask in Hm; simpl in *.
  destruct p; try discriminate.
  assert (Hins : forall i st, (forall job, st <> Calling job) ->
            forall j job, <[i := st]> ws !! j <> Some (Calling job)).
  { intros i st Hst j job Hl. apply list_lookup_insert_Some in Hl.
    destruct Hl as [(_ & Heq & _) | (_ & Hl)]; [exact (Hst job Heq) |].
    exact (Hw j job Hl). }
  destruct m.
  - destruct g as [[ | job jobs] | ]; try discriminate.
    destruct f; try discriminate. inversion Hm; subst. exact Hw.
  - destruct g as [[ | job jobs] | ]; try discriminate.
    inversion Hm; subst. exact Hw.
  - destruct f as [ | job | job | job | ]; try discriminate.
    rewrite filterDiffJobs_verdict in Hm.
    destruct (passes w job); inversion Hm; subst; exact Hw.
  - destruct g; try discriminate. destruct f; try discriminate.
    inversion Hm; subst. exact Hw.
  - destruct f; try discriminate.
    destruct (ws !! i) as [[ | | | | ] | ]; try discriminate.
    inversion Hm; subst. simpl. apply Hins. discriminate.
  - destruct (ws !! i) as [[ | job | job | job | ] | ]; try discriminate.
    pose proof (diffFiles_returnsOrPanics job w) as Hrp.
    destruct (diffFiles sh job w) as [[[job' | ] w'] | | w'];
      inversion Hm; subst; simpl;
      [ apply Hins; discriminate | apply Hins; discriminate | exact Hw
      | exfalso; exact (Hrp w' eq_refl) ].
  - destruct f; try discriminate.
    destruct (ws !! i) as [[ | | | | ] | ]; try discriminate.
    inversion Hm; subst. simpl. apply Hins. discriminate.
  - destruct (ws !! i) as [[ | | | | ] | ]; try discriminate.
    destruct (fw !! i) as [[ | | ] | ]; try discriminate.
    inversion Hm; subst. simpl. apply Hins. discriminate.
  - destruct (ws !! i) as [[ | | | | ] | ]; try discriminate.
    destruct (fw !! i) as [[ | | ] | ]; try discriminate.
    inversion Hm; subst. exact Hw.
  - destruct (fw !! i) as [[ | | ] | ]; try discriminate.
    destruct c; try discriminate. inversion Hm; subst. exact Hw.
  - destruct ((n =? 0) && negb c); try discriminate. inversion Hm; subst. exact Hw.
  - destruct c; try discriminate. inversion Hm; subst. exact Hw.
Qed.

Lemma reachable_noneCalling (s s' : Pipeline) :
  rtc (step sh) s s' -> noneCalling s -> noneCalling s'.
Proof.
  induction 1 as [ | s1 s2 s3 [m Hm] _ IH]; [tauto |].
  intros Hc. apply IH. eapply move_noneCalling; eassumption.
Qed.

End ToolExits.

Lemma start_noneCalling (threads : Z) (g : option Generator) (fs : FS) :
  noneCalling (start threads g fs).
Proof.
  unfold start, fanDiffJobsIn, fanOut, noneCalling.
  destruct g; simpl; (split; [discriminate |]);
    intros i job Hi; apply lookup_replicate in Hi; destruct Hi; discriminate.
Qed.


(** ** What a job writes *)

Lemma preserves_ret {A : Type} (p : string) (a : A) : preserves p (mret a).
Proof. intros fs fs' H. inversion H. reflexivity. Qed.

(** What [preserves] says of a run that returns. *)
Lemma preserves_Returns {A : Type} (p : string) (m : Go A) (fs fs' : FS) (a : A) :
  preserves p m -> m fs = Returns (a, fs') -> fs' !! p = fs !! p.
Proof. intros Hm H. apply Hm. rewrite H. reflexivity. Qed.

Lemma preserves_bind {A B : Type} (p : string) (m : Go A) (k : A -> Go B) :
  preserves p m -> (forall a, preserves p (k a)) -> preserves p (m ≫= k).
Proof.
  intros Hm Hk fs fs' H. unfold mbind, Go_bind in H.
  destruct (m fs) as [[a fs1] | | fs1] eqn:Hrun; [ | discriminate | ].
  - rewrite (Hk a _ _ H). apply Hm. rewrite Hrun. reflexivity.
  - apply Hm. rewrite Hrun. exact H.
Qed.

Lemma preserves_panic {A : Type} (p : string) : preserves p (@panic A).
Proof. intros fs fs' H. discriminate. Qed.

Lemma preserves_Image_Bounds (p : string) (img : option image.Image) :
  preserves p (Image_Bounds img).
Proof. destruct img; [apply preserves_ret | apply preserves_panic]. Qed.

Lemma preserves_Draw (p : string) dst r src sp : preserves p (draw.Draw dst r src sp).
Proof. destruct src; [apply preserves_ret | apply preserves_panic]. Qed.

Lemma preserves_loadAndDecodePng (p path : string) :
  preserves p (loadAndDecodePng path).
Proof.
  intros fs fs' H.
  destruct (loadAndDecodePng_cases path fs) as [(m & Hm & _) | (e & He)];
    [ rewrite Hm in H | rewrite He in H ]; inversion H; reflexivity.
Qed.

Lemma preserves_Create (p path : string) :
  p <> path -> preserves p (os.Create path).
Proof.
  intros Hne fs fs' H. rewrite Create_creatable in H.
  destruct (creatable fs path); inversion H; subst;
    try reflexivity; apply lookup_insert_ne; congruence.
Qed.

Lemma preserves_Encode (p : string) (w : option string) (m : image.Image) :
  (forall path, w = Some path -> p <> path) -> preserves p (png.Encode w m).
Proof.
  intros Hne fs fs' H. unfold png.Encode in H.
  destruct (_ || _ || _ || _); [inversion H; reflexivity |].
  destruct w as [path | ]; inversion H; subst; [ | reflexivity ].
  apply lookup_insert_ne. specialize (Hne path eq_refl). congruence.
Qed.

Lemma Create_handle (path : string) (fs fs' : FS) (w : option string) (e : option error) :
  os.Create path fs = Returns ((w, e), fs') ->
  forall path', w = Some path' -> path' = path.
Proof.
  rewrite Create_creatable.
  destruct (creatable fs path); intros H; inversion H; congruence.
Qed.

(** Creating a file and encoding an image to it touches that path only. *)
Lemma preserves_Create_Encode (p path : string) (m : image.Image) :
  p <> path ->
  preserves p ('(toImg, _) ← os.Create path; _ ← png.Encode toImg m; mret tt).
Proof.
  intros Hne fs fs' H. unfold mbind, Go_bind in H.
  destruct (os.Create path fs) as [[[w e] fs1] | | fs1] eqn:Hc;
    [ | discriminate | ].
  - rewrite <- (preserves_Returns p _ _ _ _ (preserves_Create p path Hne) Hc).
    apply (preserves_Encode p w m).
    + intros path' Hw. rewrite (Create_handle _ _ _ _ _ Hc path' Hw). exact Hne.
    + destruct (png.Encode w m fs1) as [[e' fs2] | | fs2]; exact H.
  - apply (preserves_Create p path Hne). rewrite Hc. exact H.
Qed.

Lemma preserves_Remove (p path : string) :
  p <> path -> preserves p (os.Remove path).
Proof.
  intros Hne fs fs' H. unfold os.Remove in H.
  destruct (fs !! path) as [[[ | entry entries] | data] | ]; inversion H; subst;
    try reflexivity; apply lookup_delete_ne; congruence.
Qed.

Lemma preserves_resizeImage (p : string) img size (out : string) :
  p <> out -> preserves p (resizeImage img size out).
Proof.
  intros Hne. unfold resizeImage.
  apply preserves_bind; [apply preserves_Image_Bounds | intros b1].
  apply preserves_bind; [apply preserves_Draw | intros newImage].
  apply preserves_Create_Encode. exact Hne.
Qed.

Lemma preserves_combineImages (p : string) img1 img2 img3 (out : string) :
  p <> out -> preserves p (combineImages img1 img2 img3 out).
Proof.
  intros Hne. unfold combineImages.
  do 3 (apply preserves_bind; [apply preserves_Image_Bounds | intros ?]).
  do 3 (apply preserves_bind; [apply preserves_Draw | intros ?]).
  apply preserves_Create_Encode. exact Hne.
Qed.

Lemma preserves_commonSizeImageLengths (p in1 in2 out : string) :
  p <> out -> preserves p (commonSizeImageLengths in1 in2 out).
Proof.
  intros Hne. unfold commonSizeImageLengths.
  apply preserves_bind; [apply preserves_loadAndDecodePng | intros [img1 e1]].
  apply preserves_bind; [apply preserves_loadAndDecodePng | intros [img2 e2]].
  apply preserves_bind; [apply preserves_Image_Bounds | intros b1].
  apply preserves_bind; [apply preserves_Image_Bounds | intros b2].
  destruct (_ >? _).
  - apply preserves_bind; [apply preserves_resizeImage; exact Hne | intros ?].
    apply preserves_ret.
  - destruct (_ >? _).
    + apply preserves_bind; [apply preserves_resizeImage; exact Hne | intros ?].
      apply preserves_ret.
    + apply preserves_ret.
Qed.

Section Frame.

Variable sh : string -> FS -> FS * option bool.

Lemma preserves_exec_Output (p cmd : string) :
  toolPreserves sh p -> preserves p (exec_Output sh cmd).
Proof.
  intros Hsh fs fs' H. unfold exec_Output in H.
  specialize (Hsh cmd fs). destruct (sh cmd fs) as [fs1 [ok | ]];
    inversion H; subst; exact Hsh.
Qed.

(** A job writes to its output path and to its temporary path; it leaves
    every other path as the external tool leaves it. *)
Lemma preserves_diffFiles (p : string) (job : DiffJob) :
  toolPreserves sh p ->
  p <> outFile job -> p <> outFile job +:+ "tmp" ->
  preserves p (diffFiles sh job).
Proof.
  intros Hsh Hout Htmp. unfold diffFiles, compareFiles.
  apply preserves_bind; [ | intros ?; apply preserves_ret ].
  apply preserves_bind;
    [apply preserves_commonSizeImageLengths; exact Htmp | intros [inA inB]].
  apply preserves_bind; [apply preserves_exec_Output; exact Hsh | intros err].
  apply preserves_bind; [destruct err; apply preserves_ret | intros ?].
  do 3 (apply preserves_bind; [apply preserves_loadAndDecodePng | intros [? ?]]).
  apply preserves_bind; [apply preserves_combineImages; exact Hout | intros ?].
  apply preserves_bind; [apply preserves_Remove; exact Htmp | intros ?].
  apply preserves_ret.
Qed.

(** Jobs that write over no input of a later job, with a tool that leaves
    the inputs alone, are independent. *)
Lemma disjointWrites_independent (jobs : list DiffJob) :
  (forall job, job ∈ jobs ->
     toolPreserves sh (inFile1 job) /\ toolPreserves sh (inFile2 job)) ->
  disjointWrites jobs = true ->
  independent sh jobs.
Proof.
  intros Htool Hdis pre job suf -> fs fs' Hrun job' Hin.
  assert (Hd : disjointWrites (job :: suf) = true).
  { clear - Hdis. induction pre as [ | a pre IH]; [exact Hdis |].
    simpl in Hdis. apply andb_true_iff in Hdis. apply IH. tauto. }
  simpl in Hd. apply andb_true_iff in Hd. destruct Hd as [Hd _].
  rewrite forallb_forall in Hd.
  specialize (Hd job' ltac:(apply list_elem_of_In; exact Hin)).
  rewrite !andb_true_iff, !negb_true_iff in Hd.
  destruct Hd as [[[H1 H2] H3] H4].
  apply String.eqb_neq in H1, H2, H3, H4.
  destruct (Htool job') as [Ht1 Ht2].
  { apply elem_of_app. right. apply elem_of_cons. right. exact Hin. }
  unfold passes, isRegularFile.
  rewrite (preserves_diffFiles (inFile1 job') job Ht1 ltac:(congruence) ltac:(congruence) _ _ Hrun).
  rewrite (preserves_diffFiles (inFile2 job') job Ht2 ltac:(congruence) ltac:(congruence) _ _ Hrun).
  reflexivity.
Qed.

End Frame.

(** ** The output files of the jobs *)

Lemma append_tmp_neq (s : string) : s <> s +:+ "tmp".
Proof.
  induction s as [ | c s IH]; simpl; [discriminate |].
  intros H. inversion H. contradiction.
Qed.

Lemma isRegularFile_insert (fs : FS) (p q : string) (data : vfs.FileData) :
  isRegularFile fs p = true ->
  isRegularFile (<[q := vfs.File data]> fs) p = true.
Proof.
  unfold isRegularFile. intros H.
  destruct (decide (q = p)) as [-> | Hne].
  - rewrite lookup_insert_eq. reflexivity.
  - rewrite lookup_insert_ne by exact Hne. exact H.
Qed.

Lemma preserves_keepsFile {A : Type} (p : string) (m : Go A) :
  preserves p m -> keepsFile p m.
Proof.
  intros Hm fs fs' Hl Hf. unfold isRegularFile in *.
  rewrite (Hm fs fs' Hl). exact Hf.
Qed.

Lemma keepsFile_ret {A : Type} (p : string) (a : A) : keepsFile p (mret a).
Proof. apply preserves_keepsFile, preserves_ret. Qed.

Lemma keepsFile_bind {A B : Type} (p : string) (m : Go A) (k : A -> Go B) :
  keepsFile p m -> (forall a, keepsFile p (k a)) -> keepsFile p (m ≫= k).
Proof.
  intros Hm Hk fs fs' H Hf. unfold mbind, Go_bind in H.
  destruct (m fs) as [[a fs1] | | fs1] eqn:Hrun; [ | discriminate | ].
  - apply (Hk a fs1 fs' H). apply (Hm fs fs1); [rewrite Hrun; reflexivity | exact Hf].
  - apply (Hm fs fs'); [rewrite Hrun; exact H | exact Hf].
Qed.

(** Creating a file, and encoding to a file, remove no file. *)
Lemma keepsFile_Create (p path : string) : keepsFile p (os.Create path).
Proof.
  intros fs fs' H Hf. rewrite Create_creatable in H.
  destruct (creatable fs path); inversion H; subst;
    [apply isRegularFile_insert | ]; exact Hf.
Qed.

Lemma keepsFile_Encode (p : string) (w : option string) (m : image.Image) :
  keepsFile p (png.Encode w m).
Proof.
  intros fs fs' H Hf. unfold png.Encode in H.
  destruct (_ || _ || _ || _); [inversion H; subst; exact Hf |].
  destruct w as [path | ]; inversion H; subst;
    [apply isRegularFile_insert | ]; exact Hf.
Qed.

Lemma keepsFile_Create_Encode (p path : string) (m : image.Image) :
  keepsFile p ('(toImg, _) ← os.Create path; _ ← png.Encode toImg m; mret tt).
Proof.
  apply keepsFile_bind; [apply keepsFile_Create | intros [toImg e]].
  apply keepsFile_bind; [apply keepsFile_Encode | intros ?; apply keepsFile_ret].
Qed.

Lemma keepsFile_resizeImage (p : string) img size (out : string) :
  keepsFile p (resizeImage img size out).
Proof.
  unfold resizeImage.
  apply keepsFile_bind;
    [apply preserves_keepsFile, preserves_Image_Bounds | intros b1].
  apply keepsFile_bind; [apply preserves_keepsFile, preserves_Draw | intros ?].
  apply keepsFile_Create_Encode.
Qed.

Lemma keepsFile_combineImages (p : string) img1 img2 img3 (out : string) :
  keepsFile p (combineImages img1 img2 img3 out).
Proof.
  unfold combineImages.
  do 3 (apply keepsFile_bind;
        [apply preserves_keepsFile, preserves_Image_Bounds | intros ?]).
  do 3 (apply keepsFile_bind; [apply preserves_keepsFile, preserves_Draw | intros ?]).
  apply keepsFile_Create_Encode.
Qed.

Lemma keepsFile_commonSizeImageLengths (p in1 in2 out : string) :
  keepsFile p (commonSizeImageLengths in1 in2 out).
Proof.
  unfold commonSizeImageLengths.
  do 2 (apply keepsFile_bind;
        [apply preserves_keepsFile, preserves_loadAndDecodePng | intros [? ?]]).
  do 2 (apply keepsFile_bind;
        [apply preserves_keepsFile, preserves_Image_Bounds | intros ?]).
  destruct (_ >? _).
  - apply keepsFile_bind; [apply keepsFile_resizeImage | intros ?].
    apply keepsFile_ret.
  - destruct (_ >? _).
    + apply keepsFile_bind; [apply keepsFile_resizeImage | intros ?].
      apply keepsFile_ret.
    + apply keepsFile_ret.
Qed.

(** A file that [combineImages] has written over is there, whatever came
    of the encoding. *)
Lemma combineImages_output (img1 img2 img3 : option image.Image)
  (out : string) (fs fs' : FS) :
  creatable fs out = true ->
  combineImages img1 img2 img3 out fs = Returns (tt, fs') ->
  isRegularFile fs' out = true.
Proof.
  intros Hc H. unfold combineImages in H.
  do 6 (apply bind_Returns in H; destruct H as (? & ? & H0 & H);
        match type of H0 with
        | Image_Bounds ?i _ = _ => destruct i; inversion H0; subst; clear H0
        | draw.Draw _ _ ?i _ _ = _ => destruct i; inversion H0; subst; clear H0
        end).
  unfold mbind, Go_bind in H. rewrite Create_creatable, Hc in H.
  unfold png.Encode in H.
  destruct (_ || _ || _ || _); inversion H; subst;
    unfold isRegularFile; rewrite lookup_insert_eq; reflexivity.
Qed.

Section Outputs.

Variable sh : string -> FS -> FS * option bool.

Lemma keepsFile_exec_Output (p cmd : string) :
  toolKeeps sh p -> keepsFile p (exec_Output sh cmd).
Proof.
  intros Hsh fs fs' H Hf. unfold exec_Output in H.
  specialize (Hsh cmd fs Hf). destruct (sh cmd fs) as [fs1 [ok | ]];
    inversion H; subst; exact Hsh.
Qed.

(** A job removes its temporary file, and no other file that the external
    tool keeps. *)
Lemma keepsFile_diffFiles (p : string) (job : DiffJob) :
  toolKeeps sh p -> p <> outFile job +:+ "tmp" ->
  keepsFile p (diffFiles sh job).
Proof.
  intros Hsh Htmp. unfold diffFiles, compareFiles.
  apply keepsFile_bind; [ | intros ?; apply keepsFile_ret ].
  apply keepsFile_bind; [apply keepsFile_commonSizeImageLengths | intros [inA inB]].
  apply keepsFile_bind; [apply keepsFile_exec_Output; exact Hsh | intros err].
  apply keepsFile_bind; [destruct err; apply keepsFile_ret | intros ?].
  do 3 (apply keepsFile_bind;
        [apply preserves_keepsFile, preserves_loadAndDecodePng | intros [? ?]]).
  apply keepsFile_bind; [apply keepsFile_combineImages | intros ?].
  apply keepsFile_bind;
    [apply preserves_keepsFile, preserves_Remove; exact Htmp | intros ?].
  apply keepsFile_ret.
Qed.

(** Jobs of which no temporary path is an output path, with a tool that
    removes no output file, keep their outputs. *)
Lemma distinctOutputs_keepsOutputs (jobs : list DiffJob) :
  (forall job, job ∈ jobs -> toolKeeps sh (outFile job)) ->
  distinctOutputs jobs = true ->
  keepsOutputs sh jobs.
Proof.
  intros Htool Hdis job job' Hj Hj'.
  apply keepsFile_diffFiles; [apply Htool; exact Hj' |].
  unfold distinctOutputs in Hdis. rewrite forallb_forall in Hdis.
  specialize (Hdis job ltac:(apply list_elem_of_In; exact Hj)).
  rewrite forallb_forall in Hdis.
  specialize (Hdis job' ltac:(apply list_elem_of_In; exact Hj')).
  apply negb_true_iff, String.eqb_neq in Hdis. congruence.
Qed.

(** When a diff worker returns, the output file of its job is there:
    the output of the tool, which has decoded, written over with the
    composite. *)
Lemma diffFiles_output (job : DiffJob) (fs fs' : FS) (r : option DiffJob) :
  diffFiles sh job fs = Returns (r, fs') ->
  isRegularFile fs' (outFile job) = true.
Proof.
  unfold diffFiles. intros H.
  apply bind_Returns in H. destruct H as ([] & fs9 & H & Hret).
  inversion Hret; subst fs9; clear Hret.
  unfold compareFiles in H.
  apply bind_Returns in H. destruct H as ([inA inB] & fs1 & _ & H).
  apply bind_Returns in H. destruct H as (err & fs2 & _ & H).
  apply bind_Returns in H. destruct H as (u & fs3 & Hu & H).
  assert (fs3 = fs2) as -> by (destruct err; inversion Hu; reflexivity).
  apply bind_Returns in H. destruct H as ([img1 e1] & fs4 & Hl1 & H).
  apply bind_Returns in H. destruct H as ([img2 e2] & fs5 & Hl2 & H).
  apply bind_Returns in H. destruct H as ([imgDiff e3] & fs6 & Hl3 & H).
  apply bind_Returns in H. destruct H as ([] & fs7 & Hcomb & H).
  apply bind_Returns in H. destruct H as (e & fs8 & Hrm & H).
  inversion H; subst fs8; clear H.
  assert (fs4 = fs2) as ->
    by (destruct (loadAndDecodePng_cases inA fs2) as [(m & Hm & _) | (e' & Hm)];
        rewrite Hm in Hl1; inversion Hl1; reflexivity).
  assert (fs5 = fs2) as ->
    by (destruct (loadAndDecodePng_cases inB fs2) as [(m & Hm & _) | (e' & Hm)];
        rewrite Hm in Hl2; inversion Hl2; reflexivity).
  assert (Hc : creatable fs6 (outFile job) = true).
  { destruct (loadAndDecodePng_cases (outFile job) fs2)
      as [(m & Hm & _) | (e' & Hm)]; rewrite Hm in Hl3; inversion Hl3; subst.
    - eapply decodesTo_creatable. exact Hm.
    - exfalso. destruct img1, img2; discriminate. }
  pose proof (combineImages_output _ _ _ _ _ _ Hc Hcomb) as Hout.
  unfold isRegularFile in *.
  rewrite (preserves_Returns _ _ _ _ _
             (preserves_Remove (outFile job) (outFile job +:+ "tmp")
                (append_tmp_neq (outFile job))) Hrm).
  exact Hout.
Qed.

(** Only the run of a diff worker changes the file system. *)
Lemma move_world_frame (m : Move) (s s' : Pipeline) :
  move sh m s = Some s' ->
  (forall i, m <> WorkerRun i) ->
  world s' = world s.
Proof.
  destruct s as [w g f ws fw n c r p].
  unfold move, performDiffJobTask; simpl. intros H Hm.
  destruct p; try discriminate.
  destruct m; try (exfalso; eapply Hm; reflexivity).
  - destruct g as [[ | job jobs] | ]; try discriminate.
    destruct f; try discriminate. inversion H; reflexivity.
  - destruct g as [[ | job jobs] | ]; try discriminate. inversion H; reflexivity.
  - destruct f as [ | job | job | job | ]; try discriminate.
    rewrite filterDiffJobs_verdict in H.
    destruct (passes w job); inversion H; reflexivity.
  - destruct g; try discriminate. destruct f; try discriminate.
    inversion H; reflexivity.
  - destruct f; try discriminate.
    destruct (ws !! i) as [[ | | | | ] | ]; try discriminate. inversion H; reflexivity.
  - destruct f; try discriminate.
    destruct (ws !! i) as [[ | | | | ] | ]; try discriminate. inversion H; reflexivity.
  - destruct (ws !! i) as [[ | | | | ] | ]; try discriminate.
    destruct (fw !! i) as [[ | | ] | ]; try discriminate. inversion H; reflexivity.
  - destruct (ws !! i) as [[ | | | | ] | ]; try discriminate.
    destruct (fw !! i) as [[ | | ] | ]; try discriminate. inversion H; reflexivity.
  - destruct (fw !! i) as [[ | | ] | ]; try discriminate.
    destruct c; try discriminate. inversion H; reflexivity.
  - destruct ((n =? 0) && negb c); try discriminate. inversion H; reflexivity.
  - destruct c; try discriminate. inversion H; reflexivity.
Qed.

Lemma elem_of_concat_fmap_mono {A B : Type} (f g : A -> list B) (l : list A) (b : B) :
  (forall x, b ∈ f x -> b ∈ g x) -> b ∈ concat (f <$> l) -> b ∈ concat (g <$> l).
Proof.
  intros Hfg. induction l as [ | a l IH]; [exact id |].
  rewrite !fmap_cons. simpl. rewrite !elem_of_app.
  intros [H | H]; [left; apply Hfg | right; apply IH]; exact H.
Qed.

(** A job past its diff worker is with [main] or on its way to it. *)
Lemma pastWorker_inFlight (s : Pipeline) (job : DiffJob) :
  job ∈ pastWorker s -> job ∈ ranged s ++ inFlight s.
Proof.
  unfold pastWorker, inFlight. rewrite !elem_of_app.
  intros [H | [H | H]]; [tauto | tauto |].
  right. right. left. revert H. apply elem_of_concat_fmap_mono.
  intros [ | j | j | j | ]; simpl; intros Hb; try exact Hb; inversion Hb.
Qed.

(** The moves that run no diff worker leave the file system and the jobs
    past their diff worker as they are. *)
Lemma move_pastWorker (m : Move) (s s' : Pipeline) :
  move sh m s = Some s' ->
  (forall i, m <> WorkerRun i) ->
  pastWorker s' ≡ₚ pastWorker s.
Proof.
  destruct s as [w g f ws fw n c r p].
  unfold move, performDiffJobTask, pastWorker; simpl. intros H Hm.
  destruct p; try discriminate.
  set (sent := fun st => match st with Sending job => [job] | _ => [] end).
  destruct m; try (exfalso; eapply Hm; reflexivity).
  - destruct g as [[ | job jobs] | ]; try discriminate.
    destruct f; try discriminate. inversion H; reflexivity.
  - destruct g as [[ | job jobs] | ]; try discriminate. inversion H; reflexivity.
  - destruct f as [ | job | job | job | ]; try discriminate.
    rewrite filterDiffJobs_verdict in H.
    destruct (passes w job); inversion H; reflexivity.
  - destruct g; try discriminate. destruct f; try discriminate.
    inversion H; reflexivity.
  - destruct f; try discriminate.
    destruct (ws !! i) as [[ | | | | ] | ] eqn:Hws; try discriminate.
    inversion H; subst; simpl.
    pose proof (concat_insert_perm sent ws i Receiving (Holding job) Hws) as Hc.
    simpl in Hc. rewrite !app_nil_r in Hc. rewrite Hc. reflexivity.
  - destruct f; try discriminate.
    destruct (ws !! i) as [[ | | | | ] | ] eqn:Hws; try discriminate.
    inversion H; subst; simpl.
    pose proof (concat_insert_perm sent ws i Receiving StageClosed Hws) as Hc.
    simpl in Hc. rewrite !app_nil_r in Hc. rewrite Hc. reflexivity.
  - destruct (ws !! i) as [[ | | | job | ] | ] eqn:Hws; try discriminate.
    destruct (fw !! i) as [[ | | ] | ] eqn:Hfw; try discriminate.
    inversion H; subst; simpl.
    pose proof (concat_insert_perm sent ws i (Sending job) Receiving Hws) as Hc.
    pose proof (concat_insert_perm forwarderJob fw i FwdReceiving (FwdSending job) Hfw)
      as Hc'.
    simpl in Hc, Hc'. rewrite app_nil_r in Hc, Hc'.
    rewrite Hc', <- Hc. solve_Permutation.
  - destruct (ws !! i) as [[ | | | | ] | ] eqn:Hws; try discriminate.
    destruct (fw !! i) as [[ | | ] | ] eqn:Hfw; try discriminate.
    inversion H; subst; simpl.
    pose proof (concat_insert_perm forwarderJob fw i FwdReceiving FwdDone Hfw) as Hc'.
    simpl in Hc'. rewrite !app_nil_r in Hc'. rewrite Hc'. reflexivity.
  - destruct (fw !! i) as [[ | job | ] | ] eqn:Hfw; try discriminate.
    destruct c; try discriminate.
    inversion H; subst; simpl.
    pose proof (concat_insert_perm forwarderJob fw i (FwdSending job) FwdReceiving Hfw)
      as Hc'.
    simpl in Hc'. rewrite app_nil_r in Hc'. rewrite <- Hc'. solve_Permutation.
  - destruct ((n =? 0) && negb c); try discriminate. inversion H; reflexivity.
  - destruct c; try discriminate. inversion H; reflexivity.
Qed.

Variable jobs0 : list DiffJob.
Hypothesis Hkeep : keepsOutputs sh jobs0.

(** Every move keeps the output files of the jobs that are past their
    diff worker. *)
Lemma move_outputsThere (m : Move) (s s' : Pipeline) :
  move sh m s = Some s' ->
  accounted jobs0 s -> outputsThere s -> outputsThere s'.
Proof.
  intros Hm Hacc Hout.
  assert (Hjobs : forall job, job ∈ pastWorker s -> job ∈ jobs0)
    by (intros job Hj; eapply accounted_jobs;
        [exact Hacc | apply pastWorker_inFlight; exact Hj]).
  assert (Hm' : (exists i, m = WorkerRun i) \/ (forall i, m <> WorkerRun i))
    by (destruct m; try (right; discriminate); left; eauto).
  destruct Hm' as [[i ->] | Hno'].
  2:{ intros job Hj.
      rewrite (move_world_frame m s s' Hm Hno').
      apply Hout. rewrite <- (move_pastWorker m s s' Hm Hno'). exact Hj. }
  destruct s as [w g f ws fw n c r p].
  unfold move, performDiffJobTask in Hm; simpl in Hm.
  destruct p; try discriminate.
  destruct (ws !! i) as [[ | job | job | job | ] | ] eqn:Hws; try discriminate.
  assert (Hjob : job ∈ jobs0).
  { eapply accounted_jobs; [exact Hacc |]. unfold inFlight; simpl.
    rewrite !elem_of_app. right. right. left.
    apply (elem_of_concat_lookup stageJob ws i (Holding job) job Hws).
    simpl. apply elem_of_cons. left. reflexivity. }
  set (sent := fun st => match st with Sending job => [job] | _ => [] end).
  pose proof (concat_insert_perm sent ws i (Holding job)) as Hc.
  unfold outputsThere, pastWorker in *; simpl in *. fold sent in Hout, Hjobs |- *.
  destruct (diffFiles sh job w) as [[res w'] | | w'] eqn:Hrun.
  - pose proof (diffFiles_returns_job sh job w w' res Hrun) as ->.
    inversion Hm; subst s'; clear Hm; simpl.
    specialize (Hc (Sending job) Hws). simpl in Hc. rewrite app_nil_r in Hc.
    intros job' Hj'. rewrite Hc in Hj'.
    rewrite !app_assoc in Hj'. apply elem_of_app in Hj'.
    destruct Hj' as [Hj' | Hj'].
    + rewrite <- !app_assoc in Hj'.
      apply (Hkeep job job' Hjob (Hjobs job' Hj') w w');
        [rewrite Hrun; reflexivity | apply Hout; exact Hj'].
    + apply list_elem_of_singleton in Hj'. subst job'.
      eapply diffFiles_output. exact Hrun.
  - inversion Hm; subst s'; simpl. exact Hout.
  - inversion Hm; subst s'; clear Hm; simpl.
    specialize (Hc (Calling job) Hws). simpl in Hc. rewrite !app_nil_r in Hc.
    intros job' Hj'. rewrite Hc in Hj'.
    apply (Hkeep job job' Hjob (Hjobs job' Hj') w w');
      [rewrite Hrun; reflexivity | apply Hout; exact Hj'].
Qed.

Lemma reachable_outputsThere (s s' : Pipeline) :
  rtc (step sh) s s' ->
  accounted jobs0 s -> outputsThere s -> outputsThere s'.
Proof.
  induction 1 as [ | s1 s2 s3 [m Hm] _ IH]; [tauto |].
  intros Ha Ho. apply IH.
  - eapply move_accounted; eassumption.
  - eapply move_outputsThere; eassumption.
Qed.

End Outputs.

Lemma start_outputsThere (threads : Z) (g : option Generator) (fs : FS) :
  outputsThere (start threads g fs).
Proof.
  unfold outputsThere, pastWorker, start, fanOut, fanDiffJobsIn.
  destruct g; simpl; rewrite !concat_replicate_nil by reflexivity;
    intros job Hj; inversion Hj.
Qed.


(** ** The theorems at sample inputs *)

Lemma raster_decoded (w h : Z) (pix : Z -> Z -> color.Color) :
  0 < w < 2 ^ 31 -> 0 < h < 2 ^ 31 -> raster (png.decoded w h pix).
Proof.
  intros Hw Hh. unfold raster, png.decoded; simpl.
  rewrite Rect_origin by lia. simpl. repeat split; lia.
Qed.

(** A file that holds a PNG stream of valid sides decodes to its image. *)
Lemma decodesTo_PNG (fs : FS) (path : string) (w h : Z)
  (pix : Z -> Z -> color.Color) :
  fs !! path = Some (vfs.File (vfs.PNG w h pix)) ->
  0 < w < 2 ^ 31 -> 0 < h < 2 ^ 31 ->
  decodesTo fs path (png.decoded w h pix).
Proof.
  intros Hl Hw Hh.
  unfold decodesTo, loadAndDecodePng, os.Open, mbind, Go_bind.
  rewrite Hl. simpl.
  replace (_ && _ && _ && _) with true; [reflexivity |].
  symmetry. rewrite !andb_true_iff, !Z.ltb_lt. lia.
Qed.

Lemma run_reachable (sh : string -> FS -> FS * option bool) (schedule : list Move)
  (s s' : Pipeline) :
  run sh schedule s = Some s' -> rtc (step sh) s s'.
Proof.
  intros H. eapply rtc_nsteps_2. apply run_nsteps. exact H.
Qed.

Lemma runs_after (sh : string -> FS -> FS * option bool) (schedule : list Move)
  (s : Pipeline) :
  Sample.runs sh schedule s = true ->
  run sh schedule s = Some (Sample.after sh schedule s).
Proof.
  unfold Sample.runs, Sample.after.
  destruct (run sh schedule s); [reflexivity | discriminate].
Qed.

(** A dead process takes no step. *)
Lemma move_dead (sh : string -> FS -> FS * option bool) (m : Move) (s : Pipeline) :
  process s <> Alive -> move sh m s = None.
Proof.
  unfold move. destruct (process s); [congruence | reflexivity ..].
Qed.

Lemma compareTool_preserves (p : string) :
  p <> "out/x.png" -> toolPreserves Sample.compareTool p.
Proof.
  intros Hne cmd fs. unfold Sample.compareTool.
  destruct (String.eqb cmd _); simpl; [ | reflexivity ].
  apply lookup_insert_ne. congruence.
Qed.

Lemma sample_independent :
  independent Sample.compareTool [Sample.jobX; Sample.jobY].
Proof.
  apply disjointWrites_independent; [ | reflexivity ].
  intros job Hin.
  repeat (apply elem_of_cons in Hin; destruct Hin as [-> | Hin]);
    [ | | inversion Hin ];
    split; apply compareTool_preserves; discriminate.
Qed.

(** The external tool of the samples writes at the output paths of its
    commands only, removes no file, and exits. *)
Lemma diffTool_preserves (p : string) :
  forallb (fun c => negb (String.eqb c.2 p)) Sample.commands = true ->
  toolPreserves Sample.diffTool p.
Proof.
  intros Hp cmd fs. unfold Sample.diffTool.
  destruct (find _ Sample.commands) as [[c out] | ] eqn:Hf; simpl; [ | reflexivity ].
  apply find_some in Hf. destruct Hf as [Hin _].
  rewrite forallb_forall in Hp. specialize (Hp _ Hin). simpl in Hp.
  apply negb_true_iff, String.eqb_neq in Hp.
  apply lookup_insert_ne. exact Hp.
Qed.

Lemma diffTool_keeps (p : string) : toolKeeps Sample.diffTool p.
Proof.
  intros cmd fs Hf. unfold Sample.diffTool.
  destruct (find _ Sample.commands) as [[c out] | ]; simpl; [ | exact Hf ].
  apply isRegularFile_insert. exact Hf.
Qed.

Lemma diffTool_exits : toolExits Sample.diffTool.
Proof.
  intros cmd fs. unfold Sample.diffTool.
  destruct (find _ Sample.commands) as [[c out] | ]; discriminate.
Qed.

Lemma sample_independent_two :
  independent Sample.diffTool [Sample.jobX; Sample.jobTall].
Proof.
  apply disjointWrites_independent; [ | reflexivity ].
  intros job Hin.
  repeat (apply elem_of_cons in Hin; destruct Hin as [-> | Hin]);
    [ | | inversion Hin ];
    split; apply diffTool_preserves; reflexivity.
Qed.

Lemma sample_keepsOutputs_two :
  keepsOutputs Sample.diffTool [Sample.jobX; Sample.jobTall].
Proof.
  apply distinctOutputs_keepsOutputs; [ | reflexivity ].
  intros job _. apply diffTool_keeps.
Qed.

(** A schedule that runs, as a run. *)
Lemma runs_reachable (sh : string -> FS -> FS * option bool)
  (schedule : list Move) (s : Pipeline) :
  Sample.runs sh schedule s = true ->
  rtc (step sh) s (Sample.after sh schedule s).
Proof.
  intros H. apply (run_reachable _ schedule). apply runs_after. exact H.
Qed.

Lemma combineImages_side_by_side_witness :
  exists canvas : image.Image,
    combineImages (Some Sample.imageA) (Some Sample.imageD) (Some Sample.imageB)
      "out/x.png" Sample.fs
    = ('(toImg, _) ← os.Create "out/x.png";
       _ ← png.Encode toImg canvas;
       mret tt) Sample.fs /\
    image.Min (image.Bounds canvas) = image.mkPoint 0 0 /\
    width canvas = width Sample.imageA + width Sample.imageD + width Sample.imageB /\
    height canvas
    = Z.max (Z.max (height Sample.imageA) (height Sample.imageD)) (height Sample.imageB) /\
    forall x y,
      image.At canvas x y = sideBySide Sample.imageA Sample.imageD Sample.imageB x y.
Proof.
  apply (combineImages_side_by_side Sample.imageA Sample.imageD Sample.imageB
           "out/x.png" Sample.fs);
    apply raster_decoded; lia.
Defined.

Lemma commonSizeImageLengths_equal_height_witness :
  commonSizeImageLengths "a/x.png" "b/x.png" "out/x.pngtmp" Sample.fs
  = Returns (("a/x.png", "b/x.png"), Sample.fs).
Proof.
  apply (commonSizeImageLengths_equal_height "a/x.png" "b/x.png" "out/x.pngtmp"
           Sample.fs (png.decoded 2 2 Sample.gradient)
           (png.decoded 2 2 (Sample.solid 65535 0 0))).
  - apply decodesTo_PNG; [reflexivity | lia | lia].
  - apply decodesTo_PNG; [reflexivity | lia | lia].
  - reflexivity.
Defined.

(** C4 as the specification states it fails in three ways.
    - A shorter image that is wider than the taller one is cropped.
      [a/tall.png] is 1 wide and 2 high, [b/tall.png] is 2 wide and 1
      high: the image written for [b/tall.png] at the temporary path is 1
      wide, and the pixel (1, 0) of [b/tall.png] is not in it.
    - The pixels are not drawn unchanged: they are reduced to 8 bits a
      channel.  The pixel (0, 0) of [deep/b.png] has the red channel 4660
      (hexadecimal 1234); in the image written at the temporary path it
      is 4626 (hexadecimal 1212).
    - Where no file can be written, nothing is encoded to the temporary
      path, which is returned all the same: [nodir] is no directory, and
      [nodir/tall.pngtmp] holds no image after the normalization. *)
Lemma commonSizeImageLengths_departs :
  (exists fs' shorter padded,
      commonSizeImageLengths "a/tall.png" "b/tall.png" "out/tall.pngtmp" Sample.fs
      = Returns (("a/tall.png", "out/tall.pngtmp"), fs') /\
      decodesTo Sample.fs "b/tall.png" shorter /\
      decodesTo fs' "out/tall.pngtmp" padded /\
      width shorter = 2 /\ width padded = 1 /\
      ~ neverCrops shorter padded) /\
  (exists fs' shorter padded,
      commonSizeImageLengths "deep/a.png" "deep/b.png" "deep/b.pngtmp" Sample.deep
      = Returns (("deep/a.png", "deep/b.pngtmp"), fs') /\
      decodesTo Sample.deep "deep/b.png" shorter /\
      decodesTo fs' "deep/b.pngtmp" padded /\
      color.R (image.At shorter 0 0) = 4660 /\
      color.R (image.At padded 0 0) = 4626) /\
  (commonSizeImageLengths "a/tall.png" "b/tall.png" "nodir/tall.pngtmp" Sample.fs
   = Returns (("a/tall.png", "nodir/tall.pngtmp"), Sample.fs) /\
   failsToDecode Sample.fs "nodir/tall.pngtmp").
Proof.
  split; [ | split ].
  - assert (Hc : Sample.cropped = true) by (vm_compute; reflexivity).
    unfold Sample.cropped in Hc.
    destruct (commonSizeImageLengths _ _ _ Sample.fs) as [[[pA pB] fs'] | | ];
      [ | discriminate .. ].
    destruct (loadAndDecodePng_cases pB fs') as [(padded & Hload & _) | (e & Hload)];
      rewrite Hload in Hc; [ | discriminate ].
    rewrite !andb_true_iff, negb_true_iff in Hc.
    destruct Hc as [[[HA HB] Hw] Hin].
    apply String.eqb_eq in HA, HB. apply Z.eqb_eq in Hw. subst pA pB.
    exists fs', (png.decoded 2 1 Sample.gradient), padded.
    split; [reflexivity |].
    split; [apply decodesTo_PNG; [reflexivity | lia | lia] |].
    split; [exact Hload |].
    split; [reflexivity |]. split; [exact Hw |].
    intros Hnever. destruct (Hnever 1 0 eq_refl) as [Hin' _]. congruence.
  - assert (Hc : Sample.reduced = true) by (vm_compute; reflexivity).
    unfold Sample.reduced in Hc.
    destruct (commonSizeImageLengths _ _ _ Sample.deep) as [[[pA pB] fs'] | | ];
      [ | discriminate .. ].
    destruct (loadAndDecodePng_cases pB fs') as [(padded & Hload & _) | (e & Hload)];
      rewrite Hload in Hc; [ | discriminate ].
    rewrite !andb_true_iff in Hc.
    destruct Hc as [[HA HB] Hr].
    apply String.eqb_eq in HA, HB. apply Z.eqb_eq in Hr. subst pA pB.
    exists fs', (png.decoded 1 1 (Sample.solid 4660 0 0)), padded.
    split; [reflexivity |].
    split; [apply decodesTo_PNG; [reflexivity | lia | lia] |].
    split; [exact Hload |].
    split; [reflexivity | exact Hr].
  - split.
    + unfold commonSizeImageLengths, mbind, Go_bind.
      rewrite (decodesTo_PNG Sample.fs "a/tall.png" 1 2 (Sample.solid 0 65535 0))
        by (reflexivity || lia).
      rewrite (decodesTo_PNG Sample.fs "b/tall.png" 2 1 Sample.gradient)
        by (reflexivity || lia).
      cbv beta iota zeta delta [Image_Bounds mret Go_ret].
      replace (_ >? _) with true by reflexivity.
      rewrite resizeImage_run by (apply raster_decoded; lia).
      replace (creatable Sample.fs "nodir/tall.pngtmp") with false by reflexivity.
      reflexivity.
    + exists ErrNotExist. reflexivity.
Qed.

Lemma commonSizeImageLengths_pads_witness :
  (exists canvas padded,
      commonSizeImageLengths "deep/a.png" "deep/b.png" "deep/b.pngtmp" Sample.deep
      = Returns (("deep/a.png", "deep/b.pngtmp"),
                 <["deep/b.pngtmp" := vfs.File (png.encoded canvas)]> Sample.deep) /\
      neverCrops (png.decoded 1 1 (Sample.solid 4660 0 0)) canvas /\
      decodesTo (<["deep/b.pngtmp" := vfs.File (png.encoded canvas)]> Sample.deep)
        "deep/b.pngtmp" padded /\
      image.Bounds padded = image.Rect 0 0 1 2) /\
  (exists canvas padded,
      commonSizeImageLengths "a/tall.png" "b/tall.png" "out/tall.pngtmp" Sample.fs
      = Returns (("a/tall.png", "out/tall.pngtmp"),
                 <["out/tall.pngtmp" := vfs.File (png.encoded canvas)]> Sample.fs) /\
      decodesTo (<["out/tall.pngtmp" := vfs.File (png.encoded canvas)]> Sample.fs)
        "out/tall.pngtmp" padded /\
      image.Bounds padded = image.Rect 0 0 1 2).
Proof.
  split.
  - destruct (commonSizeImageLengths_pads "deep/a.png" "deep/b.png" "deep/b.pngtmp"
                Sample.deep (png.decoded 1 2 (Sample.solid 4660 0 0))
                (png.decoded 1 1 (Sample.solid 4660 0 0)))
      as (canvas & padded & Hrun & _ & _ & Hcrop & Hdec & Hb & _).
    + apply decodesTo_PNG; [reflexivity | lia | lia].
    + apply decodesTo_PNG; [reflexivity | lia | lia].
    + discriminate.
    + reflexivity.
    + exists canvas, padded.
      split; [exact Hrun |]. split; [ | split; [exact Hdec | exact Hb] ].
      apply Hcrop. discriminate.
  - destruct (commonSizeImageLengths_pads "a/tall.png" "b/tall.png" "out/tall.pngtmp"
                Sample.fs (png.decoded 1 2 (Sample.solid 0 65535 0))
                (png.decoded 2 1 Sample.gradient))
      as (canvas & padded & Hrun & _ & _ & _ & Hdec & Hb & _).
    + apply decodesTo_PNG; [reflexivity | lia | lia].
    + apply decodesTo_PNG; [reflexivity | lia | lia].
    + discriminate.
    + reflexivity.
    + exists canvas, padded. repeat split; assumption.
Defined.





(** ** Where the code departs from the specification *)

(** An input that fails to decode makes [compareFiles] panic, in every
    file system and whatever the external tool does: the normalization
    calls [Bounds] on the nil image. *)
Lemma compareFiles_panics_undecodable
  (sh : string -> FS -> FS * option bool) (comparePath in1 in2 out : string) (fs : FS) :
  (exists e, loadAndDecodePng in1 fs = Returns ((None, Some e), fs)) \/
  (exists e, loadAndDecodePng in2 fs = Returns ((None, Some e), fs)) ->
  compareFiles sh comparePath in1 in2 out fs = Panics.
Proof.
  intros Hfail.
  unfold compareFiles, commonSizeImageLengths, mbind, Go_bind.
  destruct (loadAndDecodePng_cases in1 fs) as [(m1 & H1 & _) | (e1 & H1)];
    destruct (loadAndDecodePng_cases in2 fs) as [(m2 & H2 & _) | (e2 & H2)];
    rewrite H1, H2; try reflexivity.
  destruct Hfail as [(e & He) | (e & He)]; congruence.
Qed.

(** C1, at failing inputs.  The specification has the worker go on to the
    composite step with a zero-value image when a decoding fails.  The
    value [loadAndDecodePng] returns with an error is a nil image, and the
    first call of its method [Bounds] panics:
    - with the external tool out of reach and no output file from an
      earlier run, [combineImages] panics on the nil diff image;
    - with an input that is no PNG stream, [commonSizeImageLengths] panics
      before the tool is called;
    - in the pipeline, the panic of the worker kills the process: nothing
      has come out of the fan-in, the next job, which passed the filter, is
      still held by the filter, and no goroutine moves any more. *)
Theorem compareFiles_panics_on_failure :
  compareFiles Sample.unreachable "compare" "a/x.png" "b/x.png" "out/x.png"
    Sample.fs = Panics /\
  compareFiles Sample.compareTool "compare" "a/broken.png" "b/broken.png"
    "out/broken.png" Sample.fs = Panics /\
  let s0 := start 1 (Some (Ranging [Sample.jobBroken; Sample.jobX])) Sample.fs in
  let s := Sample.after Sample.compareTool Sample.scheduleCrash s0 in
  rtc (step Sample.compareTool) s0 s /\
  process s = Panicked /\ ranged s = [] /\
  chFiltered s = Sending Sample.jobX /\
  forall m, move Sample.compareTool m s = None.
Proof.
  split; [vm_compute; reflexivity |].
  split; [vm_compute; reflexivity |].
  intros s0 s.
  assert (Hp : process s = Panicked) by (vm_compute; reflexivity).
  split.
  { apply (run_reachable _ Sample.scheduleCrash). apply runs_after.
    vm_compute. reflexivity. }
  split; [exact Hp |].
  split; [vm_compute; reflexivity |].
  split; [vm_compute; reflexivity |].
  intros m. apply move_dead. rewrite Hp. discriminate.
Qed.

(** C7, at failing inputs.  The diff worker hands back the job it was
    given whenever it returns, and it returns when the tool exits with a
    non-zero status after writing its output; but it does not always
    return: it panics when the tool has written no output, and when an
    input is no PNG stream.  This is the defect of C1. *)
Theorem diffFiles_panics_or_returns_job :
  diffFiles Sample.unreachable Sample.jobX Sample.fs = Panics /\
  diffFiles Sample.compareTool Sample.jobBroken Sample.fs = Panics /\
  (Sample.compareTool
     "compare a/x.png b/x.png -highlight-color blue out/x.png" Sample.fs).2
  = Some false /\
  exists fs', diffFiles Sample.compareTool Sample.jobX Sample.fs
              = Returns (Some Sample.jobX, fs').
Proof.
  split; [vm_compute; reflexivity |].
  split; [vm_compute; reflexivity |].
  split; [reflexivity |].
  assert (Hb : returned (diffFiles Sample.compareTool Sample.jobX Sample.fs)
               = true) by (vm_compute; reflexivity).
  destruct (diffFiles Sample.compareTool Sample.jobX Sample.fs)
    as [[r fs'] | | fs'] eqn:Hrun; [ | discriminate .. ].
  exists fs'.
  rewrite (diffFiles_returns_job _ _ _ _ _ Hrun). reflexivity.
Qed.

(** ** Making the output directory *)

Lemma Stat_cases (path : string) (fs : FS) :
  os.Stat path fs
  = Returns (match fs !! path with
             | Some (vfs.Dir _) => (Some (os.mkFileInfo true), None)
             | Some (vfs.File _) => (Some (os.mkFileInfo false), None)
             | None => (None, Some ErrNotExist)
             end, fs).
Proof.
  unfold os.Stat. destruct (fs !! path) as [[entries | data] | ]; reflexivity.
Qed.

(** [os.Mkdir] returns; when it succeeds, nothing was at the path before
    and an empty directory is there after. *)
Lemma Mkdir_cases (path : string) (fs : FS) :
  (exists e, os.Mkdir path fs = Returns (Some e, fs)) \/
  (exists fs', os.Mkdir path fs = Returns (None, fs') /\
               fs !! path = None /\ fs' !! path = Some (vfs.Dir [])).
Proof.
  unfold os.Mkdir.
  destruct (fs !! path) as [n | ] eqn:Hp; [left; eexists; reflexivity |].
  destruct (fs !! os.dirOf path) as [[entries | data] | ] eqn:Hd.
  - destruct (String.eqb (os.baseOf path) ""); [left; eexists; reflexivity |].
    right. eexists. split; [reflexivity |]. split; [reflexivity |].
    apply lookup_insert_eq.
  - left. eexists. reflexivity.
  - left. eexists. reflexivity.
Qed.

(** One round of [os.MkdirAll]: the fast path, or the directory above and
    then the directory itself. *)
Lemma MkdirAll_from_unfold (fuel : nat) (path : string) (fs : FS) :
  os.MkdirAll_from fuel path fs
  = match fs !! path with
    | Some (vfs.Dir _) => Returns (None, fs)
    | Some (vfs.File _) => Returns (Some ErrNotDir, fs)
    | None =>
        match
          (if (1 <? os.lastElement path)%nat then
             match fuel with
             | S fuel =>
                 os.MkdirAll_from fuel
                   (String.substring 0 (os.lastElement path - 1) path)
             | O => mret (Some ErrInvalid)
             end
           else mret None) fs
        with
        | Returns (Some e, fs1) => Returns (Some e, fs1)
        | Returns (None, fs1) =>
            match os.Mkdir path fs1 with
            | Returns (Some e, fs2) =>
                match fs2 !! path with
                | Some (vfs.Dir _) => Returns (None, fs2)
                | _ => Returns (Some e, fs2)
                end
            | Returns (None, fs2) => Returns (None, fs2)
            | Panics => Panics
            | Hangs fs2 => Hangs fs2
            end
        | Panics => Panics
        | Hangs fs1 => Hangs fs1
        end
    end.
Proof.
  destruct fuel as [ | fuel]; simpl;
    unfold mbind, Go_bind; rewrite Stat_cases;
    (destruct (fs !! path) as [[entries | data] | ]; [reflexivity .. | ]);
    match goal with
    | |- context [match ?up fs with _ => _ end] =>
        destruct (up fs) as [[[e | ] fs1] | | fs1]; try reflexivity
    end;
    (destruct (os.Mkdir path fs1) as [[[e | ] fs2] | | fs2]; try reflexivity;
     rewrite Stat_cases;
     destruct (fs2 !! path) as [[entries | data] | ]; reflexivity).
Qed.

(** [os.MkdirAll] returns: it neither panics nor waits. *)
Lemma MkdirAll_from_returns (fuel : nat) (path : string) (fs : FS) :
  exists e fs', os.MkdirAll_from fuel path fs = Returns (e, fs').
Proof.
  assert (Hlast : forall fs1 : FS,
             exists e fs',
               match os.Mkdir path fs1 with
               | Returns (Some e, fs2) =>
                   match fs2 !! path with
                   | Some (vfs.Dir _) => Returns (None, fs2)
                   | _ => Returns (Some e, fs2)
                   end
               | Returns (None, fs2) => Returns (None, fs2)
               | Panics => Panics
               | Hangs fs2 => Hangs fs2
               end = Returns (e, fs')).
  { intros fs1.
    destruct (Mkdir_cases path fs1) as [(e & ->) | (fs2 & -> & _ & _)];
      [ | eauto ].
    destruct (fs1 !! path) as [[entries | data] | ]; eauto. }
  revert path fs Hlast. induction fuel as [ | fuel IH]; intros path fs Hlast;
    rewrite MkdirAll_from_unfold;
    (destruct (fs !! path) as [[entries | data] | ]; [eauto .. | ]);
    (destruct (1 <? os.lastElement path)%nat; [ | apply Hlast ]).
  - eauto.
  - edestruct IH as (e & fs1 & ->).
    + intros fs1.
      destruct (Mkdir_cases (String.substring 0 (os.lastElement path - 1) path) fs1)
        as [(e & ->) | (fs2 & -> & _ & _)]; [ | eauto ].
      destruct (fs1 !! _) as [[entries | data] | ]; eauto.
    + destruct e as [e | ]; [eauto | apply Hlast].
Qed.

(** When [os.MkdirAll] reports no error, the path names a directory; and
    it does nothing to a directory that is there. *)
Lemma MkdirAll_from_directory (fuel : nat) (path : string) (fs fs' : FS) :
  os.MkdirAll_from fuel path fs = Returns (None, fs') ->
  listing fs' path <> None.
Proof.
  rewrite MkdirAll_from_unfold. unfold listing.
  destruct (fs !! path) as [[entries | data] | ] eqn:Hp.
  - intros H. inversion H; subst. rewrite Hp. discriminate.
  - discriminate.
  - match goal with
    | |- context [match ?up fs with _ => _ end] =>
        destruct (up fs) as [[[e | ] fs1] | | fs1]; try discriminate
    end.
    destruct (Mkdir_cases path fs1) as [(e & ->) | (fs2 & -> & _ & Hd)].
    + destruct (fs1 !! path) as [[entries | data] | ] eqn:Hp1; try discriminate.
      intros H. inversion H; subst. rewrite Hp1. discriminate.
    + intros H. inversion H; subst. rewrite Hd. discriminate.
Qed.

Lemma MkdirAll_from_nothing_to_do (fuel : nat) (path : string) (fs : FS) :
  listing fs path <> None -> os.MkdirAll_from fuel path fs = Returns (None, fs).
Proof.
  rewrite MkdirAll_from_unfold. unfold listing.
  destruct (fs !! path) as [[entries | data] | ]; congruence.
Qed.

(** The job source returns: a directory that cannot be listed is an exit
    of the process, not a panic. *)
Lemma grabJobChannelGenerator_listing
  (Join : string -> string -> string) (comparePath inDir1 indDir2 outDir : string)
  (fs : FS) :
  grabJobChannelGenerator Join comparePath inDir1 indDir2 outDir fs
  = Returns
      (match listing fs inDir1 with
       | Some files =>
           Some (Ranging (generatorLoop Join comparePath inDir1 indDir2 outDir files))
       | None => None
       end, fs).
Proof.
  unfold grabJobChannelGenerator, ioutil.ReadDir, listing, mbind, Go_bind.
  destruct (fs !! inDir1) as [[entries | data] | ]; reflexivity.
Qed.

Section CommandLine.

Variable Join : string -> string -> string.
Variable flag_Parse : list string -> Flags.

(** [main] looks at the length of [os.Args], whatever the flags: with
    another number of words than four on the command line it never starts
    the pipeline. *)
Lemma main_arity (args : list string) (fs : FS) :
  length args <> 4%nat ->
  forall s, main Join flag_Parse args fs <> Started s.
Proof.
  intros Hlen s. unfold main.
  destruct args as [ | prog arguments]; [discriminate |].
  destruct (flag_Parse arguments); [ | discriminate ].
  destruct (length (prog :: arguments) =? 4)%nat eqn:Hl; [ | discriminate ].
  apply Nat.eqb_eq in Hl. congruence.
Qed.

(** [main] always gets as far as starting the pipeline when the flags
    parse and the command line has four words. *)
Lemma main_starts (prog a1 a2 a3 : string) (fs : FS) :
  match flag_Parse [a1; a2; a3] with
  | FlagExit status => main Join flag_Parse [prog; a1; a2; a3] fs = ExitFlag status
  | Parsed threads compare =>
      exists g fs',
        (_ ← os.MkdirAll a3; grabJobChannelGenerator Join compare a1 a2 a3) fs
        = Returns (g, fs') /\
        main Join flag_Parse [prog; a1; a2; a3] fs = Started (start threads g fs')
  end.
Proof.
  unfold main. destruct (flag_Parse [a1; a2; a3]) as [threads compare | status];
    [ | reflexivity ].
  simpl.
  unfold mbind, Go_bind, os.MkdirAll.
  destruct (MkdirAll_from_returns (String.length a3) a3 fs) as (e & fs1 & ->).
  rewrite grabJobChannelGenerator_listing.
  eexists _, fs1. split; reflexivity.
Qed.

(** C9, at failing inputs.  The specification has [main] count the
    positional arguments.  [main] counts the words of [os.Args], the flags
    among them:
    - [idiff -t 2 a b out] has three positional arguments, and [main]
      prints the usage and exits with status 0 (unless [flag.Parse] has
      exited already);
    - [idiff -t=2 a b] has two positional arguments, and [main] starts the
      pipeline, with [-t=2] for directory 1. *)
Theorem main_counts_flags_as_arguments (fs : FS) :
  main Join flag_Parse ["idiff"; "-t"; "2"; "a"; "b"; "out"] fs
  = match flag_Parse ["-t"; "2"; "a"; "b"; "out"] with
    | FlagExit status => ExitFlag status
    | Parsed _ _ => ExitUsage 0
    end
  /\
  match flag_Parse ["-t=2"; "a"; "b"] with
  | FlagExit status =>
      main Join flag_Parse ["idiff"; "-t=2"; "a"; "b"] fs = ExitFlag status
  | Parsed threads compare =>
      exists g fs',
        (_ ← os.MkdirAll "b"; grabJobChannelGenerator Join compare "-t=2" "a" "b") fs
        = Returns (g, fs') /\
        main Join flag_Parse ["idiff"; "-t=2"; "a"; "b"] fs
        = Started (start threads g fs')
  end.
Proof.
  split.
  - unfold main. destruct (flag_Parse _); reflexivity.
  - apply main_starts.
Qed.

End CommandLine.

(** * Further properties of the code *)

(** ** The per-job functions *)

(** X1. [combineImages] panics as soon as one of its three images is nil,
    whatever the other two, the output path and the file system: the call
    of [Bounds] on the nil image panics, before the canvas is made and
    before a file is created. *)
Theorem combineImages_panics_on_nil
  (img1 img2 img3 : option image.Image) (outputFile : string) (fs : FS) :
  img1 = None \/ img2 = None \/ img3 = None ->
  combineImages img1 img2 img3 outputFile fs = Panics.
Proof.
  intros H.
  destruct img1 as [m1 | ], img2 as [m2 | ], img3 as [m3 | ]; try reflexivity.
  destruct H as [H | [H | H]]; discriminate.
Qed.

(** X2. The normalization panics exactly when one of the two inputs fails
    to decode (a missing file, a directory, bytes that are no PNG stream,
    a header with a side that is not positive): it never panics on two
    images, whatever their sizes and whatever comes of writing the
    temporary file. *)
Theorem commonSizeImageLengths_panics_iff (in1 in2 out : string) (fs : FS) :
  commonSizeImageLengths in1 in2 out fs = Panics
  <-> failsToDecode fs in1 \/ failsToDecode fs in2.
Proof.
  unfold commonSizeImageLengths, mbind, Go_bind.
  destruct (failsToDecode_cases fs in1) as [[m1 H1] | [e1 H1]];
    destruct (failsToDecode_cases fs in2) as [[m2 H2] | [e2 H2]];
    unfold decodesTo in *; rewrite H1, H2;
    try (split; [ intros _ | intros _; reflexivity ];
         solve [ left; exists e1; exact H1 | right; exists e2; exact H2 ]).
  cbv beta iota zeta delta [Image_Bounds mret Go_ret].
  split.
  - destruct (_ >? _).
    + destruct (resizeImage_returns m2 (image.Bounds m1) out fs) as [fs' Hr].
      rewrite Hr. discriminate.
    + destruct (_ >? _); [ | discriminate ].
      destruct (resizeImage_returns m1 (image.Bounds m2) out fs) as [fs' Hr].
      rewrite Hr. discriminate.
  - intros [[e He] | [e He]]; congruence.
Qed.

(** X3. The normalization does not mind the order of its inputs: with the
    inputs exchanged it writes the same temporary file and returns the same
    two paths, exchanged; and it panics on the same inputs. *)
Theorem commonSizeImageLengths_swap (in1 in2 out : string) (fs : FS) :
  commonSizeImageLengths in2 in1 out fs
  = swapPaths (commonSizeImageLengths in1 in2 out fs).
Proof.
  unfold commonSizeImageLengths, mbind, Go_bind.
  destruct (failsToDecode_cases fs in1) as [[m1 H1] | [e1 H1]];
    destruct (failsToDecode_cases fs in2) as [[m2 H2] | [e2 H2]];
    unfold decodesTo in *;
    repeat (rewrite ?H1, ?H2; cbv beta iota zeta);
    try reflexivity.
  cbv beta iota zeta delta [Image_Bounds mret Go_ret].
  destruct (Z.gtb_spec (image.Y (image.Max (image.Bounds m1)))
              (image.Y (image.Max (image.Bounds m2)))) as [Hgt | Hle];
    destruct (Z.gtb_spec (image.Y (image.Max (image.Bounds m2)))
                (image.Y (image.Max (image.Bounds m1)))) as [Hgt' | Hle'];
    try lia; try reflexivity.
  - destruct (resizeImage (Some m2) (image.Bounds m1) out fs)
      as [[[] fs'] | | fs']; reflexivity.
  - destruct (resizeImage (Some m1) (image.Bounds m2) out fs)
      as [[[] fs'] | | fs']; reflexivity.
Qed.

Lemma Remove_gone (path : string) (fs fs' : FS) (e : option error) :
  os.Remove path fs = Returns (e, fs') -> isRegularFile fs' path = false.
Proof.
  unfold os.Remove, isRegularFile.
  destruct (fs !! path) as [[[ | entry entries] | data] | ] eqn:Hl;
    intros H; inversion H; subst;
    rewrite ?lookup_delete_eq, ?Hl; reflexivity.
Qed.

Section PerJob.

Variable sh : string -> FS -> FS * option bool.

(** X4. Whenever [compareFiles] returns, no file is left at the temporary
    path [outFile + "tmp"]: the file written by the normalization is
    removed, and so is a file that was there before the job, also when the
    normalization wrote none. *)
Theorem compareFiles_removes_temporary
  (comparePath in1 in2 outFile : string) (fs fs' : FS) :
  compareFiles sh comparePath in1 in2 outFile fs = Returns (tt, fs') ->
  isRegularFile fs' (outFile +:+ "tmp") = false.
Proof.
  unfold compareFiles. intros H.
  apply bind_Returns in H. destruct H as ([inA inB] & fs1 & _ & H).
  apply bind_Returns in H. destruct H as (err & fs2 & _ & H).
  apply bind_Returns in H. destruct H as (u & fs3 & _ & H).
  apply bind_Returns in H. destruct H as ([img1 e1] & fs4 & _ & H).
  apply bind_Returns in H. destruct H as ([img2 e2] & fs5 & _ & H).
  apply bind_Returns in H. destruct H as ([imgDiff e3] & fs6 & _ & H).
  apply bind_Returns in H. destruct H as (u' & fs7 & _ & H).
  apply bind_Returns in H. destruct H as (e & fs8 & Hrm & H).
  inversion H; subst. eapply Remove_gone. exact Hrm.
Qed.

(** X5. [compareFiles] writes at its output path and at its temporary path
    only: every other path that the external tool leaves alone holds after
    the job what it held before.  So the inputs are never modified, unless
    the output directory is the directory of an input. *)
Theorem compareFiles_writes_own_paths_only
  (comparePath in1 in2 outFile p : string) (fs fs' : FS) :
  toolPreserves sh p ->
  p <> outFile -> p <> outFile +:+ "tmp" ->
  compareFiles sh comparePath in1 in2 outFile fs = Returns (tt, fs') ->
  fs' !! p = fs !! p.
Proof.
  intros Hsh Hout Htmp Hrun.
  apply (preserves_diffFiles sh p (mkDiffJob in1 in2 outFile comparePath)
           Hsh Hout Htmp fs fs').
  unfold diffFiles, mbind, Go_bind. simpl. rewrite Hrun. reflexivity.
Qed.

End PerJob.

(** The composite of three raster images is written to the output file
    when the file can be created and the composite is not too wide to be
    encoded. *)
Lemma combineImages_writes
  (A D B : image.Image) (outputFile : string) (fs : FS) :
  raster A -> raster D -> raster B ->
  creatable fs outputFile = true ->
  width A + width D + width B < 2 ^ 32 ->
  exists canvas : image.Image,
    combineImages (Some A) (Some D) (Some B) outputFile fs
    = Returns (tt, <[outputFile := vfs.File (png.encoded canvas)]> fs) /\
    width canvas = width A + width D + width B /\
    height canvas = Z.max (Z.max (height A) (height D)) (height B) /\
    forall x y, image.At canvas x y = sideBySide A D B x y.
Proof.
  intros HA HD HB Hout Hwide.
  destruct (combineImages_canvas A D B _ _ HA HD HB eq_refl eq_refl)
    as [Hb Hat].
  destruct (raster_width A HA) as [HxA HwA], (raster_width D HD) as [HxD HwD],
    (raster_width B HB) as [HxB HwB].
  destruct (raster_height A HA) as [HyA HhA], (raster_height D HD) as [HyD HhD],
    (raster_height B HB) as [HyB HhB].
  pose proof (Rect_origin (width A + width D + width B)
                (Z.max (Z.max (height A) (height D)) (height B))) as HR.
  rewrite <- Hb in HR. specialize (HR ltac:(lia) ltac:(lia)).
  match type of HR with image.Bounds ?c = _ =>
    assert (Hw : width c = width A + width D + width B)
      by (unfold width at 1; rewrite HR; unfold image.Dx; simpl; lia);
    assert (Hh : height c = Z.max (Z.max (height A) (height D)) (height B))
      by (unfold height at 1; rewrite HR; unfold image.Dy; simpl; lia)
  end.
  eexists. split; [ | split; [exact Hw | split; [exact Hh | exact Hat]] ].
  cbv beta iota zeta delta
    [combineImages mbind mret Go_bind Go_ret Image_Bounds draw.Draw].
  rewrite HxA, HxD, HxB, HyA, HyD, HyB, !intMax_max.
  rewrite !(add_small (width A) (width D)) by lia.
  rewrite add_small by lia.
  match goal with
  | |- context [png.Encode _ ?c] =>
      pose proof (Create_Encode_run outputFile c fs) as Hrun
  end.
  unfold mbind, Go_bind in Hrun. rewrite Hout in Hrun.
  apply Hrun; [rewrite Hw | rewrite Hh]; lia.
Qed.

Section Composite.

Variable sh : string -> FS -> FS * option bool.

(** X6. The whole of a job on two inputs of equal height.  When the
    external tool, whatever its exit status, leaves at the output path a
    file that decodes, and the two inputs still decode once it has run,
    [compareFiles] returns, and the output file holds the composite of the
    first input, the tool's output and the second input, side by side in
    this order: the output of the tool is overwritten.  Nothing is left at
    the temporary path. *)
Theorem compareFiles_composite
  (comparePath in1 in2 outFile : string) (fs fs2 : FS) (ok : bool)
  (A B A' B' D : image.Image) :
  decodesTo fs in1 A -> decodesTo fs in2 B -> height A = height B ->
  sh (comparePath +:+ " " +:+ in1 +:+ " " +:+ in2
        +:+ " -highlight-color blue " +:+ outFile) fs = (fs2, Some ok) ->
  decodesTo fs2 in1 A' -> decodesTo fs2 in2 B' -> decodesTo fs2 outFile D ->
  width A' + width D + width B' < 2 ^ 32 ->
  exists canvas fs',
    compareFiles sh comparePath in1 in2 outFile fs = Returns (tt, fs') /\
    fs' !! outFile = Some (vfs.File (png.encoded canvas)) /\
    isRegularFile fs' (outFile +:+ "tmp") = false /\
    width canvas = width A' + width D + width B' /\
    height canvas = Z.max (Z.max (height A') (height D)) (height B') /\
    forall x y, image.At canvas x y = sideBySide A' D B' x y.
Proof.
  intros H1 H2 Hh Hsh H1' H2' HD Hwide.
  destruct (combineImages_writes A' D B' outFile fs2)
    as (canvas & Hcomb & Hw & Hht & Hat);
    eauto using decodesTo_raster, decodesTo_creatable.
  assert (Hnorm : commonSizeImageLengths in1 in2 (outFile +:+ "tmp") fs
                  = Returns ((in1, in2), fs)).
  { destruct (raster_height A (decodesTo_raster _ _ _ H1)) as [Hy1 _].
    destruct (raster_height B (decodesTo_raster _ _ _ H2)) as [Hy2 _].
    unfold commonSizeImageLengths, mbind, Go_bind. rewrite H1, H2. simpl.
    rewrite Hy1, Hy2, Hh.
    destruct (Z.gtb_spec (height B) (height B)); [lia | reflexivity]. }
  destruct (os.Remove (outFile +:+ "tmp")
              (<[outFile := vfs.File (png.encoded canvas)]> fs2))
    as [[e fs'] | | fs'] eqn:Hrm.
  2, 3: (unfold os.Remove in Hrm;
         destruct (_ !! _) as [[[ | entry entries] | data] | ]; discriminate).
  exists canvas, fs'.
  assert (Hrun : compareFiles sh comparePath in1 in2 outFile fs = Returns (tt, fs')).
  { unfold compareFiles, mbind, Go_bind. rewrite Hnorm.
    unfold exec_Output. rewrite Hsh.
    destruct ok; cbv beta iota zeta delta [mret Go_ret];
      unfold decodesTo in H1', H2', HD; rewrite H1', H2', HD;
      rewrite Hcomb, Hrm; reflexivity. }
  split; [exact Hrun |].
  split; [ | split; [ eapply Remove_gone; exact Hrm | auto ] ].
  rewrite (preserves_Returns _ _ _ _ _
             (preserves_Remove outFile (outFile +:+ "tmp") (append_tmp_neq outFile))
             Hrm).
  apply lookup_insert_eq.
Qed.

End Composite.

Lemma compareFiles_composite_witness :
  exists canvas fs',
    compareFiles Sample.compareTool "compare" "a/x.png" "b/x.png" "out/x.png"
      Sample.fs = Returns (tt, fs') /\
    fs' !! "out/x.png" = Some (vfs.File (png.encoded canvas)) /\
    width canvas = 6 /\ height canvas = 2.
Proof.
  destruct (compareFiles_composite Sample.compareTool "compare" "a/x.png"
              "b/x.png" "out/x.png" Sample.fs
              (<["out/x.png" := vfs.File (vfs.PNG 2 2 (Sample.solid 0 0 65535))]>
                 Sample.fs) false
              (png.decoded 2 2 Sample.gradient)
              (png.decoded 2 2 (Sample.solid 65535 0 0))
              (png.decoded 2 2 Sample.gradient)
              (png.decoded 2 2 (Sample.solid 65535 0 0))
              (png.decoded 2 2 (Sample.solid 0 0 65535)))
    as (canvas & fs' & Hrun & Hout & _ & Hw & Hh & _).
  - apply decodesTo_PNG; [reflexivity | lia | lia].
  - apply decodesTo_PNG; [reflexivity | lia | lia].
  - reflexivity.
  - reflexivity.
  - apply decodesTo_PNG; [reflexivity | lia | lia].
  - apply decodesTo_PNG; [reflexivity | lia | lia].
  - apply decodesTo_PNG; [reflexivity | lia | lia].
  - vm_compute. reflexivity.
  - exists canvas, fs'. repeat split; assumption.
Defined.

Lemma combineImages_panics_on_nil_witness :
  combineImages (Some Sample.imageA) None (Some Sample.imageB) "out/x.png"
    Sample.fs = Panics.
Proof.
  apply (combineImages_panics_on_nil (Some Sample.imageA) None
           (Some Sample.imageB) "out/x.png" Sample.fs).
  right. left. reflexivity.
Defined.

Lemma compareFiles_removes_temporary_witness :
  (exists fs1,
      commonSizeImageLengths "a/tall.png" "b/tall.png" "out/tall.pngtmp" Sample.fs
      = Returns (("a/tall.png", "out/tall.pngtmp"), fs1) /\
      isRegularFile fs1 "out/tall.pngtmp" = true) /\
  exists fs',
    compareFiles Sample.diffTool "compare" "a/tall.png" "b/tall.png"
      "out/tall.png" Sample.fs = Returns (tt, fs') /\
    isRegularFile fs' "out/tall.pngtmp" = false.
Proof.
  split.
  - assert (Ht : Sample.temporary = true) by (vm_compute; reflexivity).
    unfold Sample.temporary in Ht.
    destruct (commonSizeImageLengths _ _ _ Sample.fs) as [[[pA pB] fs1] | | ];
      [ | discriminate .. ].
    rewrite !andb_true_iff in Ht. destruct Ht as [[HA HB] Hf].
    apply String.eqb_eq in HA, HB. subst pA pB.
    exists fs1. split; [reflexivity | exact Hf].
  - assert (Hb : returned (compareFiles Sample.diffTool "compare" "a/tall.png"
                             "b/tall.png" "out/tall.png" Sample.fs) = true)
      by (vm_compute; reflexivity).
    destruct (compareFiles Sample.diffTool "compare" "a/tall.png" "b/tall.png"
                "out/tall.png" Sample.fs) as [[[] fs'] | | fs'] eqn:Hrun;
      [ | discriminate .. ].
    exists fs'. split; [reflexivity |].
    exact (compareFiles_removes_temporary Sample.diffTool "compare" "a/tall.png"
             "b/tall.png" "out/tall.png" Sample.fs fs' Hrun).
Defined.

Lemma compareFiles_writes_own_paths_only_witness :
  exists fs',
    compareFiles Sample.compareTool "compare" "a/x.png" "b/x.png" "out/x.png"
      Sample.fs = Returns (tt, fs') /\
    fs' !! "a/x.png" = Sample.fs !! "a/x.png".
Proof.
  assert (Hb : returned (compareFiles Sample.compareTool "compare" "a/x.png"
                           "b/x.png" "out/x.png" Sample.fs) = true)
    by (vm_compute; reflexivity).
  destruct (compareFiles Sample.compareTool "compare" "a/x.png" "b/x.png"
              "out/x.png" Sample.fs) as [[[] fs'] | | fs'] eqn:Hrun;
    [ | discriminate .. ].
  exists fs'. split; [reflexivity |].
  apply (compareFiles_writes_own_paths_only Sample.compareTool "compare"
           "a/x.png" "b/x.png" "out/x.png" "a/x.png" Sample.fs fs');
    [ apply compareTool_preserves; discriminate | discriminate | discriminate
    | exact Hrun ].
Defined.

(** ** The job source and [main] *)

Lemma get_append_r (s t : string) (k : nat) :
  String.get (String.length s + k) (s +:+ t) = String.get k t.
Proof. induction s as [ | c s IH]; simpl; [reflexivity | exact IH]. Qed.

Lemma substring_append_r (s t : string) (m : nat) :
  String.substring (String.length s) m (s +:+ t) = String.substring 0 m t.
Proof. induction s as [ | c s IH]; simpl; [reflexivity | exact IH]. Qed.

Lemma length_append (s t : string) :
  String.length (s +:+ t) = (String.length s + String.length t)%nat.
Proof. induction s as [ | c s IH]; simpl; [reflexivity | rewrite IH; reflexivity]. Qed.

(** A name that ends in [.png] has the extension [.png], whatever comes
    before: other dots, or nothing at all. *)
Lemma Ext_png (stem : string) : filepath.Ext (stem +:+ ".png") = ".png".
Proof.
  unfold filepath.Ext. rewrite length_append. simpl String.length.
  replace (String.length stem + 4)%nat with (S (String.length stem + 3)) by lia.
  simpl. rewrite get_append_r. simpl.
  replace (String.length stem + 3)%nat with (S (String.length stem + 2)) by lia.
  simpl. rewrite get_append_r. simpl.
  replace (String.length stem + 2)%nat with (S (String.length stem + 1)) by lia.
  simpl. rewrite get_append_r. simpl.
  replace (String.length stem + 1)%nat with (S (String.length stem + 0)) by lia.
  simpl. rewrite get_append_r. simpl.
  rewrite Nat.add_0_r, length_append. simpl String.length.
  replace (String.length stem + 4 - String.length stem)%nat with 4%nat by lia.
  rewrite substring_append_r. reflexivity.
Qed.

Section JobSourceMore.

Variable Join : string -> string -> string.

(** X7. Every entry of the listing whose name ends in [.png] gets its job,
    with the three paths made of that name; and the generator sends no more
    jobs than the listing has entries. *)
Theorem generatorLoop_sends_png
  (comparePath inDir1 indDir2 outDir stem : string) (files : list string) :
  stem +:+ ".png" ∈ files ->
  mkDiffJob (Join inDir1 (stem +:+ ".png")) (Join indDir2 (stem +:+ ".png"))
    (Join outDir (stem +:+ ".png")) comparePath
  ∈ generatorLoop Join comparePath inDir1 indDir2 outDir files
  /\ (length (generatorLoop Join comparePath inDir1 indDir2 outDir files)
      <= length files)%nat.
Proof.
  intros Hin. rewrite generatorLoop_filter_map. split.
  - apply list_elem_of_fmap. exists (stem +:+ ".png"). split; [reflexivity |].
    apply list_elem_of_filter. split; [apply Ext_png | exact Hin].
  - rewrite length_map. apply length_filter.
Qed.

Variable flag_Parse : list string -> Flags.

(** X8. What [main] comes to, by the command line alone.  It starts the
    pipeline exactly when the command line has four words and [flag.Parse]
    returns; with another number of words, and [flag.Parse] returning, it
    prints the usage and exits, always with status 0; it exits with the
    status of [flag.Parse] when that exits; and it panics exactly on an
    empty [os.Args]. *)
Theorem main_starts_iff (args : list string) (fs : FS) :
  ((exists s, main Join flag_Parse args fs = Started s)
   <-> length args = 4%nat /\
       exists threads compare, flag_Parse (tail args) = Parsed threads compare) /\
  (forall status,
      main Join flag_Parse args fs = ExitUsage status
      <-> status = 0 /\ args <> [] /\ length args <> 4%nat /\
          exists threads compare, flag_Parse (tail args) = Parsed threads compare) /\
  (forall status,
      main Join flag_Parse args fs = ExitFlag status
      <-> args <> [] /\ flag_Parse (tail args) = FlagExit status) /\
  (main Join flag_Parse args fs = MainPanics <-> args = []).
Proof.
  destruct args as [ | prog arguments].
  - simpl. split; [ | split; [ | split ] ].
    + split; [intros [s Hs]; discriminate | intros [Hl _]; discriminate].
    + intros status. split; [discriminate |].
      intros (_ & Hn & _). exfalso. apply Hn. reflexivity.
    + intros status. split; [discriminate |].
      intros (Hn & _). exfalso. apply Hn. reflexivity.
    + split; reflexivity.
  - simpl tail.
    assert (Hne : prog :: arguments <> []) by discriminate.
    destruct (flag_Parse arguments) as [threads compare | status'] eqn:Hp.
    + destruct (decide (length (prog :: arguments) = 4%nat)) as [Hlen | Hlen].
      * destruct arguments as [ | a1 [ | a2 [ | a3 [ | a4 rest]]]];
          try discriminate.
        pose proof (main_starts Join flag_Parse prog a1 a2 a3 fs) as Hm.
        rewrite Hp in Hm. destruct Hm as (g & fs' & _ & Hm). rewrite Hm.
        split; [ | split; [ | split ] ].
        -- split; [intros _; split; [reflexivity | eauto] | intros _; eauto].
        -- intros status. split; [discriminate |].
           intros (_ & _ & Hn & _). exfalso. apply Hn. reflexivity.
        -- intros status. split; [discriminate | intros (_ & H); discriminate].
        -- split; discriminate.
      * assert (Hm : main Join flag_Parse (prog :: arguments) fs = ExitUsage 0).
        { unfold main. rewrite Hp.
          replace (length (prog :: arguments) =? 4)%nat with false
            by (symmetry; apply Nat.eqb_neq; exact Hlen).
          reflexivity. }
        rewrite Hm. split; [ | split; [ | split ] ].
        -- split; [intros [s Hs]; discriminate | intros [Hl _]; contradiction].
        -- intros status. split.
           ++ intros H. inversion H. repeat split; eauto.
           ++ intros (-> & _). reflexivity.
        -- intros status. split; [discriminate | intros (_ & H); discriminate].
        -- split; discriminate.
    + assert (Hm : main Join flag_Parse (prog :: arguments) fs = ExitFlag status').
      { unfold main. rewrite Hp. reflexivity. }
      rewrite Hm. split; [ | split; [ | split ] ].
      * split; [intros [s Hs]; discriminate |].
        intros (_ & t & c & H). discriminate.
      * intros status. split; [discriminate |].
        intros (_ & _ & _ & t & c & H). discriminate.
      * intros status. split.
        -- intros H. inversion H. split; [exact Hne | reflexivity].
        -- intros (_ & H). inversion H. reflexivity.
      * split; discriminate.
Qed.


End JobSourceMore.

Lemma generatorLoop_sends_png_witness :
  Sample.jobX
  ∈ generatorLoop Sample.join "compare" "a" "b" "out" ["notes.txt"; "x.png"; "y.png"]
  /\ (length (generatorLoop Sample.join "compare" "a" "b" "out"
                ["notes.txt"; "x.png"; "y.png"]) <= 3)%nat.
Proof.
  apply (generatorLoop_sends_png Sample.join "compare" "a" "b" "out" "x"
           ["notes.txt"; "x.png"; "y.png"]).
  apply elem_of_cons. right. apply elem_of_cons. left. reflexivity.
Defined.


(** ** The pipeline *)

Section PipelineMore.

Variable sh : string -> FS -> FS * option bool.

(** X10. Only the run of a diff worker changes the file system: the
    generator, the filter, the forwarders and [main] never write. *)
Theorem move_writes_in_WorkerRun_only (m : Move) (s s' : Pipeline) :
  move sh m s = Some s' ->
  (forall i, m <> WorkerRun i) ->
  world s' = world s.
Proof.
  exact (move_world_frame sh m s s').
Qed.

Lemma move_idle (fs0 : FS) (m : Move) (s s' : Pipeline) :
  move sh m s = Some s' -> idle fs0 s -> idle fs0 s'.
Proof.
  intros Hm (Hws & Hfw & Hr & Hw).
  assert (Hworld : (forall i, m <> WorkerRun i) -> world s' = fs0)
    by (intros Hn; rewrite (move_world_frame sh m s s' Hm Hn); exact Hw).
  destruct s as [w g f ws fw n c r p]. simpl in *. subst ws fw r.
  unfold move, performDiffJobTask in Hm; simpl in Hm.
  destruct p; try discriminate.
  destruct m; simpl in Hm; try (destruct f; discriminate);
    specialize (Hworld ltac:(discriminate)).
  - destruct g as [[ | job jobs] | ]; try discriminate.
    destruct f; try discriminate. inversion Hm; subst. repeat split.
  - destruct g as [[ | job jobs] | ]; try discriminate.
    inversion Hm; subst. repeat split.
  - destruct f as [ | job | job | job | ]; try discriminate.
    rewrite filterDiffJobs_verdict in Hm.
    destruct (passes w job); inversion Hm; subst; repeat split.
  - destruct g; try discriminate. destruct f; try discriminate.
    inversion Hm; subst. repeat split.
  - destruct ((n =? 0) && negb c); try discriminate.
    inversion Hm; subst. repeat split.
  - destruct c; try discriminate. inversion Hm; subst. repeat split.
Qed.

(** X11. Without a worker ([-t 0], or a negative number) nothing is ever
    compared: in every state of every run [main] has received no job and
    the file system is as it was; and the fan-in, which waits for no
    one, can close its channel at once, so that [main] returns with
    status 0 while the jobs are still with the generator. *)
Theorem no_worker_no_result
  (threads : Z) (jobs : list DiffJob) (fs : FS) :
  threads <= 0 ->
  let s0 := start threads (Some (Ranging jobs)) fs in
  (forall s, rtc (step sh) s0 s -> ranged s = [] /\ world s = fs) /\
  exists s, run sh [CloseOut; MainReturn] s0 = Some s /\
            process s = Exited 0 /\ chIn s = Ranging jobs.
Proof.
  intros Ht s0.
  assert (Hn : Z.to_nat threads = 0%nat) by lia.
  assert (Hs0 : s0 = mkPipeline fs (Ranging jobs) Receiving [] [] 0 false [] Alive).
  { unfold s0, start, fanDiffJobsIn, fanOut. rewrite Hn. reflexivity. }
  split.
  - intros s Hrun.
    assert (Hidle : idle fs s).
    { assert (H0 : idle fs s0) by (rewrite Hs0; repeat split).
      clear Hs0. induction Hrun as [ | s1 s2 s3 [m Hm] _ IH]; [exact H0 |].
      apply IH. eapply move_idle; eassumption. }
    destruct Hidle as (_ & _ & Hr & Hw). split; assumption.
  - rewrite Hs0. eexists. split; [reflexivity |]. split; reflexivity.
Qed.

Lemma pending_le_length (l : list Forwarder) : (pending l <= length l)%nat.
Proof.
  unfold pending. induction l as [ | f l IH]; simpl; [lia |].
  unfold fmap in *. destruct f; simpl; lia.
Qed.

(** X12. The WaitGroup of the fan-in counts the forwarders that are not
    done: in every state of every run its counter is their number, it is
    never negative (so no [wg.Done()] panics) and never above the number
    of workers, and the combined channel is closed only when it is zero. *)
Theorem waitGroup_counts_forwarders
  (threads : Z) (g : option Generator) (fs : FS) (s : Pipeline) :
  rtc (step sh) (start threads g fs) s ->
  wg s = Z.of_nat (pending (fanIn s)) /\
  0 <= wg s <= Z.of_nat (Z.to_nat threads) /\
  (chOutClosed s = true -> wg s = 0).
Proof.
  intros Hrun.
  pose proof (reachable_invariant sh _ _ Hrun (start_invariant threads g fs))
    as (I1 & I2 & _ & _ & _ & I6 & _).
  pose proof (reachable_workers sh _ _ Hrun) as Hlen.
  assert (Hstart : length (chFanned (start threads g fs)) = Z.to_nat threads).
  { destruct g; simpl; unfold fanOut; apply length_replicate. }
  pose proof (pending_le_length (fanIn s)) as Hp.
  split; [exact I2 |]. split; [ | exact I6 ]. lia.
Qed.

(** X13. Nothing comes out of the fan-in that did not go in: in every
    state of every run, with any number of workers and also after a
    panic, the jobs [main] has received are among the jobs of the listing
    that pass the filter, none more often than the listing has it. *)
Theorem fan_in_emits_filtered_jobs_only
  (threads : Z) (jobs : list DiffJob) (fs : FS) (s : Pipeline) :
  independent sh jobs ->
  rtc (step sh) (start threads (Some (Ranging jobs)) fs) s ->
  ranged s ⊆+ filter (fun job => passes fs job) jobs.
Proof.
  intros Hind Hrun.
  destruct (reachable_conserved sh fs jobs Hind _ _ Hrun
              (start_conserved threads jobs fs))
    as ((done & Hsplit & Hperm) & _).
  rewrite Hsplit, filter_app, <- Hperm.
  apply submseteq_inserts_r. apply submseteq_inserts_r. reflexivity.
Qed.

End PipelineMore.

Section OneWorker.

Variable sh : string -> FS -> FS * option bool.
Variable fs0 : FS.
Variable jobs0 : list DiffJob.

Lemma lookup_singleton_Some {A : Type} (x y : A) (i : nat) :
  [x] !! i = Some y -> i = 0%nat /\ y = x.
Proof.
  destruct i as [ | i]; simpl; [ intros H; inversion H; auto | ].
  destruct i; discriminate.
Qed.

(** With one worker, every move keeps the jobs in the order of the
    listing. *)
Lemma move_inOrder (m : Move) (s s' : Pipeline) :
  move sh m s = Some s' ->
  conserved fs0 jobs0 s -> inOrder fs0 jobs0 s -> inOrder fs0 jobs0 s'.
Proof.
  destruct s as [w g f ws fw n c r p].
  unfold move, performDiffJobTask, conserved, inOrder, upstream; simpl.
  intros Hm (_ & Hpass) (done & st & fd & -> & -> & Hsplit & Hord).
  destruct p; try discriminate.
  destruct m.
  - (* GeneratorSend *)
    destruct g as [[ | job jobs] | ]; try discriminate.
    destruct f; try discriminate.
    inversion Hm; subst s'; clear Hm; simpl in *.
    exists done, st, fd. auto.
  - (* GeneratorClose *)
    destruct g as [[ | job jobs] | ]; try discriminate.
    inversion Hm; subst s'; clear Hm; simpl in *.
    exists done, st, fd. auto.
  - (* FilterRun *)
    destruct f as [ | job | job | job | ]; try discriminate.
    rewrite filterDiffJobs_verdict in Hm.
    assert (Hj : passes w job = passes fs0 job)
      by (apply Hpass; simpl; apply elem_of_cons; left; reflexivity).
    rewrite Hj in Hm.
    destruct (passes fs0 job) eqn:Hv; inversion Hm; subst s'; clear Hm; simpl in *.
    + exists (done ++ [job]), st, fd.
      split; [reflexivity |]. split; [reflexivity |].
      split; [ rewrite <- app_assoc; exact Hsplit | ].
      rewrite filter_app, filter_cons_True, filter_nil by (rewrite Hv; exact I).
      rewrite Hord, ?app_nil_r, <- ?app_assoc. simpl. rewrite ?app_nil_r. reflexivity.
    + exists (done ++ [job]), st, fd.
      split; [reflexivity |]. split; [reflexivity |].
      split; [ rewrite <- app_assoc; exact Hsplit | ].
      rewrite filter_app, filter_cons_False, filter_nil, app_nil_r
        by (rewrite Hv; exact id).
      exact Hord.
  - (* FilterClose *)
    destruct g as [jobs | ]; try discriminate.
    destruct f; try discriminate.
    inversion Hm; subst s'; clear Hm; simpl in *.
    exists done, st, fd. auto.
  - (* WorkerReceive *)
    destruct f as [ | | | job | ]; try discriminate.
    destruct ([st] !! i) as [[ | | | | ] | ] eqn:Hws; try discriminate.
    apply lookup_singleton_Some in Hws. destruct Hws as [-> <-].
    inversion Hm; subst s'; clear Hm; simpl in *.
    exists done, (Holding job), fd.
    split; [reflexivity |]. split; [reflexivity |].
    split; [exact Hsplit |].
    rewrite Hord. simpl. rewrite ?app_nil_r. reflexivity.
  - (* WorkerRun *)
    destruct ([st] !! i) as [[ | job | job | job | ] | ] eqn:Hws; try discriminate.
    apply lookup_singleton_Some in Hws. destruct Hws as [-> <-].
    destruct (diffFiles sh job w) as [[res w'] | | w'] eqn:Hrun.
    + pose proof (diffFiles_returns_job sh job w w' res Hrun) as ->.
      inversion Hm; subst s'; clear Hm; simpl in *.
      exists done, (Sending job), fd. auto.
    + inversion Hm; subst s'; simpl. exists done, (Holding job), fd. auto.
    + inversion Hm; subst s'; clear Hm; simpl in *.
      exists done, (Calling job), fd. auto.
  - (* WorkerClose *)
    destruct f; try discriminate.
    destruct ([st] !! i) as [[ | | | | ] | ] eqn:Hws; try discriminate.
    apply lookup_singleton_Some in Hws. destruct Hws as [-> <-].
    inversion Hm; subst s'; clear Hm; simpl in *.
    exists done, StageClosed, fd. auto.
  - (* ForwarderReceive *)
    destruct ([st] !! i) as [[ | | | job | ] | ] eqn:Hws; try discriminate.
    apply lookup_singleton_Some in Hws. destruct Hws as [-> <-].
    destruct fd; try discriminate.
    inversion Hm; subst s'; clear Hm; simpl in *.
    exists done, Receiving, (FwdSending job). auto.
  - (* ForwarderDone *)
    destruct ([st] !! i) as [[ | | | | ] | ] eqn:Hws; try discriminate.
    apply lookup_singleton_Some in Hws. destruct Hws as [-> <-].
    destruct fd; try discriminate.
    inversion Hm; subst s'; clear Hm; simpl in *.
    exists done, StageClosed, FwdDone. auto.
  - (* MainReceive *)
    destruct ([fd] !! i) as [[ | job | ] | ] eqn:Hfw; try discriminate.
    apply lookup_singleton_Some in Hfw. destruct Hfw as [-> <-].
    destruct c; try discriminate.
    inversion Hm; subst s'; clear Hm; simpl in *.
    exists done, st, FwdReceiving.
    split; [reflexivity |]. split; [reflexivity |].
    split; [exact Hsplit |].
    rewrite Hord, <- ?app_assoc. reflexivity.
  - (* CloseOut *)
    destruct ((n =? 0) && negb c); try discriminate.
    inversion Hm; subst s'; clear Hm; simpl in *.
    exists done, st, fd. auto.
  - (* MainReturn *)
    destruct c; try discriminate.
    inversion Hm; subst s'; clear Hm; simpl in *.
    exists done, st, fd. auto.
Qed.

Hypothesis Hind : independent sh jobs0.

Lemma reachable_inOrder (s s' : Pipeline) :
  rtc (step sh) s s' ->
  conserved fs0 jobs0 s -> inOrder fs0 jobs0 s -> inOrder fs0 jobs0 s'.
Proof.
  induction 1 as [ | s1 s2 s3 [m Hm] _ IH]; [tauto |].
  intros Hc Ho. apply IH.
  - eapply move_conserved; eassumption.
  - eapply move_inOrder; eassumption.
Qed.

End OneWorker.

(** X14. With one worker the pipeline keeps the order of the listing: in
    every state of every run, what [main] has received is the beginning of
    the list of the jobs that pass the filter, in listing order; and when
    [main] returns it has received that whole list. *)
Theorem one_worker_keeps_order
  (sh : string -> FS -> FS * option bool) (jobs : list DiffJob) (fs : FS)
  (s : Pipeline) :
  independent sh jobs ->
  rtc (step sh) (start 1 (Some (Ranging jobs)) fs) s ->
  ranged s `prefix_of` filter (fun job => passes fs job) jobs /\
  (process s = Exited 0 -> ranged s = filter (fun job => passes fs job) jobs).
Proof.
  intros Hind Hrun.
  assert (H0 : inOrder fs jobs (start 1 (Some (Ranging jobs)) fs)).
  { exists [], Receiving, FwdReceiving. repeat split. }
  destruct (reachable_inOrder sh fs jobs Hind _ _ Hrun
              (start_conserved 1 jobs fs) H0)
    as (done & st & fd & Hws & Hfw & Hsplit & Hord).
  split.
  - rewrite Hsplit, filter_app, Hord, <- !app_assoc. eexists. reflexivity.
  - intros He.
    pose proof (reachable_invariant sh _ _ Hrun (start_invariant 1 _ fs)) as Hinv.
    destruct (invariant_closedInOrder s Hinv) as (_ & _ & _ & _ & C5).
    assert (Hall : allConsumed s).
    { apply closed_allConsumed; [exact Hinv | rewrite Hws; discriminate | exact (C5 He)]. }
    destruct (allConsumed_empty s Hall) as [Hup _].
    destruct Hall as (_ & Hf & Hst & Hfd).
    rewrite Hup, app_nil_r in Hsplit. subst done.
    rewrite Hord, Hf.
    rewrite (Hst st) by (rewrite Hws; apply elem_of_cons; left; reflexivity).
    rewrite (Hfd fd) by (rewrite Hfw; apply elem_of_cons; left; reflexivity).
    simpl. rewrite app_nil_r. reflexivity.
Qed.

Lemma one_worker_keeps_order_witness :
  let jobs := [Sample.jobX; Sample.jobTall] in
  let s := Sample.after Sample.diffTool Sample.oneWorker
             (start 1 (Some (Ranging jobs)) Sample.fs) in
  (process s = Exited 0 /\ ranged s = [Sample.jobX; Sample.jobTall]) /\
  ranged s `prefix_of` filter (fun job => passes Sample.fs job) jobs /\
  (process s = Exited 0 ->
   ranged s = filter (fun job => passes Sample.fs job) jobs).
Proof.
  intros jobs s. split; [split; vm_compute; reflexivity |].
  apply (one_worker_keeps_order Sample.diffTool jobs Sample.fs s).
  - exact sample_independent_two.
  - apply runs_reachable. vm_compute. reflexivity.
Defined.

Lemma move_writes_in_WorkerRun_only_witness :
  let s0 := start 1 (Some (Ranging [Sample.jobX; Sample.jobY])) Sample.fs in
  world (Sample.after Sample.compareTool [GeneratorSend] s0) = world s0.
Proof.
  intros s0.
  apply (move_writes_in_WorkerRun_only Sample.compareTool GeneratorSend s0).
  - reflexivity.
  - discriminate.
Defined.

Lemma no_worker_no_result_witness :
  let s0 := start 0 (Some (Ranging [Sample.jobX; Sample.jobY])) Sample.fs in
  (forall s, rtc (step Sample.compareTool) s0 s ->
             ranged s = [] /\ world s = Sample.fs) /\
  exists s, run Sample.compareTool [CloseOut; MainReturn] s0 = Some s /\
            process s = Exited 0 /\
            chIn s = Ranging [Sample.jobX; Sample.jobY].
Proof.
  apply (no_worker_no_result Sample.compareTool 0 [Sample.jobX; Sample.jobY]
           Sample.fs).
  lia.
Defined.

Lemma waitGroup_counts_forwarders_witness :
  let s := Sample.after Sample.compareTool Sample.schedule2
             (start 2 (Some (Ranging [Sample.jobX; Sample.jobY])) Sample.fs) in
  wg s = Z.of_nat (pending (fanIn s)) /\
  0 <= wg s <= Z.of_nat (Z.to_nat 2) /\
  (chOutClosed s = true -> wg s = 0).
Proof.
  intros s.
  apply (waitGroup_counts_forwarders Sample.compareTool 2
           (Some (Ranging [Sample.jobX; Sample.jobY])) Sample.fs s).
  apply (run_reachable _ Sample.schedule2). apply runs_after.
  vm_compute. reflexivity.
Defined.

Lemma fan_in_emits_filtered_jobs_only_witness :
  let jobs := [Sample.jobX; Sample.jobY] in
  let s := Sample.after Sample.compareTool Sample.schedule2
             (start 2 (Some (Ranging jobs)) Sample.fs) in
  ranged s = [Sample.jobX] /\
  ranged s ⊆+ filter (fun job => passes Sample.fs job) jobs.
Proof.
  intros jobs s. split; [vm_compute; reflexivity |].
  apply (fan_in_emits_filtered_jobs_only Sample.compareTool 2 jobs Sample.fs s).
  - exact sample_independent.
  - apply (run_reachable _ Sample.schedule2). apply runs_after.
    vm_compute. reflexivity.
Defined.

(** ** The filter, the worker and the external tool together *)

Section FilterAndWorker.

Variable sh : string -> FS -> FS * option bool.

(** X15. The filter looks at the existence of the inputs, not at what they
    hold: a job whose two inputs are regular files passes it, and when one
    of them fails to decode the diff worker then panics on that job. *)
Theorem filter_passes_what_worker_cannot_decode (job : DiffJob) (fs : FS) :
  isRegularFile fs (inFile1 job) = true ->
  isRegularFile fs (inFile2 job) = true ->
  failsToDecode fs (inFile1 job) \/ failsToDecode fs (inFile2 job) ->
  filterDiffJobs job fs = Returns (Some job, fs) /\
  diffFiles sh job fs = Panics.
Proof.
  intros Hr1 Hr2 Hfail. split.
  - rewrite filterDiffJobs_verdict. unfold passes. rewrite Hr1, Hr2. reflexivity.
  - unfold diffFiles, mbind, Go_bind.
    rewrite (compareFiles_panics_undecodable sh _ _ _ _ fs Hfail). reflexivity.
Qed.

Variable sh' : string -> FS -> FS * option bool.

(** X16. The exit status of the external tool has no influence on a job:
    two tools that leave the same files, and that exit on the same calls,
    behave alike in [compareFiles], whatever status they report. *)
Theorem compareFiles_ignores_exit_status
  (comparePath in1 in2 outFile : string) (fs : FS) :
  (forall cmd fs, (sh cmd fs).1 = (sh' cmd fs).1) ->
  (forall cmd fs, is_Some (sh cmd fs).2 <-> is_Some (sh' cmd fs).2) ->
  compareFiles sh comparePath in1 in2 outFile fs
  = compareFiles sh' comparePath in1 in2 outFile fs.
Proof.
  intros Hsame Hexit. unfold compareFiles, mbind, Go_bind.
  destruct (commonSizeImageLengths in1 in2 (outFile +:+ "tmp") fs)
    as [[[inA inB] fs1] | | fs1]; [ | reflexivity .. ].
  unfold exec_Output.
  match goal with
  | |- context [sh ?cmd fs1] =>
      specialize (Hsame cmd fs1); specialize (Hexit cmd fs1);
      destruct (sh cmd fs1) as [f1 o1]; destruct (sh' cmd fs1) as [f2 o2]
  end.
  simpl in Hsame, Hexit. subst f2.
  destruct o1 as [ok1 | ], o2 as [ok2 | ].
  - destruct ok1, ok2; reflexivity.
  - exfalso. destruct Hexit as [He _]. destruct (He (mk_is_Some _ _ eq_refl)).
    discriminate.
  - exfalso. destruct Hexit as [_ He]. destruct (He (mk_is_Some _ _ eq_refl)).
    discriminate.
  - reflexivity.
Qed.

End FilterAndWorker.

Lemma filter_passes_what_worker_cannot_decode_witness :
  filterDiffJobs Sample.jobBroken Sample.fs = Returns (Some Sample.jobBroken, Sample.fs) /\
  diffFiles Sample.compareTool Sample.jobBroken Sample.fs = Panics.
Proof.
  apply (filter_passes_what_worker_cannot_decode Sample.compareTool
           Sample.jobBroken Sample.fs).
  - reflexivity.
  - reflexivity.
  - left. exists ErrFormat.
    unfold loadAndDecodePng, os.Open, mbind, Go_bind.
    replace (Sample.fs !! inFile1 Sample.jobBroken)
      with (Some (vfs.File vfs.NotPNG)) by reflexivity.
    reflexivity.
Defined.

Lemma compareFiles_ignores_exit_status_witness :
  compareFiles Sample.compareTool "compare" "a/x.png" "b/x.png" "out/x.png" Sample.fs
  = compareFiles (fun cmd fs => ((Sample.compareTool cmd fs).1, Some true))
      "compare" "a/x.png" "b/x.png" "out/x.png" Sample.fs.
Proof.
  apply (compareFiles_ignores_exit_status Sample.compareTool
           (fun cmd fs => ((Sample.compareTool cmd fs).1, Some true))).
  - intros cmd fs. reflexivity.
  - intros cmd fs. unfold Sample.compareTool.
    destruct (String.eqb cmd _); simpl; split; intros _; eexists; reflexivity.
Defined.
